(** * repository.go: registering a repository in the site index

    A shallow embedding of [repository.go].  The program takes one name and
    runs four steps in order: [instance] (template materialisation), [index]
    (sorted insertion into the [<ul>] of [index.html]), [readme] (sorted
    insertion into the bullet list of [README.md]) and [record] (insertion
    into the JSON array of [repository.json]).

    Go strings are byte sequences and are compared bytewise, which is the
    order of [String.compare] on [string] (a list of 8-bit characters).
    The parsers and renderers of the markup libraries, the JSON codec and the
    template engine are libraries outside the repository: they appear as
    variables of the sections that use them. *)

From Stdlib Require Import String Ascii ZArith OrdersEx.
From stdpp Require Import base option list sorting gmap strings.

Local Open Scope string_scope.
Set Warnings "-register-all".

(** ** Go's order on strings *)

Module Str.

(** [a < b] and [a <= b] *)
Definition lt (a b : string) : Prop := String.compare a b = Lt.
Definition le (a b : string) : Prop := String.compare a b <> Gt.

(** Sorted ascending, without duplicates *)
Definition ascending (l : list string) : Prop :=
  StronglySorted le l /\ NoDup l.

Global Instance le_dec a b : Decision (le a b).
Proof. unfold le. apply _. Defined.

Global Instance lt_dec a b : Decision (lt a b).
Proof. unfold lt. apply _. Defined.

Global Instance ascending_dec l : Decision (ascending l).
Proof. unfold ascending. apply _. Defined.

End Str.

(** ** Results and behaviours *)

(** A Go [error] value, by its message; [option error] is an [error] that may
    be [nil]. *)
Definition error := string.

(** The result of a library call that returns a value and an error. *)
Inductive res (A : Type) : Type :=
  | Ok (a : A)
  | Err (e : error).
Arguments Ok {A} a.
Arguments Err {A} e.

(** What a Go function call does: it returns a value, it panics (nil
    dereference, index out of range, failed type assertion) or, for a model
    that runs a loop on fuel, the loop has not exited when the fuel is
    spent. *)
Inductive run (A : Type) : Type :=
  | Return (a : A)
  | Panic
  | Spin.
Arguments Return {A} a.
Arguments Panic {A}.
Arguments Spin {A}.

Definition run_bind {A B} (m : run A) (k : A -> run B) : run B :=
  match m with
  | Return a => k a
  | Panic => Panic
  | Spin => Spin
  end.

Notation "'let*' x := m 'in' k" := (run_bind m (fun x => k))
  (at level 10, x name, m at level 100, k at level 200).

(** [f] at the result of a run *)
Definition run_map {A B} (f : A -> B) (m : run A) : run B :=
  let* a := m in Return (f a).

(** [o] read through a pointer that may be nil. *)
Definition deref {A} (o : option A) : run A :=
  match o with
  | Some a => Return a
  | None => Panic
  end.

Definition nl : string := String (ascii_of_nat 10) EmptyString.

(** ** The file system seen by the program *)

Module OS.

(** [files] maps a path to its content.  [fsize], when set, is the largest
    file size the process may write (the file size limit of the process):
    it is the one way a write fails in this model. *)
Record World : Type := mkWorld {
  files : gmap string string;
  fsize : option nat
}.

Definition set_file (name data : string) (w : World) : World :=
  {| files := <[name := data]> (files w); fsize := fsize w |}.

(** [os.ReadFile] *)
Definition ReadFile (name : string) (w : World) : res string :=
  match files w !! name with
  | Some data => Ok data
  | None => Err ("open " ++ name ++ ": no such file or directory")
  end.

(** [os.WriteFile]: the file is opened with [O_WRONLY|O_CREATE|O_TRUNC], the
    data is written, the file is closed.  The file is truncated before the
    first byte is written; a write that fails part-way leaves what was
    written so far. *)
Definition WriteFile (name data : string) (w : World) : option error * World :=
  match fsize w with
  | Some n =>
      if (n <? String.length data)%nat
      then (Some ("write " ++ name ++ ": file too large"),
            set_file name (String.substring 0 n data) w)
      else (None, set_file name data w)
  | None => (None, set_file name data w)
  end.

End OS.

(** ** [record]: the manifest [repository.json] *)

Module Manifest.

Definition repositoryFile : string := "repository.json".

(** [for _, repository := range repositories { if repository == name ... }] *)
Fixpoint present (repositories : list string) (name : string) : bool :=
  match repositories with
  | [] => false
  | repository :: rest =>
      if String.eqb repository name then true else present rest name
  end.

(** [slices.Sort] on strings: the ascending arrangement of the slice.  Equal
    strings cannot be told apart, so every sorting algorithm gives this
    list. *)
Definition Sort (s : list string) : list string := merge_sort Str.le s.

(** The array handed to the encoder, or [None] when [record] returns before
    it ([return nil] inside the loop). *)
Definition record_update (repositories : list string) (name : string)
  : option (list string) :=
  if present repositories name then None
  else Some (Sort (repositories ++ [name])).

(** [json.MarshalIndent] at a slice of strings: every element on a line of
    its own that starts with [prefix] and one copy of [indent]; an empty
    slice is [[]].  [quote] is the encoder of one JSON string. *)
Definition MarshalIndent (quote : string -> string)
    (v : list string) (prefix indent : string) : res string :=
  match v with
  | [] => Ok "[]"
  | x :: xs =>
      Ok ("[" ++ nl ++ prefix ++ indent ++ quote x ++
          String.concat ""
            (map (fun y => "," ++ nl ++ prefix ++ indent ++ quote y) xs) ++
          nl ++ prefix ++ "]")
  end.

(** The array after one invocation for each name in turn *)
Fixpoint record_all (names : list string) (repositories : list string)
  : list string :=
  match names with
  | [] => repositories
  | name :: rest =>
      record_all rest (default repositories (record_update repositories name))
  end.

Section Codec.

(** [json.Unmarshal] into a [[]string], and the encoder of a JSON string. *)
Variable Unmarshal : string -> res (list string).
Variable quote : string -> string.

Definition record (name : string) (w : OS.World) : option error * OS.World :=
  match OS.ReadFile repositoryFile w with
  | Err e => (Some e, w)
  | Ok data =>
      match Unmarshal data with
      | Err e => (Some e, w)
      | Ok repositories =>
          match record_update repositories name with
          | None => (None, w)
          | Some repositories' =>
              match MarshalIndent quote repositories' "" "  " with
              | Err e => (Some e, w)
              | Ok data' => OS.WriteFile repositoryFile data' w
              end
          end
      end
  end.

(** The decoder reads back the array that [record] writes for [name] in
    world [w]. *)
Definition reads_back (name : string) (w : OS.World) : Prop :=
  forall data repositories repositories' data',
    OS.ReadFile repositoryFile w = Ok data ->
    Unmarshal data = Ok repositories ->
    record_update repositories name = Some repositories' ->
    MarshalIndent quote repositories' "" "  " = Ok data' ->
    Unmarshal data' = Ok repositories'.

End Codec.

End Manifest.

(** ** [index]: the link list of [index.html] *)

Module Html.

Definition indexFile : string := "index.html".

(** [html.NodeType] *)
Inductive NodeType : Type :=
  | ErrorNode
  | TextNode
  | DocumentNode
  | ElementNode
  | CommentNode
  | DoctypeNode
  | RawNode.

Global Instance NodeType_eq_dec : EqDecision NodeType.
Proof. solve_decision. Defined.

(** [html.Node].  The children of a node are the list that starts at
    [FirstChild] and follows [NextSibling]. *)
Inductive Node : Type := mkNode {
  Type_ : NodeType;
  Data : string;
  Attr : list (string * string);
  Children : list Node
}.

Definition FirstChild (n : Node) : option Node := head (Children n).

Definition set_children (children : list Node) (n : Node) : Node :=
  {| Type_ := Type_ n; Data := Data n; Attr := Attr n; Children := children |}.

(** A pointer into the document is the list of child positions that leads
    from the root to the node. *)
Fixpoint get (p : list nat) (n : Node) : option Node :=
  match p with
  | [] => Some n
  | i :: p' =>
      match Children n !! i with
      | Some c => get p' c
      | None => None
      end
  end.

(** The document after the node under pointer [p] was changed by [f]. *)
Fixpoint update (p : list nat) (f : Node -> Node) (n : Node) : Node :=
  match p with
  | [] => f n
  | i :: p' => set_children (alter (update p' f) i (Children n)) n
  end.

(** [child.Type == html.ElementNode && child.Data == tag] *)
Definition is_element (tag : string) (child : Node) : bool :=
  bool_decide (Type_ child = ElementNode) && String.eqb (Data child) tag.

(** The inner loop of the search: the position of the first child that is an
    element called [tag], with that child. *)
Fixpoint find_child (children : list Node) (tag : string)
  : option (nat * Node) :=
  match children with
  | [] => None
  | child :: siblings =>
      if is_element tag child then Some (0, child)
      else prod_map S id <$> find_child siblings tag
  end.

(** The outer loop [for len(elementPathParts) > 0]: one unit of fuel for each
    iteration.  When no child matches, the iteration changes neither
    [element] nor [elementPathParts].  The result is the pointer to
    [element] when the loop exits, relative to the node it started from. *)
Fixpoint locate (fuel : nat) (element : Node) (elementPathParts : list string)
  : run (list nat) :=
  match elementPathParts with
  | [] => Return []
  | tag :: rest =>
      match fuel with
      | O => Spin
      | S fuel' =>
          match find_child (Children element) tag with
          | Some (i, child) => let* p := locate fuel' child rest in Return (i :: p)
          | None => locate fuel' element elementPathParts
          end
      end
  end.

Definition elementPath : list string := ["html"; "body"; "div"; "ul"].

(** [newChildren]: the list item and the text node that follows it *)
Definition newChildren (name : string) : list Node :=
  [ {| Type_ := ElementNode; Data := "li"; Attr := [];
       Children :=
         [ {| Type_ := ElementNode; Data := "a";
              Attr := [("href", "/" ++ name)];
              Children :=
                [ {| Type_ := TextNode; Data := name; Attr := [];
                     Children := [] |} ] |} ] |};
    {| Type_ := TextNode; Data := nl ++ "            "; Attr := [];
       Children := [] |} ].

(** [child.FirstChild.FirstChild.Data] *)
Definition anchor_text (child : Node) : run string :=
  let* a := deref (FirstChild child) in
  let* t := deref (FirstChild a) in
  Return (Data t).

(** The loop that looks for the insertion point: the position of the child
    at which it breaks, [None] when it runs off the end of the list
    ([child == nil]). *)
Fixpoint scan (children : list Node) (name : string) : run (option nat) :=
  match children with
  | [] => Return None
  | child :: siblings =>
      if bool_decide (Type_ child = ElementNode) then
        let* key := anchor_text child in
        if String.leb name key then Return (Some 0)
        else let* r := scan siblings name in Return (option_map S r)
      else let* r := scan siblings name in Return (option_map S r)
  end.

(** [element.InsertBefore(newChild, child)] with [child] at position [i],
    and [element.AppendChild(newChild)], on the list of children. *)
Definition InsertBefore (children : list Node) (newChild : Node) (i : nat)
  : list Node :=
  take i children ++ newChild :: drop i children.

Definition AppendChild (children : list Node) (newChild : Node) : list Node :=
  children ++ [newChild].

(** [for _, newChild := range newChildren { element.InsertBefore(newChild,
    child) }]: [child] moves one position to the right at each insertion. *)
Fixpoint InsertAllBefore (children : list Node) (news : list Node) (i : nat)
  : list Node :=
  match news with
  | [] => children
  | newChild :: rest =>
      InsertAllBefore (InsertBefore children newChild i) rest (S i)
  end.

(** The children of the list after "add our item", or [None] when the name
    is found ("don't duplicate": [index] returns [nil] at once). *)
Definition add_item (children : list Node) (name : string)
  : run (option (list Node)) :=
  let* r := scan children name in
  match r with
  | Some i =>
      let* child := deref (children !! i) in
      let* key := anchor_text child in
      if String.eqb key name then Return None
      else Return (Some (InsertAllBefore children (newChildren name) i))
  | None => Return (Some (fold_left AppendChild (newChildren name) children))
  end.

(** [child] put back in front of what [add_item] made of its siblings *)
Definition add_rest (child : Node) (r : run (option (list Node)))
  : run (option (list Node)) :=
  let* r' := r in Return (option_map (cons child) r').

(** The keys of the list: the anchor texts of the element children, in
    order. *)
Definition is_entry (child : Node) : bool :=
  bool_decide (Type_ child = ElementNode).

Definition key (child : Node) : option string :=
  match anchor_text child with
  | Return k => Some k
  | _ => None
  end.

Definition keys (children : list Node) : list string :=
  omap key (List.filter is_entry children).

(** Every element child has an anchor text to compare. *)
Definition linked (children : list Node) : Prop :=
  Forall (fun child => Type_ child = ElementNode -> is_Some (key child))
    children.

(** An [<li>] whose first child is an anchor whose first child is a text
    node, and a list whose element children all are like that. *)
Definition li_shape (child : Node) : Prop :=
  Data child = "li" /\
  exists a t,
    FirstChild child = Some a /\ Type_ a = ElementNode /\ Data a = "a" /\
    FirstChild a = Some t /\ Type_ t = TextNode.

Definition list_shape (children : list Node) : Prop :=
  Forall (fun child => Type_ child = ElementNode -> li_shape child) children.

(** The part of [index] between the parser and the renderer: the document to
    render, or [None] when [index] returns before rendering. *)
Definition index_update (fuel : nat) (document : Node) (name : string)
  : run (option Node) :=
  let* p := locate fuel document elementPath in
  let* element := deref (get p document) in
  let* r := add_item (Children element) name in
  Return (option_map
            (fun children => update p (set_children children) document) r).

(** The children of the list that [index] locates in a document *)
Definition list_children (fuel : nat) (document : Node) : run (list Node) :=
  let* p := locate fuel document elementPath in
  let* element := deref (get p document) in
  Return (Children element).

(** The document after one invocation for each name in turn, each starting
    from the document the one before left ([index] rewrites the file only
    when it has added the item). *)
Fixpoint index_all (fuel : nat) (names : list string) (document : Node)
  : run Node :=
  match names with
  | [] => Return document
  | name :: rest =>
      let* r := index_update fuel document name in
      index_all fuel rest (default document r)
  end.

(** The children of the list after one invocation, and after one
    invocation for each name in turn *)
Definition add_one (children : list Node) (name : string) : run (list Node) :=
  let* r := add_item children name in Return (default children r).

Fixpoint add_all (names : list string) (children : list Node)
  : run (list Node) :=
  match names with
  | [] => Return children
  | name :: rest =>
      let* children' := add_one children name in add_all rest children'
  end.

Section Codec.

(** [html.Parse] and [html.Render] *)
Variable Parse : string -> res Node.
Variable Render : Node -> res string.

Definition index (fuel : nat) (name : string) (w : OS.World)
  : run (option error * OS.World) :=
  match OS.ReadFile indexFile w with
  | Err e => Return (Some e, w)
  | Ok documentData =>
      match Parse documentData with
      | Err e => Return (Some e, w)
      | Ok document =>
          let* r := index_update fuel document name in
          match r with
          | None => Return (None, w)
          | Some document' =>
              match Render document' with
              | Err e => Return (Some e, w)
              | Ok documentBuffer =>
                  Return (OS.WriteFile indexFile documentBuffer w)
              end
          end
      end
  end.

(** The parser reads back the document that [index] renders for [name] in
    world [w]. *)
Definition reads_back (fuel : nat) (name : string) (w : OS.World) : Prop :=
  forall documentData document document' documentBuffer,
    OS.ReadFile indexFile w = Ok documentData ->
    Parse documentData = Ok document ->
    index_update fuel document name = Return (Some document') ->
    Render document' = Ok documentBuffer ->
    Parse documentBuffer = Ok document'.

End Codec.

(** Sample documents *)

Definition text (s : string) : Node :=
  {| Type_ := TextNode; Data := s; Attr := []; Children := [] |}.
Definition elem (tag : string) (children : list Node) : Node :=
  {| Type_ := ElementNode; Data := tag; Attr := []; Children := children |}.
Definition item (name : string) : Node :=
  elem "li" [ {| Type_ := ElementNode; Data := "a";
                 Attr := [("href", "/" ++ name)];
                 Children := [text name] |} ].
Definition page (body : list Node) : Node :=
  {| Type_ := DocumentNode; Data := ""; Attr := [];
     Children := [elem "html" [elem "head" []; elem "body" body]] |}.

End Html.

(** ** [readme]: the bullet list of [README.md] *)

Module Md.

Definition readmeFile : string := "README.md".

(** [ast.ListType] flags of the Markdown library: [1 << 4] and [1 << 5] *)
Definition ListItemBeginningOfList : Z := 16.
Definition ListItemEndOfList : Z := 32.

(** The node types of the Markdown library that embed [ast.Container], other
    than [ast.ListItem], and those that embed [ast.Leaf]. *)
Inductive ContainerKind : Type :=
  | Document
  | List
  | Paragraph
  | Heading
  | BlockQuote
  | Emph
  | Strong
  | Link (Destination : string).

Inductive LeafKind : Type :=
  | Text
  | Code
  | CodeBlock
  | HTMLSpan
  | Softbreak
  | HorizontalRule.

(** [ast.Node] *)
Inductive Node : Type :=
  | ListItem (ListFlags : Z) (Children : list Node)
  | Container (kind : ContainerKind) (Children : list Node)
  | Leaf (kind : LeafKind) (Literal : string).

(** [n.AsContainer()] is nil at a leaf, [n.AsLeaf()] is nil at a container;
    the code reads [.Children] and [.Literal] through them. *)
Definition AsContainer (n : Node) : option (list Node) :=
  match n with
  | ListItem _ children => Some children
  | Container _ children => Some children
  | Leaf _ _ => None
  end.

Definition AsLeaf (n : Node) : option string :=
  match n with
  | Leaf _ literal => Some literal
  | _ => None
  end.

(** [n.AsContainer().Children[i]] *)
Definition child (i : nat) (n : Node) : run Node :=
  let* children := deref (AsContainer n) in
  deref (children !! i).

(** The assignment [ListFlags = v] through the type assertion of [n] to a
    list item; the assertion panics at any other node. *)
Definition set_ListFlags (v : Z) (n : Node) : run Node :=
  match n with
  | ListItem _ children => Return (ListItem v children)
  | _ => Panic
  end.

(** [c.Children = children] at the container [c] of node [n] *)
Definition set_Children (children : list Node) (n : Node) : Node :=
  match n with
  | ListItem flags _ => ListItem flags children
  | Container kind _ => Container kind children
  | Leaf kind literal => Leaf kind literal
  end.

(** "create new list item" *)
Definition new_item (newListItemList : Node) : run Node :=
  let* list := child 0 newListItemList in
  let* newListItem := child 0 list in
  set_ListFlags 0 newListItem.

(** The link text of an entry, as the loop reads it *)
Definition content (entry : Node) : run string :=
  let* listItem := child 0 entry in
  let* link := child 1 listItem in
  let* linkText := child 0 link in
  deref (AsLeaf linkText).

(** How the loop over the entries ends: [return nil] at an entry equal to
    the name, or with [insertAt]. *)
Inductive place : Type :=
  | Found
  | InsertAt (insertAt : nat).

Definition shift (r : place) : place :=
  match r with
  | Found => Found
  | InsertAt insertAt => InsertAt (S insertAt)
  end.

Fixpoint scan (entries : list Node) (name : string) : run place :=
  match entries with
  | [] => Return (InsertAt 0)
  | entry :: rest =>
      let* c := content entry in
      if String.eqb c name then Return Found
      else if String.ltb name c then Return (InsertAt 0)
      else let* r := scan rest name in Return (shift r)
  end.

(** The two branches after the loop.  [newListItem] is a pointer that the
    new slice holds too, so a flag set through it shows in the slice. *)
Definition splice (entries : list Node) (newListItem : Node) (insertAt : nat)
  : run (list Node) :=
  if (insertAt <? length entries)%nat then
    let entries' := (take insertAt entries ++ [newListItem] ++
                     drop insertAt entries)%list in
    if (insertAt =? 0)%nat then
      let* newListItem' := set_ListFlags ListItemBeginningOfList newListItem in
      let entries' := <[insertAt := newListItem']> entries' in
      let* second := deref (entries' !! 1%nat) in
      let* second' := set_ListFlags 0 second in
      Return (<[1%nat := second']> entries')
    else Return entries'
  else
    let* newListItem' := set_ListFlags ListItemEndOfList newListItem in
    let entries' := (entries ++ [newListItem'])%list in
    if (1 <? length entries')%nat then
      let* last := deref (entries' !! (length entries' - 2)%nat) in
      let* last' := set_ListFlags 0 last in
      Return (<[(length entries' - 2)%nat := last']> entries')
    else Return entries'.

(** The entries to store in the list, or [None] when [readme] returns from
    inside the loop. *)
Definition readme_entries (entries : list Node) (newListItem : Node)
    (name : string) : run (option (list Node)) :=
  let* r := scan entries name in
  match r with
  | Found => Return None
  | InsertAt insertAt =>
      let* entries' := splice entries newListItem insertAt in
      Return (Some entries')
  end.

(** The part of [readme] between the parser and the renderer: the document
    to render, or [None] when [readme] returns before rendering. *)
Definition readme_update (newListItemList document : Node) (name : string)
  : run (option Node) :=
  let* newListItem := new_item newListItemList in
  let* list := child 1 document in
  let* entries := deref (AsContainer list) in
  let* r := readme_entries entries newListItem name in
  match r with
  | None => Return None
  | Some entries' =>
      let* blocks := deref (AsContainer document) in
      Return (Some (set_Children
                      (<[1%nat := set_Children entries' list]> blocks)
                      document))
  end.

(** The keys of the list: the link texts of the entries, in order. *)
Definition key (entry : Node) : option string :=
  match content entry with
  | Return c => Some c
  | _ => None
  end.

Definition keys (entries : list Node) : list string := omap key entries.

(** The loop of [scan] on the keys alone *)
Fixpoint place_of (ks : list string) (name : string) : place :=
  match ks with
  | [] => InsertAt 0
  | k :: rest =>
      if String.eqb k name then Found
      else if String.ltb name k then InsertAt 0
      else shift (place_of rest name)
  end.

(** Two nodes that the loop reads alike *)
Definition same_content (a b : Node) : Prop := content a = content b.

(** [n] with its list flags reset *)
Definition clear (n : Node) : Node :=
  match n with
  | ListItem _ children => ListItem 0 children
  | _ => n
  end.

(** A list item with a link text to compare *)
Definition listed (entry : Node) : Prop :=
  (exists flags children, entry = ListItem flags children) /\
  is_Some (key entry).

(** [entry] carries the boundary marker [marker]. *)
Definition holds (marker : Z) (entry : Node) : Prop :=
  exists flags children,
    entry = ListItem flags children /\ Z.land flags marker <> 0%Z.

(** A list item whose first child is a container whose second child is a
    link that has a leaf text node as its first child. *)
Definition item_shape (entry : Node) : Prop :=
  exists flags block blocks first dest literal inlines rest,
    entry = ListItem flags (block :: blocks) /\
    AsContainer block =
      Some (first :: Container (Link dest) (Leaf Text literal :: inlines)
              :: rest).

(** A document with at least two top-level blocks, the second a list of
    such items. *)
Definition readme_shape (document : Node) : Prop :=
  exists first entries rest,
    AsContainer document = Some (first :: Container List entries :: rest) /\
    Forall item_shape entries.

(** The parsed text of a new item: a document whose first block is a
    container whose first child is a list item. *)
Definition item_list_shape (newListItemList : Node) : Prop :=
  exists list blocks flags children items,
    AsContainer newListItemList = Some (list :: blocks) /\
    AsContainer list = Some (ListItem flags children :: items).

(** The entries of the list that [readme] edits in a document *)
Definition list_entries (document : Node) : run (list Node) :=
  let* list := child 1 document in
  deref (AsContainer list).

(** The entries after one invocation, and after one invocation for each
    name in turn; [item] gives the new list item of a name. *)
Definition add_one (entries : list Node) (newListItem : Node) (name : string)
  : run (list Node) :=
  let* r := readme_entries entries newListItem name in
  Return (default entries r).

Fixpoint add_all (item : string -> Node) (names : list string)
    (entries : list Node) : run (list Node) :=
  match names with
  | [] => Return entries
  | name :: rest =>
      let* entries' := add_one entries (item name) name in
      add_all item rest entries'
  end.

(** [add_one] read along the list, from an entry that is not the first: the
    new item with children [children] goes in front of the first entry above
    the name with no flag, or behind the last entry with the end-of-list
    flag, the flags of that entry being reset. *)
Fixpoint add_rest (entries children : list Node) (name : string)
  : run (list Node) :=
  match entries with
  | [] => Return [ListItem ListItemEndOfList children]
  | entry :: rest =>
      let* c := content entry in
      if String.eqb c name then Return (entry :: rest)
      else if String.ltb name c then
        Return (ListItem 0 children :: entry :: rest)
      else
        match rest with
        | [] =>
            let* entry' := set_ListFlags 0 entry in
            Return [entry'; ListItem ListItemEndOfList children]
        | _ :: _ =>
            let* rest' := add_rest rest children name in
            Return (entry :: rest')
        end
  end.

(** The entries that the parser reads from README.md after one invocation
    for each name in turn, [entries] being those that it reads before the
    first.  Every run parses the file afresh: a run that has added its item
    renders the document and writes the file (lines 206-211), and the
    parser then reads from that file (lines 151 and 168-171 of the next
    run) [reparse] of the entries that were rendered; a run that returns
    from inside the loop writes nothing, and the same file is read
    again. *)
Fixpoint readme_runs (reparse : list Node -> list Node)
    (item : string -> Node) (names : list string) (entries : list Node)
  : run (list Node) :=
  match names with
  | [] => Return entries
  | name :: rest =>
      let* r := readme_entries entries (item name) name in
      readme_runs reparse item rest
        match r with
        | Some entries' => reparse entries'
        | None => entries
        end
  end.

Definition newListItemText (name : string) : string :=
  "- [" ++ name ++ "](/" ++ name ++ ")" ++ nl.

Section Codec.

(** [parser.NewWithExtensions(parser.CommonExtensions).Parse] and
    [markdown.Render] with the Markdown renderer *)
Variable Parse : string -> Node.
Variable Render : Node -> string.

Definition readme (name : string) (w : OS.World)
  : run (option error * OS.World) :=
  match OS.ReadFile readmeFile w with
  | Err e => Return (Some e, w)
  | Ok documentData =>
      let* r := readme_update (Parse (newListItemText name))
                  (Parse documentData) name in
      match r with
      | None => Return (None, w)
      | Some document' =>
          Return (OS.WriteFile readmeFile (Render document') w)
      end
  end.

(** The parser reads the text of the new item for [name] as a list with one
    list item whose link text is [name]. *)
Definition parses_item (name : string) : Prop :=
  exists newListItem,
    new_item (Parse (newListItemText name)) = Return newListItem /\
    content newListItem = Return name.

(** The parser reads the new item for [name] as such, and reads the
    document that [readme] renders for [name] in world [w] back as a
    document whose list has the same link texts in the same order.  The
    list flags of the entries read back may differ from those that [readme]
    left: the parser sets them anew. *)
Definition reads_back (name : string) (w : OS.World) : Prop :=
  parses_item name /\
  forall documentData document' entries',
    OS.ReadFile readmeFile w = Ok documentData ->
    readme_update (Parse (newListItemText name)) (Parse documentData) name
    = Return (Some document') ->
    list_entries document' = Return entries' ->
    exists entries'',
      list_entries (Parse (Render document')) = Return entries'' /\
      Forall2 same_content entries'' entries'.

(** The document after one invocation for each name in turn, each starting
    from the document the one before left ([readme] rewrites the file only
    when it has added the item).  The program parses README.md afresh at
    every run and the parser sets the list flags anew: the documents of
    this chain are those of the program in the link texts and the children
    of the entries, which is all that the loop of [readme] reads, and not
    in the list flags. *)
Fixpoint readme_all (names : list string) (document : Node) : run Node :=
  match names with
  | [] => Return document
  | name :: rest =>
      let* r := readme_update (Parse (newListItemText name)) document name in
      readme_all rest (default document r)
  end.

End Codec.

(** Sample documents *)

Definition entry (flags : Z) (name : string) : Node :=
  ListItem flags
    [Container Paragraph
       [Leaf Text ""; Container (Link ("/" ++ name)) [Leaf Text name]]].

Definition readme_doc (entries : list Node) : Node :=
  Container Document
    [Container Heading [Leaf Text "Repositories"]; Container List entries].

End Md.

(** ** [instance], [render] and [main] *)

Module Driver.

Definition templateDir : string := ".template".

(** The four steps of [main] *)
Inductive Step : Type :=
  | StepInstance
  | StepIndex
  | StepReadme
  | StepRecord.

(** How a run of the program ends: [status] is the exit code (or a panic, or
    a loop still running), [world] the file system it leaves, [stdout] what
    it printed; [steps] lists the steps that were called, in order. *)
Record Outcome : Type := mkOutcome {
  status : run nat;
  world : OS.World;
  stdout : string;
  steps : list Step
}.

(** [logger.Fatal(msg)] with [logger := log.New(os.Stdout, "repository: ",
    0)]: prints the prefix, the message and a newline, then [os.Exit(1)]. *)
Definition Fatal (msg : string) (w : OS.World) (called : list Step)
  : Outcome :=
  {| status := Return 1%nat; world := w;
     stdout := "repository: " ++ msg ++ nl; steps := called |}.

(** A run that ends without an exit code *)
Definition Crash (how : run nat) (w : OS.World) (called : list Step)
  : Outcome :=
  {| status := how; world := w; stdout := ""; steps := called |}.

Section Program.

(** The template engine and the directory calls of [instance] and [render]:
    [filepath.Join], [os.MkdirAll], [fs.Glob] over [os.DirFS],
    [template.New(match).ParseFiles], [os.OpenFile] with
    [O_WRONLY|O_CREATE|O_TRUNC], and [Execute] on the opened file. *)
Variable Template : Type.
Variable Join : string -> string -> string.
Variable MkdirAll : string -> OS.World -> option error * OS.World.
Variable Glob : string -> string -> OS.World -> res (list string).
Variable ParseFiles : string -> string -> OS.World -> res Template.
Variable OpenFile : string -> OS.World -> option error * OS.World.
Variable Execute :
  Template -> string -> string -> OS.World -> option error * OS.World.

(** The codecs of the three documents *)
Variable html_Parse : string -> res Html.Node.
Variable html_Render : Html.Node -> res string.
Variable md_Parse : string -> Md.Node.
Variable md_Render : Md.Node -> string.
Variable Unmarshal : string -> res (list string).
Variable quote : string -> string.

(** [render]: the error of the deferred [writer.Close()] is dropped. *)
Definition render (name match_ : string) (w : OS.World)
  : option error * OS.World :=
  let templateFile := Join templateDir match_ in
  match ParseFiles match_ templateFile w with
  | Err err => (Some err, w)
  | Ok tpl =>
      let output := Join name match_ in
      match OpenFile output w with
      | (Some err, w') => (Some err, w')
      | (None, w') => Execute tpl output name w'
      end
  end.

(** [for _, match := range matches { if err = render(name, match) ... }] *)
Fixpoint render_all (name : string) (matches : list string) (w : OS.World)
  : option error * OS.World :=
  match matches with
  | [] => (None, w)
  | match_ :: rest =>
      match render name match_ w with
      | (Some err, w') => (Some err, w')
      | (None, w') => render_all name rest w'
      end
  end.

Definition instance (name : string) (w : OS.World)
  : option error * OS.World :=
  match MkdirAll name w with
  | (Some err, w') => (Some err, w')
  | (None, w') =>
      match Glob templateDir "*" w' with
      | Err err => (Some err, w')
      | Ok matches => render_all name matches w'
      end
  end.

Definition index := Html.index html_Parse html_Render.
Definition readme := Md.readme md_Parse md_Render.
Definition record := Manifest.record Unmarshal quote.

(** [main], on the argument vector [os.Args] *)
Definition main (fuel : nat) (Args : list string) (w : OS.World) : Outcome :=
  if (length Args =? 1)%nat then
    Fatal "missing repository name argument" w []
  else
    match Args !! 1%nat with
    | None => Crash Panic w []
    | Some name =>
        match instance name w with
        | (Some err, w1) => Fatal err w1 [StepInstance]
        | (None, w1) =>
            match index fuel name w1 with
            | Panic => Crash Panic w1 [StepInstance; StepIndex]
            | Spin => Crash Spin w1 [StepInstance; StepIndex]
            | Return (Some err, w2) => Fatal err w2 [StepInstance; StepIndex]
            | Return (None, w2) =>
                match readme name w2 with
                | Panic => Crash Panic w2 [StepInstance; StepIndex; StepReadme]
                | Spin => Crash Spin w2 [StepInstance; StepIndex; StepReadme]
                | Return (Some err, w3) =>
                    Fatal err w3 [StepInstance; StepIndex; StepReadme]
                | Return (None, w3) =>
                    match record name w3 with
                    | (Some err, w4) =>
                        Fatal err w4
                          [StepInstance; StepIndex; StepReadme; StepRecord]
                    | (None, w4) =>
                        {| status := Return 0%nat; world := w4; stdout := "";
                           steps := [StepInstance; StepIndex; StepReadme;
                                     StepRecord] |}
                    end
                end
            end
        end
    end.

End Program.

End Driver.

(** ** Sample codecs and worlds

    Small stand-ins for the library codecs, enough to run the program on
    concrete files. *)

Module Sample.

Definition dq : string := String (ascii_of_nat 34) EmptyString.

(** A JSON string without escapes *)
Definition quote (s : string) : string := dq ++ s ++ dq.

(** A decoder for JSON arrays of strings without escapes *)
Inductive json_state : Type :=
  | AtStart
  | AfterOpen
  | InString
  | AfterString
  | AfterComma
  | AtEnd.

Definition is_space (c : ascii) : bool :=
  (Ascii.eqb c " " || Ascii.eqb c (ascii_of_nat 10) ||
   Ascii.eqb c (ascii_of_nat 9) || Ascii.eqb c (ascii_of_nat 13))%bool.

Fixpoint decode (data : string) (st : json_state) (cur : string)
    (acc : list string) : res (list string) :=
  match data with
  | EmptyString =>
      match st with
      | AtEnd => Ok (reverse acc)
      | _ => Err "unexpected end of JSON input"
      end
  | String c rest =>
      match st with
      | InString =>
          if Ascii.eqb c (ascii_of_nat 34)
          then decode rest AfterString EmptyString (String.rev cur :: acc)
          else if Ascii.eqb c (ascii_of_nat 92)
          then Err "escape in string"
          else decode rest InString (String c cur) acc
      | _ =>
          if is_space c then decode rest st cur acc
          else
            match st with
            | AtStart =>
                if Ascii.eqb c "[" then decode rest AfterOpen cur acc
                else Err "cannot unmarshal into Go value of type []string"
            | AfterOpen =>
                if Ascii.eqb c "]" then decode rest AtEnd cur acc
                else if Ascii.eqb c (ascii_of_nat 34)
                then decode rest InString EmptyString acc
                else Err "invalid character looking for beginning of value"
            | AfterComma =>
                if Ascii.eqb c (ascii_of_nat 34)
                then decode rest InString EmptyString acc
                else Err "invalid character looking for beginning of value"
            | AfterString =>
                if Ascii.eqb c "," then decode rest AfterComma cur acc
                else if Ascii.eqb c "]" then decode rest AtEnd cur acc
                else Err "invalid character after array element"
            | _ => Err "invalid character after top-level value"
            end
      end
  end.

Definition Unmarshal (data : string) : res (list string) :=
  decode data AtStart EmptyString [].

Definition json (l : list string) : string :=
  match Manifest.MarshalIndent quote l "" "  " with
  | Ok data => data
  | Err _ => ""
  end.

(** A renderer of HTML trees, and a parser that knows the documents in
    [docs] by their rendering *)
Fixpoint html_attrs (attrs : list (string * string)) : string :=
  match attrs with
  | [] => ""
  | (k, v) :: rest => " " ++ k ++ "=" ++ dq ++ v ++ dq ++ html_attrs rest
  end.

Fixpoint html_text (n : Html.Node) : string :=
  let inner := String.concat "" (map html_text (Html.Children n)) in
  match Html.Type_ n with
  | Html.ElementNode =>
      "<" ++ Html.Data n ++ html_attrs (Html.Attr n) ++ ">" ++ inner ++
      "</" ++ Html.Data n ++ ">"
  | Html.TextNode => Html.Data n
  | _ => inner
  end.

Fixpoint among {A} (render : A -> string) (docs : list A) (data : string)
  : option A :=
  match docs with
  | [] => None
  | d :: rest =>
      if String.eqb (render d) data then Some d else among render rest data
  end.

Definition html_Render (n : Html.Node) : res string := Ok (html_text n).

Definition html_Parse (docs : list Html.Node) (data : string)
  : res Html.Node :=
  match among html_text docs data with
  | Some d => Ok d
  | None => Err "html: unknown document"
  end.

(** A page whose list holds [names] *)
Definition site_items (names : list string) : list Html.Node :=
  Html.text (nl ++ "            ") ::
  flat_map (fun name => [Html.item name; Html.text (nl ++ "            ")])
    names.

Definition site (names : list string) : Html.Node :=
  Html.page
    [Html.elem "div"
       [Html.elem "h1" [Html.text "Repositories"];
        Html.elem "ul" (site_items names)]].

(** A renderer of Markdown trees, and a parser that reads the text of one
    list item and knows the documents in [docs] by their rendering *)
Fixpoint md_text (n : Md.Node) : string :=
  match n with
  | Md.ListItem _ children =>
      "- " ++ String.concat "" (map md_text children) ++ nl
  | Md.Container kind children =>
      let inner := String.concat "" (map md_text children) in
      match kind with
      | Md.Heading => "# " ++ inner ++ nl ++ nl
      | Md.Link dest => "[" ++ inner ++ "](" ++ dest ++ ")"
      | _ => inner
      end
  | Md.Leaf _ literal => literal
  end.

Fixpoint until_bracket (s : string) : string :=
  match s with
  | EmptyString => EmptyString
  | String c rest =>
      if Ascii.eqb c "]" then EmptyString else String c (until_bracket rest)
  end.

Definition item_name (data : string) : option string :=
  match data with
  | String "-" (String " " (String "[" rest)) =>
      let name := until_bracket rest in
      if String.eqb data (Md.newListItemText name) then Some name else None
  | _ => None
  end.

Definition md_Render (n : Md.Node) : string := md_text n.

Definition md_Parse (docs : list Md.Node) (data : string) : Md.Node :=
  match item_name data with
  | Some name =>
      Md.Container Md.Document
        [Md.Container Md.List
           [Md.entry (Z.lor Md.ListItemBeginningOfList Md.ListItemEndOfList)
              name]]
  | None =>
      match among md_text docs data with
      | Some d => d
      | None => Md.Container Md.Document []
      end
  end.

(** The entries of a list that holds [names], with the markers on the first
    and on the last entry *)
Fixpoint readme_items (first : bool) (names : list string) : list Md.Node :=
  match names with
  | [] => []
  | name :: rest =>
      Md.entry
        (Z.lor (if first then Md.ListItemBeginningOfList else 0)
               (match rest with [] => Md.ListItemEndOfList | _ => 0 end))%Z
        name
      :: readme_items false rest
  end.

Definition readme (names : list string) : Md.Node :=
  Md.readme_doc (readme_items true names).

(** The entries as a parser reads them back: the same items, with the
    beginning-of-list flag on the first and the end-of-list flag on the
    last, whatever flags they had *)
Fixpoint reflag (first : bool) (entries : list Md.Node) : list Md.Node :=
  match entries with
  | [] => []
  | entry :: rest =>
      match entry with
      | Md.ListItem _ children =>
          Md.ListItem
            (Z.lor (if first then Md.ListItemBeginningOfList else 0)
                   (match rest with [] => Md.ListItemEndOfList | _ => 0 end))%Z
            children
      | _ => entry
      end :: reflag false rest
  end.

(** A template engine on the files of the world: a template is its text,
    and executing it replaces every [{{.}}] by the data. *)
Definition Join (dir file : string) : string := dir ++ "/" ++ file.

Definition MkdirAll (name : string) (w : OS.World)
  : option error * OS.World := (None, w).

Fixpoint strip_prefix (prefix s : string) : option string :=
  match prefix, s with
  | EmptyString, _ => Some s
  | String c prefix', String d s' =>
      if Ascii.eqb c d then strip_prefix prefix' s' else None
  | String _ _, EmptyString => None
  end.

Definition Glob (dir pattern : string) (w : OS.World) : res (list string) :=
  Ok (omap (fun kv => strip_prefix (dir ++ "/") (fst kv))
        (map_to_list (OS.files w))).

Definition ParseFiles (name templateFile : string) (w : OS.World)
  : res string :=
  OS.ReadFile templateFile w.

Definition OpenFile (output : string) (w : OS.World)
  : option error * OS.World :=
  (None, OS.set_file output EmptyString w).

Fixpoint execute (skip : nat) (tpl data : string) : string :=
  match tpl with
  | EmptyString => EmptyString
  | String c rest =>
      match skip with
      | S skip' => execute skip' rest data
      | O =>
          match strip_prefix "{{.}}" tpl with
          | Some _ => data ++ execute 4 rest data
          | None => String c (execute 0 rest data)
          end
      end
  end.

Definition Execute (tpl output data : string) (w : OS.World)
  : option error * OS.World :=
  OS.WriteFile output (execute 0 tpl data) w.

(** A site with the repository "beta", its template, and the program on
    it.  The parsers know the documents of the site before and after "alpha"
    is added. *)
Definition world0 : OS.World :=
  {| OS.files :=
       <[".template/about.txt" := "About {{.}}"]>
         (<[Html.indexFile := html_text (site ["beta"])]>
            (<[Md.readmeFile := md_text (readme ["beta"])]>
               (<[Manifest.repositoryFile :=
                    match Manifest.MarshalIndent quote ["beta"] "" "  " with
                    | Ok data => data
                    | Err _ => ""
                    end]> ∅)));
     OS.fsize := None |}.

Definition html_docs : list Html.Node :=
  [site ["beta"];
   match Html.index_update 4 (site ["beta"]) "alpha" with
   | Return (Some document) => document
   | _ => site []
   end].

Definition md_docs : list Md.Node :=
  [readme ["beta"];
   match Md.readme_update (md_Parse [] (Md.newListItemText "alpha"))
           (readme ["beta"]) "alpha" with
   | Return (Some document) => document
   | _ => readme []
   end].

Definition instance : string -> OS.World -> option error * OS.World :=
  Driver.instance string Join MkdirAll Glob ParseFiles OpenFile Execute.

Definition main : nat -> list string -> OS.World -> Driver.Outcome :=
  Driver.main string Join MkdirAll Glob ParseFiles OpenFile Execute
    (html_Parse html_docs) html_Render (md_Parse md_docs) md_Render
    Unmarshal quote.




(** The same site without its README *)
Definition world_no_readme : OS.World :=
  {| OS.files := delete Md.readmeFile (OS.files world0); OS.fsize := None |}.

(** A world with one file *)
Definition one_file (name data : string) (limit : option nat) : OS.World :=
  {| OS.files := {[ name := data ]}; OS.fsize := limit |}.

(** Three templates under a file size limit of four bytes: the output of
    "a.txt" is too large, the other two fit. *)
Definition world_limit : OS.World :=
  {| OS.files :=
       <[".template/a.txt" := "About {{.}}"]>
         (<[".template/b.txt" := "B"]> (<[".template/c.txt" := "C"]> ∅));
     OS.fsize := Some 4 |}.

End Sample.

(** * Properties *)

(** ** The order on strings *)

Lemma str_compare_OT a b : String.compare a b = String_as_OT.compare a b.
Proof.
  revert b; induction a as [|c a IH]; intros [|d b]; reflexivity.
Qed.

Lemma str_compare_refl a : String.compare a a = Eq.
Proof.
  induction a as [|c a IH]; simpl; [reflexivity|].
  unfold Ascii.compare. now rewrite N.compare_refl.
Qed.

Lemma str_compare_eq a b : String.compare a b = Eq <-> a = b.
Proof.
  split; [apply String.compare_eq_iff | intros ->; apply str_compare_refl].
Qed.

Lemma str_compare_gt_lt a b :
  String.compare a b = Gt <-> String.compare b a = Lt.
Proof.
  rewrite (String.compare_antisym b a).
  destruct (String.compare a b); simpl; split; congruence.
Qed.

Lemma str_lt_irrefl a : ~ Str.lt a a.
Proof. unfold Str.lt. now rewrite str_compare_refl. Qed.

Lemma str_lt_trans a b c : Str.lt a b -> Str.lt b c -> Str.lt a c.
Proof.
  unfold Str.lt. rewrite !str_compare_OT.
  apply (@StrictOrder_Transitive _ _ String_as_OT.lt_strorder).
Qed.

Lemma str_lt_neq a b : Str.lt a b -> a <> b.
Proof. intros H ->. exact (str_lt_irrefl _ H). Qed.

Lemma str_lt_le a b : Str.lt a b -> Str.le a b.
Proof. unfold Str.lt, Str.le. congruence. Qed.

Lemma str_le_lt_or_eq a b : Str.le a b <-> Str.lt a b \/ a = b.
Proof.
  unfold Str.le, Str.lt. rewrite <- str_compare_eq.
  destruct (String.compare a b); split; intros H; try tauto; try congruence.
  destruct H; congruence.
Qed.

Lemma str_not_le_gt a b : ~ Str.le a b <-> Str.lt b a.
Proof.
  unfold Str.le, Str.lt. rewrite <- str_compare_gt_lt.
  destruct (String.compare a b); split; intros H; try congruence; try tauto;
    exfalso; apply H; congruence.
Qed.

Lemma str_le_refl a : Str.le a a.
Proof. unfold Str.le. now rewrite str_compare_refl. Qed.

Lemma str_le_trans a b c : Str.le a b -> Str.le b c -> Str.le a c.
Proof.
  rewrite !str_le_lt_or_eq.
  intros [H1| ->] [H2| ->]; eauto using str_lt_trans.
Qed.

Lemma str_le_lt_trans a b c : Str.le a b -> Str.lt b c -> Str.lt a c.
Proof.
  rewrite str_le_lt_or_eq. intros [H1| ->] H2; eauto using str_lt_trans.
Qed.

Lemma str_lt_le_trans a b c : Str.lt a b -> Str.le b c -> Str.lt a c.
Proof.
  rewrite str_le_lt_or_eq. intros H1 [H2| ->]; eauto using str_lt_trans.
Qed.

Lemma str_le_total a b : Str.le a b \/ Str.le b a.
Proof.
  unfold Str.le. rewrite (String.compare_antisym b a).
  destruct (String.compare a b); simpl; intuition congruence.
Qed.

Lemma str_le_antisym a b : Str.le a b -> Str.le b a -> a = b.
Proof.
  rewrite str_le_lt_or_eq. intros [H1| ->] H2; [|reflexivity].
  apply str_not_le_gt in H1. tauto.
Qed.

Lemma str_lt_asym a b : Str.lt a b -> ~ Str.lt b a.
Proof. intros H1 H2. exact (str_lt_irrefl _ (str_lt_trans _ _ _ H1 H2)). Qed.

Lemma str_ltb_lt a b : String.ltb a b = true <-> Str.lt a b.
Proof.
  unfold String.ltb, Str.lt. destruct (String.compare a b); split; congruence.
Qed.

Lemma str_leb_le a b : String.leb a b = true <-> Str.le a b.
Proof.
  unfold String.leb, Str.le. destruct (String.compare a b); split; congruence.
Qed.

Lemma str_ltb_ge a b : String.ltb a b = false <-> Str.le b a.
Proof.
  rewrite <- not_true_iff_false, str_ltb_lt. split.
  - intros H. destruct (str_le_total a b) as [Hab|Hba]; [|done].
    apply str_le_lt_or_eq in Hab as [Hab| ->]; [tauto | apply str_le_refl].
  - intros H1 H2. apply str_not_le_gt in H2. tauto.
Qed.

Lemma str_leb_gt a b : String.leb a b = false <-> Str.lt b a.
Proof. now rewrite <- not_true_iff_false, str_leb_le, str_not_le_gt. Qed.

Lemma str_eqb_eq a b : String.eqb a b = true <-> a = b.
Proof. apply String.eqb_eq. Qed.

Lemma str_eqb_neq a b : String.eqb a b = false <-> a <> b.
Proof. apply String.eqb_neq. Qed.

#[local] Instance str_le_total_inst : Total Str.le.
Proof. intros a b. apply str_le_total. Qed.

#[local] Instance str_le_trans_inst : Transitive Str.le.
Proof. intros a b c. apply str_le_trans. Qed.

#[local] Instance str_le_antisym_inst : AntiSymm eq Str.le.
Proof. intros a b. apply str_le_antisym. Qed.

#[local] Instance str_lt_trans_inst : Transitive Str.lt.
Proof. intros a b c. apply str_lt_trans. Qed.

(** A list sorted strictly ascending has no duplicates. *)
Lemma strictly_sorted_NoDup (l : list string) :
  StronglySorted Str.lt l -> NoDup l.
Proof.
  induction 1 as [|x l Hl IH Hx]; constructor; [|done].
  intros Hin. rewrite Forall_forall in Hx.
  exact (str_lt_irrefl _ (Hx _ Hin)).
Qed.

Lemma strictly_sorted_le (l : list string) :
  StronglySorted Str.lt l -> StronglySorted Str.le l.
Proof.
  induction 1 as [|x l Hl IH Hx]; constructor; [done|].
  eapply Forall_impl; [exact Hx|]. intros; by apply str_lt_le.
Qed.

(** Sorted ascending and free of duplicates is sorted strictly ascending. *)
Lemma sorted_NoDup_strictly (l : list string) :
  StronglySorted Str.le l -> NoDup l -> StronglySorted Str.lt l.
Proof.
  induction 1 as [|x l Hl IH Hx]; intros Hnd; constructor.
  - apply IH. by inversion Hnd.
  - inversion Hnd as [|? ? Hnin _]; subst.
    rewrite Forall_forall in Hx |- *. intros y Hy.
    destruct (proj1 (str_le_lt_or_eq x y) (Hx y Hy)) as [Hlt| ->]; [done|].
    by destruct Hnin.
Qed.

(** ** The file system *)

Lemma files_set_file_eq name data w :
  OS.files (OS.set_file name data w) !! name = Some data.
Proof. unfold OS.set_file; simpl. apply lookup_insert_eq. Qed.

Lemma files_set_file_ne name name' data w :
  name <> name' ->
  OS.files (OS.set_file name data w) !! name' = OS.files w !! name'.
Proof. intros H. unfold OS.set_file; simpl. by apply lookup_insert_ne. Qed.

Lemma WriteFile_ok name data w w' :
  OS.WriteFile name data w = (None, w') -> w' = OS.set_file name data w.
Proof.
  unfold OS.WriteFile. destruct (OS.fsize w); [destruct (_ <? _)%nat|];
    intros H; inversion H; reflexivity.
Qed.

Lemma WriteFile_other name name' data w e w' :
  name <> name' -> OS.WriteFile name data w = (e, w') ->
  OS.files w' !! name' = OS.files w !! name'.
Proof.
  unfold OS.WriteFile. intros Hne.
  destruct (OS.fsize w); [destruct (_ <? _)%nat|];
    intros H; inversion H; subst; by apply files_set_file_ne.
Qed.

Lemma WriteFile_unlimited name data w :
  OS.fsize w = None ->
  OS.WriteFile name data w = (None, OS.set_file name data w).
Proof. unfold OS.WriteFile. by intros ->. Qed.

(** ** [record] *)

Lemma present_elem_of (l : list string) (name : string) :
  Manifest.present l name = true <-> name ∈ l.
Proof.
  induction l as [|r l IH]; simpl.
  - split; [discriminate | intros H; inversion H].
  - destruct (String.eqb r name) eqn:E.
    + apply str_eqb_eq in E as ->. split; [intros _; left | done].
    + apply str_eqb_neq in E. rewrite IH, elem_of_cons.
      split; [by right | intros [?|?]; congruence].
Qed.

Lemma present_false (l : list string) (name : string) :
  Manifest.present l name = false <-> name ∉ l.
Proof. rewrite <- present_elem_of. destruct (Manifest.present l name); naive_solver. Qed.

Lemma Sort_sorted (l : list string) : StronglySorted Str.le (Manifest.Sort l).
Proof. apply StronglySorted_merge_sort; apply _. Qed.

Lemma Sort_perm (l : list string) : Manifest.Sort l ≡ₚ l.
Proof. apply merge_sort_Permutation. Qed.

(** A sorted list is left as it is by [slices.Sort]. *)
Lemma Sort_id (l : list string) : StronglySorted Str.le l -> Manifest.Sort l = l.
Proof.
  intros H. apply (StronglySorted_unique Str.le); auto using Sort_sorted, Sort_perm.
Qed.

Lemma record_update_present (l : list string) (name : string) :
  name ∈ l -> Manifest.record_update l name = None.
Proof.
  intros H. unfold Manifest.record_update.
  by rewrite (proj2 (present_elem_of l name) H).
Qed.

Lemma record_update_absent (l : list string) (name : string) :
  name ∉ l ->
  Manifest.record_update l name = Some (Manifest.Sort (l ++ [name])).
Proof.
  intros H. unfold Manifest.record_update.
  by rewrite (proj2 (present_false l name) H).
Qed.

Lemma record_update_elem (l l' : list string) (name : string) :
  Manifest.record_update l name = Some l' -> name ∈ l'.
Proof.
  unfold Manifest.record_update. destruct (Manifest.present l name); [done|].
  intros [= <-]. rewrite Sort_perm. set_solver.
Qed.

Section RecordFacts.

Variable Unmarshal : string -> res (list string).
Variable quote : string -> string.

Lemma record_noop name data repositories w :
  OS.files w !! Manifest.repositoryFile = Some data ->
  Unmarshal data = Ok repositories ->
  name ∈ repositories ->
  Manifest.record Unmarshal quote name w = (None, w).
Proof.
  intros Hf Hd Hin. unfold Manifest.record, OS.ReadFile.
  by rewrite Hf, Hd, record_update_present.
Qed.

Lemma MarshalIndent_ok (l : list string) (prefix indent : string) :
  exists data, Manifest.MarshalIndent quote l prefix indent = Ok data.
Proof. destruct l; simpl; eauto. Qed.

Lemma record_write name data repositories w :
  OS.files w !! Manifest.repositoryFile = Some data ->
  Unmarshal data = Ok repositories ->
  name ∉ repositories ->
  exists data',
    Manifest.MarshalIndent quote (Manifest.Sort (repositories ++ [name]))
      "" "  " = Ok data' /\
    Manifest.record Unmarshal quote name w =
      OS.WriteFile Manifest.repositoryFile data' w.
Proof.
  intros Hf Hd Hin.
  destruct (MarshalIndent_ok (Manifest.Sort (repositories ++ [name])) "" "  ")
    as [data' Hm].
  exists data'. split; [done|].
  unfold Manifest.record, OS.ReadFile.
  by rewrite Hf, Hd, record_update_absent, Hm.
Qed.

End RecordFacts.

(** C4: [record], given a manifest that decodes to a list of strings, does
    nothing when the name is in the list (it returns [nil] and the file system
    is as before) and otherwise writes the encoding of the list with the name
    appended, sorted ascending.  The empty manifest with "alpha" gives
    ["alpha"]; ["alpha","gamma"] with "beta" gives ["alpha","beta","gamma"];
    ["alpha"] with "alpha" is a no-op. *)
Theorem record_contract
    (Unmarshal : string -> res (list string)) (quote : string -> string)
    (name data : string) (repositories : list string) (w : OS.World) :
  OS.files w !! Manifest.repositoryFile = Some data ->
  Unmarshal data = Ok repositories ->
  (name ∈ repositories ->
     Manifest.record Unmarshal quote name w = (None, w)) /\
  (name ∉ repositories ->
     exists repositories' data',
       repositories' ≡ₚ repositories ++ [name] /\
       StronglySorted Str.le repositories' /\
       Manifest.MarshalIndent quote repositories' "" "  " = Ok data' /\
       Manifest.record Unmarshal quote name w =
         OS.WriteFile Manifest.repositoryFile data' w) /\
  Manifest.record_update [] "alpha" = Some ["alpha"] /\
  Manifest.record_update ["alpha"; "gamma"] "beta" =
    Some ["alpha"; "beta"; "gamma"] /\
  Manifest.record_update ["alpha"] "alpha" = None.
Proof.
  intros Hf Hd. split; [|split; [|by vm_compute]].
  - intros Hin. by eapply record_noop.
  - intros Hin.
    destruct (record_write Unmarshal quote name data repositories w Hf Hd Hin)
      as (data' & Hm & Hr).
    exists (Manifest.Sort (repositories ++ [name])), data'.
    auto using Sort_perm, Sort_sorted.
Qed.

(** Scenario B on a file system: the manifest holds ["alpha","gamma"] and
    "beta" is recorded. *)
Lemma record_contract_witness :
  let w := Sample.one_file Manifest.repositoryFile
             (Sample.json ["alpha"; "gamma"]) None in
  OS.files w !! Manifest.repositoryFile = Some (Sample.json ["alpha"; "gamma"])
  /\ Sample.Unmarshal (Sample.json ["alpha"; "gamma"]) = Ok ["alpha"; "gamma"]
  /\ ("beta" ∉ ["alpha"; "gamma"])
  /\ exists repositories' data',
       repositories' ≡ₚ ["alpha"; "gamma"] ++ ["beta"] /\
       StronglySorted Str.le repositories' /\
       Manifest.MarshalIndent Sample.quote repositories' "" "  " = Ok data' /\
       Manifest.record Sample.Unmarshal Sample.quote "beta" w =
         OS.WriteFile Manifest.repositoryFile data' w.
Proof.
  assert (Hf : OS.files (Sample.one_file Manifest.repositoryFile
                 (Sample.json ["alpha"; "gamma"]) None)
               !! Manifest.repositoryFile
               = Some (Sample.json ["alpha"; "gamma"])) by (by vm_compute).
  assert (Hd : Sample.Unmarshal (Sample.json ["alpha"; "gamma"])
               = Ok ["alpha"; "gamma"]) by (by vm_compute).
  assert (Hn : "beta" ∉ ["alpha"; "gamma"]).
  { rewrite !not_elem_of_cons. repeat split; try discriminate.
    apply not_elem_of_nil. }
  refine (conj Hf (conj Hd (conj Hn _))).
  exact (proj1 (proj2 (record_contract Sample.Unmarshal Sample.quote "beta"
                         _ _ _ Hf Hd)) Hn).
Defined.

(** C5, as stated, fails: the manifest ["a","a"] with "b" recorded is
    rewritten as ["a","a","b"], which repeats "a". *)
Lemma record_keeps_duplicates :
  let w := Sample.one_file Manifest.repositoryFile
             (Sample.json ["a"; "a"]) None in
  let w' := (Manifest.record Sample.Unmarshal Sample.quote "b" w).2 in
  Sample.Unmarshal (Sample.json ["a"; "a"]) = Ok ["a"; "a"] /\
  OS.files w' !! Manifest.repositoryFile = Some (Sample.json ["a"; "a"; "b"]) /\
  ~ NoDup ["a"; "a"; "b"].
Proof.
  split; [by vm_compute|]. split; [by vm_compute|].
  intros H. apply NoDup_cons in H as [H _]. apply H. left.
Qed.

(** C5, amended: when the name is not in the decoded array, [record] rewrites
    the file as the ascending sort of the array with the name appended, each
    element on a line of its own behind two spaces.  Nothing is removed: the
    result is a permutation of the input and the name, so it is free of
    duplicates exactly when the input is.  When the name is in the array,
    the file is not rewritten. *)
Theorem record_rewrites_sorted
    (Unmarshal : string -> res (list string)) (quote : string -> string)
    (name data : string) (repositories : list string) (w : OS.World) :
  OS.files w !! Manifest.repositoryFile = Some data ->
  Unmarshal data = Ok repositories ->
  (name ∉ repositories ->
   exists first rest,
     Manifest.Sort (repositories ++ [name]) = first :: rest /\
     StronglySorted Str.le (first :: rest) /\
     first :: rest ≡ₚ repositories ++ [name] /\
     (NoDup (first :: rest) <-> NoDup repositories) /\
     Manifest.record Unmarshal quote name w =
       OS.WriteFile Manifest.repositoryFile
         ("[" ++ nl ++ "  " ++ quote first ++
          String.concat ""
            (map (fun y => "," ++ nl ++ "  " ++ quote y) rest) ++
          nl ++ "]") w) /\
  (name ∈ repositories ->
   Manifest.record Unmarshal quote name w = (None, w)).
Proof.
  intros Hf Hd. split; [|intros Hin; by eapply record_noop].
  intros Hin.
  destruct (record_write Unmarshal quote name data repositories w Hf Hd Hin)
    as (data' & Hm & Hr).
  pose proof (Sort_perm (repositories ++ [name])) as Hp.
  pose proof (Sort_sorted (repositories ++ [name])) as Hs.
  destruct (Manifest.Sort (repositories ++ [name])) as [|first rest] eqn:E.
  { apply Permutation_nil_l in Hp. by destruct repositories. }
  exists first, rest. repeat split; try done.
  - rewrite Hp. intros H. by apply NoDup_app in H as (H & _ & _).
  - rewrite Hp. intros H. apply NoDup_app. repeat split; [done| |].
    + intros x Hx Hx'. apply list_elem_of_singleton in Hx' as ->. done.
    + apply NoDup_singleton.
  - simpl in Hm. injection Hm as <-. exact Hr.
Qed.

(** The manifest ["gamma","alpha"], out of order, with "beta" recorded *)
Lemma record_rewrites_sorted_witness :
  let w := Sample.one_file Manifest.repositoryFile
             (Sample.json ["gamma"; "alpha"]) None in
  exists first rest,
    Manifest.Sort (["gamma"; "alpha"] ++ ["beta"]) = first :: rest /\
    StronglySorted Str.le (first :: rest) /\
    first :: rest ≡ₚ ["gamma"; "alpha"] ++ ["beta"] /\
    (NoDup (first :: rest) <-> NoDup ["gamma"; "alpha"]) /\
    Manifest.record Sample.Unmarshal Sample.quote "beta" w =
      OS.WriteFile Manifest.repositoryFile
        ("[" ++ nl ++ "  " ++ Sample.quote first ++
         String.concat ""
           (map (fun y => "," ++ nl ++ "  " ++ Sample.quote y) rest) ++
         nl ++ "]") w.
Proof.
  refine (proj1 (record_rewrites_sorted Sample.Unmarshal Sample.quote "beta"
                   (Sample.json ["gamma"; "alpha"]) ["gamma"; "alpha"] _ _ _)
            _).
  - by vm_compute.
  - by vm_compute.
  - rewrite !not_elem_of_cons. repeat split; try discriminate.
    apply not_elem_of_nil.
Defined.

(** ** [index]: locating the list *)

Local Open Scope list_scope.

Lemma find_child_Some children tag i child :
  Html.find_child children tag = Some (i, child) ->
  children !! i = Some child /\ Html.is_element tag child = true.
Proof.
  revert i. induction children as [|c cs IH]; intros i; simpl; [done|].
  destruct (Html.is_element tag c) eqn:E.
  - intros [= <- <-]. done.
  - destruct (Html.find_child cs tag) as [[j c']|]; simpl; [|done].
    intros [= <- <-]. by apply IH.
Qed.

(** When no child matches, the search loop makes no progress: it is still
    running after any number of iterations. *)
Lemma locate_stuck fuel element tag rest :
  Html.find_child (Html.Children element) tag = None ->
  Html.locate fuel element (tag :: rest) = Spin.
Proof.
  intros H. induction fuel as [|fuel IH]; simpl; [done|]. by rewrite H.
Qed.

Lemma locate_get fuel element parts p :
  Html.locate fuel element parts = Return p ->
  is_Some (Html.get p element).
Proof.
  revert element parts p.
  induction fuel as [|fuel IH]; intros element [|tag rest] p; simpl;
    try done; try (intros [= <-]; by eexists).
  destruct (Html.find_child _ tag) as [[i c]|] eqn:E.
  - destruct (Html.locate fuel c rest) as [p'| |] eqn:E'; simpl; try done.
    intros [= <-]. simpl.
    apply find_child_Some in E as [-> _]. by eapply IH.
  - by rewrite locate_stuck.
Qed.

Lemma update_head p f n :
  (forall m, Html.Type_ (f m) = Html.Type_ m /\ Html.Data (f m) = Html.Data m) ->
  Html.Type_ (Html.update p f n) = Html.Type_ n /\
  Html.Data (Html.update p f n) = Html.Data n.
Proof. intros Hf. destruct p; simpl; [apply Hf | done]. Qed.

Lemma find_child_alter children tag i child g :
  (forall m, Html.Type_ (g m) = Html.Type_ m /\ Html.Data (g m) = Html.Data m) ->
  Html.find_child children tag = Some (i, child) ->
  Html.find_child (alter g i children) tag = Some (i, g child).
Proof.
  intros Hg. revert i child.
  induction children as [|c cs IH]; intros i child; simpl; [done|].
  assert (Hel : forall m, Html.is_element tag (g m) = Html.is_element tag m).
  { intros m. unfold Html.is_element. by destruct (Hg m) as [-> ->]. }
  destruct (Html.is_element tag c) eqn:E.
  - intros [= <- <-]. simpl. by rewrite Hel, E.
  - destruct (Html.find_child cs tag) as [[j c']|] eqn:E'; simpl; [|done].
    intros [= <- <-]. simpl. specialize (IH j c' eq_refl).
    unfold alter in IH. by rewrite E, IH.
Qed.

(** Changing the children of the located node does not move it. *)
Lemma locate_update fuel element parts p children :
  Html.locate fuel element parts = Return p ->
  Html.locate fuel (Html.update p (Html.set_children children) element) parts
  = Return p.
Proof.
  revert element parts p.
  induction fuel as [|fuel IH]; intros element [|tag rest] p; simpl;
    try done; try (by intros [= <-]).
  destruct (Html.find_child _ tag) as [[i c]|] eqn:E.
  - destruct (Html.locate fuel c rest) as [p'| |] eqn:E'; simpl; try done.
    intros [= <-]. simpl.
    erewrite find_child_alter; [|intros m; by apply update_head|done].
    by rewrite (IH _ _ _ E').
  - by rewrite locate_stuck.
Qed.

Lemma get_update p f n m :
  Html.get p n = Some m -> Html.get p (Html.update p f n) = Some (f m).
Proof.
  revert n. induction p as [|i p IH]; intros n; simpl.
  - by intros [= ->].
  - destruct (Html.Children n !! i) as [c|] eqn:E; [|done].
    intros H. rewrite list_lookup_alter_eq, E. simpl. by apply IH.
Qed.

(** A search that ends has found a child at each iteration, so it ends after
    as many iterations as the path has parts. *)
Lemma locate_fuel fuel fuel' element parts p :
  Html.locate fuel element parts = Return p ->
  length parts <= fuel' ->
  Html.locate fuel' element parts = Return p.
Proof.
  revert fuel' element parts p.
  induction fuel as [|fuel IH]; intros fuel' element [|tag rest] p; simpl;
    try done; try (intros [= <-] _; by destruct fuel').
  destruct (Html.find_child _ tag) as [[i c]|] eqn:E.
  - destruct (Html.locate fuel c rest) as [p'| |] eqn:E'; simpl; try done.
    intros [= <-] Hle. destruct fuel' as [|fuel']; [lia|]. simpl.
    rewrite E, (IH fuel' _ _ _ E'); [done | lia].
  - by rewrite locate_stuck.
Qed.

(** ** [index]: adding the item *)

Lemma InsertAllBefore_cons c cs news i :
  Html.InsertAllBefore (c :: cs) news (S i) =
  c :: Html.InsertAllBefore cs news i.
Proof.
  revert cs i. induction news as [|n news IH]; intros cs i; simpl; [done|].
  by rewrite <- IH.
Qed.

Lemma InsertAllBefore_0 cs news : Html.InsertAllBefore cs news 0 = news ++ cs.
Proof.
  revert cs. induction news as [|n news IH]; intros cs; simpl; [done|].
  unfold Html.InsertBefore. simpl. by rewrite InsertAllBefore_cons, IH.
Qed.

Lemma fold_AppendChild cs news : fold_left Html.AppendChild news cs = cs ++ news.
Proof.
  revert cs. induction news as [|n news IH]; intros cs; simpl.
  - by rewrite app_nil_r.
  - rewrite IH. unfold Html.AppendChild. by rewrite <- app_assoc.
Qed.

Lemma add_item_nil name :
  Html.add_item [] name = Return (Some (Html.newChildren name)).
Proof. reflexivity. Qed.

Lemma add_item_step child siblings name :
  Html.add_item (child :: siblings) name =
  (let* r := (let* r := Html.scan siblings name in Return (option_map S r)) in
  match r with
  | Some i =>
      let* c := deref ((child :: siblings) !! i) in
      let* key := Html.anchor_text c in
      if String.eqb key name then Return None
      else Return (Some (Html.InsertAllBefore (child :: siblings)
                           (Html.newChildren name) i))
  | None =>
      Return (Some (fold_left Html.AppendChild (Html.newChildren name)
                      (child :: siblings)))
  end) ->
  Html.add_item (child :: siblings) name =
  Html.add_rest child (Html.add_item siblings name).
Proof.
  intros ->. unfold Html.add_rest, Html.add_item.
  destruct (Html.scan siblings name) as [[i|]| |]; simpl; try done.
  - destruct (siblings !! i) as [c|]; simpl; [|done].
    destruct (Html.anchor_text c) as [k| |]; simpl; try done.
    destruct (String.eqb k name); simpl; [done|].
    reflexivity.
Qed.

Lemma add_item_skip child siblings name :
  Html.Type_ child <> Html.ElementNode ->
  Html.add_item (child :: siblings) name =
  Html.add_rest child (Html.add_item siblings name).
Proof.
  intros H. apply add_item_step. unfold Html.add_item at 1. simpl.
  by rewrite bool_decide_eq_false_2.
Qed.

Lemma add_item_next child siblings name k :
  Html.Type_ child = Html.ElementNode ->
  Html.anchor_text child = Return k ->
  String.leb name k = false ->
  Html.add_item (child :: siblings) name =
  Html.add_rest child (Html.add_item siblings name).
Proof.
  intros H Hk Hle. apply add_item_step. unfold Html.add_item at 1. simpl.
  by rewrite bool_decide_eq_true_2, Hk; [simpl; rewrite Hle|].
Qed.

Lemma add_item_here child siblings name k :
  Html.Type_ child = Html.ElementNode ->
  Html.anchor_text child = Return k ->
  String.leb name k = true ->
  Html.add_item (child :: siblings) name =
  (if String.eqb k name then Return None
   else Return (Some (Html.newChildren name ++ child :: siblings))).
Proof.
  intros H Hk Hle. unfold Html.add_item. simpl.
  rewrite bool_decide_eq_true_2 by done. rewrite Hk. simpl. rewrite Hle. simpl.
  rewrite Hk. simpl. destruct (String.eqb k name); [done|].
  reflexivity.
Qed.

Lemma add_item_panic child siblings name :
  Html.Type_ child = Html.ElementNode ->
  Html.key child = None ->
  Html.add_item (child :: siblings) name = Panic.
Proof.
  intros H Hk. unfold Html.add_item. simpl.
  rewrite bool_decide_eq_true_2 by done.
  unfold Html.key in Hk.
  destruct (Html.anchor_text child) as [k| |] eqn:E; simpl; try done.
  unfold Html.anchor_text in E.
  destruct (Html.FirstChild child) as [a|]; simpl in E; [|done].
  destruct (Html.FirstChild a); simpl in E; done.
Qed.

Lemma keys_skip child siblings :
  Html.Type_ child <> Html.ElementNode ->
  Html.keys (child :: siblings) = Html.keys siblings.
Proof.
  intros H. unfold Html.keys. simpl. unfold Html.is_entry at 1.
  by rewrite bool_decide_eq_false_2.
Qed.

Lemma keys_entry child siblings k :
  Html.Type_ child = Html.ElementNode ->
  Html.key child = Some k ->
  Html.keys (child :: siblings) = k :: Html.keys siblings.
Proof.
  intros H Hk. unfold Html.keys. simpl. unfold Html.is_entry at 1.
  rewrite bool_decide_eq_true_2 by done. simpl. by rewrite Hk.
Qed.

Lemma key_anchor_text child k :
  Html.key child = Some k <-> Html.anchor_text child = Return k.
Proof.
  unfold Html.key. destruct (Html.anchor_text child); split; congruence.
Qed.

Lemma linked_cons child siblings :
  Html.linked (child :: siblings) <->
  (Html.Type_ child = Html.ElementNode -> is_Some (Html.key child)) /\
  Html.linked siblings.
Proof. unfold Html.linked. apply Forall_cons. Qed.

Lemma keys_newChildren name cs :
  Html.keys (Html.newChildren name ++ cs) = name :: Html.keys cs.
Proof. reflexivity. Qed.

Lemma linked_newChildren name cs :
  Html.linked cs -> Html.linked (Html.newChildren name ++ cs).
Proof.
  intros H. unfold Html.newChildren. simpl.
  apply linked_cons. split; [intros _; by eexists|].
  apply linked_cons. split; [done|done].
Qed.

Lemma type_dec (child : Html.Node) :
  Html.Type_ child = Html.ElementNode \/ Html.Type_ child <> Html.ElementNode.
Proof. destruct (decide (Html.Type_ child = Html.ElementNode)); auto. Qed.

(** Insertion into a list with strictly ascending keys *)
Lemma add_item_sorted children name :
  Html.linked children ->
  StronglySorted Str.lt (Html.keys children) ->
  exists r, Html.add_item children name = Return r /\
    match r with
    | None => name ∈ Html.keys children
    | Some children' =>
        (name ∉ Html.keys children) /\
        Html.linked children' /\
        StronglySorted Str.lt (Html.keys children') /\
        forall k, k ∈ Html.keys children' <-> k = name \/ k ∈ Html.keys children
    end.
Proof.
  induction children as [|child siblings IH]; intros Hl Hs.
  - exists (Some (Html.newChildren name)). split; [done|].
    split; [apply not_elem_of_nil|].
    split; [by apply (linked_newChildren name [])|].
    split; [repeat constructor|].
    intros k. change (Html.keys (Html.newChildren name)) with [name].
    rewrite list_elem_of_singleton. split; [by left|].
    intros [Hk|Hk]; [done | by apply not_elem_of_nil in Hk].
  - apply linked_cons in Hl as [Hc Hl].
    destruct (type_dec child) as [He|Hne].
    + destruct (Hc He) as [k Hk].
      rewrite (keys_entry _ _ k He Hk) in Hs |- *.
      apply StronglySorted_inv in Hs as [Hs Hall].
      pose proof (proj1 (key_anchor_text _ _) Hk) as Ha.
      destruct (String.leb name k) eqn:Hle.
      * rewrite (add_item_here _ _ _ k He Ha Hle).
        destruct (String.eqb k name) eqn:Heq.
        { apply str_eqb_eq in Heq as ->. eexists; split; [done|]. left. }
        apply str_eqb_neq in Heq. apply str_leb_le in Hle.
        assert (Hlt : Str.lt name k).
        { apply str_le_lt_or_eq in Hle as [|]; congruence. }
        assert (Hall' : Forall (Str.lt name) (Html.keys siblings)).
        { eapply Forall_impl; [exact Hall|]. intros; by eapply str_lt_trans. }
        eexists; split; [done|]. cbv beta iota. rewrite keys_newChildren.
        rewrite (keys_entry _ _ k He Hk).
        split; [|split; [|split]].
        -- rewrite not_elem_of_cons. split; [congruence|].
           intros Hin. rewrite Forall_forall in Hall'.
           exact (str_lt_irrefl _ (Hall' _ Hin)).
        -- apply linked_newChildren. apply linked_cons. split; [by eexists|done].
        -- constructor; [by constructor|]. by constructor.
        -- intros k'. rewrite !elem_of_cons. tauto.
      * rewrite (add_item_next _ _ _ k He Ha Hle). apply str_leb_gt in Hle.
        destruct (IH Hl Hs) as (r & -> & Hr). unfold Html.add_rest; simpl.
        eexists; split; [done|].
        destruct r as [children'|]; simpl.
        -- destruct Hr as (Hnin & Hl' & Hs' & Hk').
           rewrite (keys_entry _ _ k He Hk).
           split; [|split; [|split]].
           ++ rewrite not_elem_of_cons. split; [|done].
              intros ->. exact (str_lt_irrefl _ Hle).
           ++ apply linked_cons. split; [by eexists|done].
           ++ constructor; [done|]. rewrite Forall_forall. intros k' Hin.
              apply Hk' in Hin as [->|Hin]; [done|].
              rewrite Forall_forall in Hall. by apply Hall.
           ++ intros k'. rewrite !elem_of_cons, Hk'. tauto.
        -- by right.
    + rewrite (keys_skip _ _ Hne) in Hs |- *.
      rewrite (add_item_skip _ _ _ Hne).
      destruct (IH Hl Hs) as (r & -> & Hr). unfold Html.add_rest; simpl.
      eexists; split; [done|].
      destruct r as [children'|]; simpl; [|done].
      destruct Hr as (Hnin & Hl' & Hs' & Hk').
      rewrite (keys_skip _ _ Hne).
      split; [done|]. split; [|done].
      apply linked_cons. split; [done|done].
Qed.

(** The loop and the insertion read only children that have an anchor text:
    they do not panic. *)
Lemma add_item_total children name :
  Html.linked children -> exists r, Html.add_item children name = Return r.
Proof.
  induction children as [|child siblings IH]; intros Hl; [by eexists|].
  apply linked_cons in Hl as [Hc Hl]. destruct (IH Hl) as [r Hr].
  destruct (type_dec child) as [He|Hne].
  - destruct (Hc He) as [k Hk]. apply key_anchor_text in Hk.
    destruct (String.leb name k) eqn:Hle.
    + rewrite (add_item_here _ _ _ k He Hk Hle).
      destruct (String.eqb k name); by eexists.
    + rewrite (add_item_next _ _ _ k He Hk Hle), Hr. by eexists.
  - rewrite (add_item_skip _ _ _ Hne), Hr. by eexists.
Qed.

Lemma add_rest_Some child r children' :
  Html.add_rest child r = Return (Some children') ->
  exists cs, r = Return (Some cs) /\ children' = child :: cs.
Proof.
  unfold Html.add_rest. destruct r as [[cs|]| |]; simpl; try done.
  intros [= <-]. by eexists.
Qed.

(** After the item was added, the loop stops at it. *)
Lemma add_item_again children children' name :
  Html.add_item children name = Return (Some children') ->
  Html.add_item children' name = Return None.
Proof.
  assert (Hnew : forall cs, Html.add_item (Html.newChildren name ++ cs) name
                            = Return None).
  { intros cs. unfold Html.newChildren. simpl.
    erewrite add_item_here; [| done | reflexivity |].
    - by rewrite String.eqb_refl.
    - apply str_leb_le, str_le_refl. }
  revert children'. induction children as [|child siblings IH]; intros children'.
  - intros [= <-]. apply (Hnew []).
  - destruct (type_dec child) as [He|Hne].
    + destruct (Html.key child) as [k|] eqn:Hk.
      * apply key_anchor_text in Hk.
        destruct (String.leb name k) eqn:Hle.
        -- rewrite (add_item_here _ _ _ k He Hk Hle).
           destruct (String.eqb k name); [done|]. intros [= <-]. apply Hnew.
        -- rewrite (add_item_next _ _ _ k He Hk Hle).
           intros (cs & Hr & ->)%add_rest_Some.
           by rewrite (add_item_next _ _ _ k He Hk Hle), (IH _ Hr).
      * by rewrite (add_item_panic _ _ _ He Hk).
    + rewrite (add_item_skip _ _ _ Hne).
      intros (cs & Hr & ->)%add_rest_Some.
      by rewrite (add_item_skip _ _ _ Hne), (IH _ Hr).
Qed.

(** ** [index] on a document *)

Lemma list_children_inv fuel document children :
  Html.list_children fuel document = Return children ->
  exists p ul,
    Html.locate fuel document Html.elementPath = Return p /\
    Html.get p document = Some ul /\ Html.Children ul = children.
Proof.
  unfold Html.list_children.
  destruct (Html.locate fuel document Html.elementPath) as [p| |] eqn:Hp;
    simpl; try done.
  destruct (Html.get p document) as [ul|] eqn:Hg; simpl; [|done].
  intros [= <-]. by exists p, ul.
Qed.

Lemma index_update_located fuel document name p ul :
  Html.locate fuel document Html.elementPath = Return p ->
  Html.get p document = Some ul ->
  Html.index_update fuel document name =
  (let* r := Html.add_item (Html.Children ul) name in
   Return (option_map
             (fun children =>
                Html.update p (Html.set_children children) document) r)).
Proof. intros Hp Hg. unfold Html.index_update. by rewrite Hp; simpl; rewrite Hg. Qed.

Lemma list_children_update fuel document p ul children :
  Html.locate fuel document Html.elementPath = Return p ->
  Html.get p document = Some ul ->
  Html.list_children fuel
    (Html.update p (Html.set_children children) document) = Return children.
Proof.
  intros Hp Hg. unfold Html.list_children.
  rewrite (locate_update _ _ _ _ children Hp). simpl.
  by rewrite (get_update _ _ _ _ Hg).
Qed.

Lemma index_update_sorted fuel document name children :
  Html.list_children fuel document = Return children ->
  Html.linked children ->
  StronglySorted Str.lt (Html.keys children) ->
  exists r children',
    Html.index_update fuel document name = Return r /\
    Html.list_children fuel (default document r) = Return children' /\
    Html.linked children' /\
    StronglySorted Str.lt (Html.keys children') /\
    forall k, k ∈ Html.keys children' <-> k = name \/ k ∈ Html.keys children.
Proof.
  intros Hc Hl Hs.
  destruct (list_children_inv _ _ _ Hc) as (p & ul & Hp & Hg & <-).
  rewrite (index_update_located _ _ name _ _ Hp Hg).
  destruct (add_item_sorted _ name Hl Hs) as (r & -> & Hr). simpl.
  destruct r as [children'|]; simpl.
  - destruct Hr as (_ & Hl' & Hs' & Hk).
    eexists _, children'. split; [done|]. simpl.
    split; [by eapply list_children_update|]. done.
  - eexists _, (Html.Children ul). split; [done|]. simpl.
    split; [done|]. split; [done|]. split; [done|].
    intros k. split; [by right | intros [->|]; done].
Qed.

Lemma index_all_sorted fuel names document children :
  Html.list_children fuel document = Return children ->
  Html.linked children ->
  StronglySorted Str.lt (Html.keys children) ->
  exists document' children',
    Html.index_all fuel names document = Return document' /\
    Html.list_children fuel document' = Return children' /\
    StronglySorted Str.lt (Html.keys children') /\
    forall k, k ∈ Html.keys children' <-> k ∈ names \/ k ∈ Html.keys children.
Proof.
  revert document children.
  induction names as [|name names IH]; intros document children Hc Hl Hs.
  - exists document, children. repeat split; try done.
    + by right.
    + intros [H|H]; [by apply not_elem_of_nil in H | done].
  - destruct (index_update_sorted _ _ name _ Hc Hl Hs)
      as (r & children1 & Hr & Hc1 & Hl1 & Hs1 & Hk1).
    destruct (IH _ _ Hc1 Hl1 Hs1) as (document' & children' & Ha & Hc' & Hs' & Hk').
    exists document', children'. simpl. rewrite Hr. simpl.
    repeat split; try done.
    + intros Hin. apply Hk' in Hin as [Hin|Hin]; [left; by right|].
      apply Hk1 in Hin as [->|Hin]; [left; by left | by right].
    + intros [Hin|Hin]; apply Hk'.
      * apply elem_of_cons in Hin as [->|Hin]; [right; apply Hk1; by left | by left].
      * right. apply Hk1. by right.
Qed.

(** After [index] has added the item, another invocation finds it. *)
Lemma index_update_again fuel document document' name :
  Html.index_update fuel document name = Return (Some document') ->
  Html.index_update fuel document' name = Return None.
Proof.
  unfold Html.index_update at 1.
  destruct (Html.locate fuel document Html.elementPath) as [p| |] eqn:Hp;
    simpl; try done.
  destruct (Html.get p document) as [ul|] eqn:Hg; simpl; [|done].
  destruct (Html.add_item (Html.Children ul) name) as [[children'|]| |] eqn:Ha;
    simpl; try done.
  intros [= <-].
  rewrite (index_update_located _ _ name p (Html.set_children children' ul)).
  - simpl. by rewrite (add_item_again _ _ _ Ha).
  - by apply locate_update.
  - by apply get_update.
Qed.

Lemma list_shape_linked children : Html.list_shape children -> Html.linked children.
Proof.
  unfold Html.list_shape, Html.linked. intros Hall.
  eapply Forall_impl; [exact Hall|].
  intros child H He. destruct (H He) as (_ & a & t & Ha & _ & _ & Ht & _).
  unfold Html.key, Html.anchor_text. rewrite Ha. simpl. rewrite Ht. simpl.
  by eexists.
Qed.

(** ** [readme]: the loop over the entries *)

Lemma md_key_flags f f' cs : Md.key (Md.ListItem f cs) = Md.key (Md.ListItem f' cs).
Proof. reflexivity. Qed.

Lemma md_key_content entry k :
  Md.key entry = Some k <-> Md.content entry = Return k.
Proof. unfold Md.key. destruct (Md.content entry); split; congruence. Qed.

Lemma md_keys_cons entry entries k :
  Md.key entry = Some k -> Md.keys (entry :: entries) = k :: Md.keys entries.
Proof. intros H. unfold Md.keys. simpl. by rewrite H. Qed.

Lemma md_keys_app l1 l2 : Md.keys (l1 ++ l2) = Md.keys l1 ++ Md.keys l2.
Proof. unfold Md.keys. apply omap_app. Qed.

Lemma md_keys_length entries :
  Forall Md.listed entries -> length (Md.keys entries) = length entries.
Proof.
  induction 1 as [|e es [_ [k Hk]] _ IH]; [done|].
  rewrite (md_keys_cons _ _ _ Hk). simpl. by rewrite IH.
Qed.

Lemma md_keys_take i entries :
  Forall Md.listed entries -> Md.keys (take i entries) = take i (Md.keys entries).
Proof.
  intros H. revert i. induction H as [|e es [_ [k Hk]] _ IH]; intros [|i];
    try done.
  change (take (S i) (e :: es)) with (e :: take i es).
  rewrite !(md_keys_cons _ _ _ Hk). simpl. by rewrite IH.
Qed.

Lemma md_keys_drop i entries :
  Forall Md.listed entries -> Md.keys (drop i entries) = drop i (Md.keys entries).
Proof.
  intros H. revert i. induction H as [|e es [_ [k Hk]] _ IH]; intros [|i];
    try done.
  change (drop (S i) (e :: es)) with (drop i es).
  rewrite (md_keys_cons _ _ _ Hk). simpl. by rewrite IH.
Qed.

(** On well-formed entries the loop is the loop on their keys. *)
Lemma scan_place_of entries name :
  Forall Md.listed entries ->
  Md.scan entries name = Return (Md.place_of (Md.keys entries) name).
Proof.
  induction 1 as [|e es [_ [k Hk]] _ IH]; [done|].
  rewrite (md_keys_cons _ _ _ Hk). simpl.
  rewrite (proj1 (md_key_content _ _) Hk). simpl.
  destruct (String.eqb k name); [done|].
  destruct (String.ltb name k); [done|]. by rewrite IH.
Qed.

Lemma place_of_spec ks name :
  match Md.place_of ks name with
  | Md.Found => name ∈ ks
  | Md.InsertAt i =>
      i <= length ks /\
      Forall (fun k => Str.lt k name) (take i ks) /\
      forall k, ks !! i = Some k -> Str.lt name k
  end.
Proof.
  induction ks as [|k ks IH]; simpl.
  - split; [done|]. split; [constructor|]. intros k H. done.
  - destruct (String.eqb k name) eqn:Heq.
    { apply str_eqb_eq in Heq as ->. left. }
    destruct (String.ltb name k) eqn:Hlt.
    { apply str_ltb_lt in Hlt. split; [lia|]. split; [constructor|].
      intros k' [= <-]. done. }
    apply str_eqb_neq in Heq. apply str_ltb_ge in Hlt.
    destruct (Md.place_of ks name) as [|i]; simpl; [by right|].
    destruct IH as (Hi & Hall & Hnext).
    split; [lia|]. split; [|done].
    constructor; [|done].
    apply str_le_lt_or_eq in Hlt as [|]; [done | congruence].
Qed.

Lemma place_of_sorted ks name i :
  StronglySorted Str.lt ks ->
  Md.place_of ks name = Md.InsertAt i ->
  Forall (Str.lt name) (drop i ks) /\ name ∉ ks.
Proof.
  intros Hs Hp. pose proof (place_of_spec ks name) as H. rewrite Hp in H.
  destruct H as (Hi & Hbefore & Hnext).
  assert (Hafter : Forall (Str.lt name) (drop i ks)).
  { destruct (ks !! i) as [k|] eqn:E.
    - rewrite <- (take_drop i ks) in Hs.
      apply StronglySorted_app_1_r in Hs.
      rewrite (drop_S _ _ _ E) in Hs |- *.
      apply StronglySorted_inv in Hs as [_ Hall].
      constructor; [by apply Hnext|].
      eapply Forall_impl; [exact Hall|]. intros k' Hk'.
      eapply str_lt_trans; [by apply Hnext | done].
    - apply lookup_ge_None in E. rewrite drop_ge by done. constructor. }
  split; [done|].
  rewrite <- (take_drop i ks), not_elem_of_app. split; intros Hin.
  - rewrite Forall_forall in Hbefore. exact (str_lt_irrefl _ (Hbefore _ Hin)).
  - rewrite Forall_forall in Hafter. exact (str_lt_irrefl _ (Hafter _ Hin)).
Qed.

Lemma place_of_before ks name :
  ks <> [] -> Forall (Str.lt name) ks -> Md.place_of ks name = Md.InsertAt 0.
Proof.
  intros Hne H. destruct H as [|k ks Hk _]; [done|]. simpl.
  rewrite (proj2 (str_eqb_neq k name)).
  - by rewrite (proj2 (str_ltb_lt name k)).
  - intros ->. exact (str_lt_irrefl _ Hk).
Qed.

Lemma place_of_after ks1 ks2 name :
  Forall (fun k => Str.lt k name) ks1 ->
  Md.place_of (ks1 ++ ks2) name =
  match Md.place_of ks2 name with
  | Md.Found => Md.Found
  | Md.InsertAt i => Md.InsertAt (length ks1 + i)
  end.
Proof.
  induction 1 as [|k ks1 Hk _ IH]; simpl.
  - by destruct (Md.place_of ks2 name).
  - rewrite (proj2 (str_eqb_neq k name)).
    + rewrite (proj2 (str_ltb_ge name k)) by by apply str_lt_le.
      rewrite IH. by destruct (Md.place_of ks2 name).
    + intros ->. exact (str_lt_irrefl _ Hk).
Qed.

(** Inserting between the keys below the name and the keys above it keeps a
    strictly ascending list strictly ascending. *)
Lemma sorted_insert_between (ks : list string) name i :
  StronglySorted Str.lt ks ->
  Forall (fun k => Str.lt k name) (take i ks) ->
  Forall (Str.lt name) (drop i ks) ->
  StronglySorted Str.lt (take i ks ++ name :: drop i ks).
Proof.
  intros Hs Hb Ha. rewrite <- (take_drop i ks) in Hs.
  apply StronglySorted_app in Hs as (H12 & Hs1 & Hs2).
  apply StronglySorted_app. split; [|split; [done | by constructor]].
  intros x1 x2 Hx1 Hx2. rewrite Forall_forall in Hb.
    apply elem_of_cons in Hx2 as [->|Hx2]; [by apply Hb|].
    rewrite Forall_forall in Ha.
    eapply str_lt_trans; [by apply Hb | by apply Ha].
Qed.

(** ** [readme]: the two branches after the loop *)

Lemma splice_prepend e rest f cs :
  Md.splice (e :: rest) (Md.ListItem f cs) 0 =
  (let* e' := Md.set_ListFlags 0 e in
   Return (Md.ListItem Md.ListItemBeginningOfList cs :: e' :: rest)).
Proof. reflexivity. Qed.

Lemma splice_middle entries new i :
  0 < i -> i < length entries ->
  Md.splice entries new i = Return (take i entries ++ new :: drop i entries).
Proof.
  intros H0 Hi. unfold Md.splice.
  rewrite (proj2 (Nat.ltb_lt _ _) Hi).
  by rewrite (proj2 (Nat.eqb_neq i 0)) by lia.
Qed.

Lemma splice_append_nil f cs i :
  Md.splice [] (Md.ListItem f cs) i =
  Return [Md.ListItem Md.ListItemEndOfList cs].
Proof.
  unfold Md.splice. rewrite (proj2 (Nat.ltb_ge i (length (@nil Md.Node))));
    [done | simpl; lia].
Qed.

Lemma splice_append front last f cs i :
  length (front ++ [last]) <= i ->
  Md.splice (front ++ [last]) (Md.ListItem f cs) i =
  (let* last' := Md.set_ListFlags 0 last in
   Return (front ++ [last'; Md.ListItem Md.ListItemEndOfList cs])).
Proof.
  intros Hi. unfold Md.splice.
  rewrite (proj2 (Nat.ltb_ge _ _) Hi). simpl Md.set_ListFlags. simpl run_bind.
  rewrite <- app_assoc. simpl app.
  assert (Hlen : length (front ++ [last; Md.ListItem Md.ListItemEndOfList cs])
                 = S (S (length front))).
  { rewrite length_app. simpl. lia. }
  rewrite Hlen. change (1 <? S (S (length front)))%nat with true. cbv iota.
  replace (S (S (length front)) - 2) with (length front + 0) by lia.
  rewrite lookup_app_r by lia.
  replace (length front + 0 - length front) with 0 by lia. simpl.
  destruct (Md.set_ListFlags 0 last) as [last'| |]; simpl; try done.
  by rewrite insert_app_r.
Qed.

Lemma set_ListFlags_inv v e e' :
  Md.set_ListFlags v e = Return e' ->
  exists f cs, e = Md.ListItem f cs /\ e' = Md.ListItem v cs.
Proof. destruct e; simpl; try done. intros [= <-]. by eexists _, _. Qed.

Lemma list_snoc_cases {A} (l : list A) :
  l = [] \/ exists front last, l = front ++ [last].
Proof.
  induction l as [|x l IH] using rev_ind; [by left | right; by eexists _, _].
Qed.

Lemma same_content_refl l : Forall2 Md.same_content l l.
Proof. apply Forall_Forall2_diag, Forall_forall. by intros. Qed.

(** What a returning [splice] leaves before and at the insertion point *)
Lemma splice_inv entries f cs i out :
  i <= length entries ->
  Md.splice entries (Md.ListItem f cs) i = Return out ->
  Forall2 Md.same_content (take i out) (take i entries) /\
  exists f', out !! i = Some (Md.ListItem f' cs).
Proof.
  intros Hi. destruct (decide (i < length entries)) as [Hlt|Hge].
  - destruct (decide (i = 0)) as [->|Hne].
    + destruct entries as [|e rest]; [simpl in Hlt; lia|].
      rewrite splice_prepend.
      destruct (Md.set_ListFlags 0 e) as [e'| |]; simpl; try done.
      intros [= <-]. split; [constructor | by eexists].
    + rewrite splice_middle by lia. intros [= <-]. split.
      * rewrite take_app_le by (rewrite length_take; lia).
        rewrite take_take, Nat.min_id. apply same_content_refl.
      * exists f. rewrite lookup_app_r by (rewrite length_take; lia).
        rewrite length_take. by replace (i - i `min` length entries) with 0 by lia.
  - assert (i = length entries) as -> by lia. clear Hi Hge.
    destruct (list_snoc_cases entries) as [->|(front & last & ->)].
    + rewrite splice_append_nil. intros [= <-]. split; [constructor | by eexists].
    + rewrite splice_append by done.
      destruct (Md.set_ListFlags 0 last) as [last'| |] eqn:E; simpl; try done.
      intros [= <-]. apply set_ListFlags_inv in E as (fl & cl & -> & ->).
      rewrite length_app. simpl. split.
      * rewrite (take_ge (front ++ [Md.ListItem fl cl]))
          by (rewrite length_app; simpl; lia).
        rewrite (take_app_add' front [_; _] (length front) 1) by done.
        simpl. apply Forall2_app; [apply same_content_refl|].
        by repeat constructor.
      * eexists. rewrite lookup_app_r by lia.
        by replace (length front + 1 - length front) with 1 by lia.
Qed.

Lemma scan_bound entries name i :
  Md.scan entries name = Return (Md.InsertAt i) -> i <= length entries.
Proof.
  revert i. induction entries as [|e es IH]; intros i; simpl.
  - intros [= <-]. lia.
  - destruct (Md.content e) as [c| |]; simpl; try done.
    destruct (String.eqb c name); [done|].
    destruct (String.ltb name c); [intros [= <-]; lia|].
    destruct (Md.scan es name) as [[|j]| |]; simpl; try done.
    intros [= <-]. specialize (IH j eq_refl). lia.
Qed.

(** A list that reads like [entries] up to the insertion point and has the
    name there makes the loop return at once. *)
Lemma scan_again entries name i out :
  Md.scan entries name = Return (Md.InsertAt i) ->
  Forall2 Md.same_content (take i out) (take i entries) ->
  (exists e, out !! i = Some e /\ Md.content e = Return name) ->
  Md.scan out name = Return Md.Found.
Proof.
  assert (Hhere : forall out, (exists e, out !! 0 = Some e /\
                                 Md.content e = Return name) ->
                  Md.scan out name = Return Md.Found).
  { intros [|o out'] (e & He & Hc); [done|]. injection He as ->. simpl.
    rewrite Hc. simpl. by rewrite String.eqb_refl. }
  revert i out. induction entries as [|e es IH]; intros i out; simpl.
  - intros [= <-] _. apply Hhere.
  - destruct (Md.content e) as [c| |] eqn:Hc; simpl; try done.
    destruct (String.eqb c name) eqn:Heq; [done|].
    destruct (String.ltb name c) eqn:Hlt; [intros [= <-] _; apply Hhere|].
    destruct (Md.scan es name) as [[|j]| |] eqn:Hs; simpl; try done.
    intros [= <-] Hsame (e' & He' & Hc').
    destruct out as [|o out']; [done|]. simpl in Hsame, He'.
    apply Forall2_cons_1 in Hsame as [Ho Hsame].
    simpl. rewrite Ho, Hc. simpl. rewrite Heq, Hlt.
    rewrite (IH j out' eq_refl Hsame); [done|]. by exists e'.
Qed.

(** After [readme] has added the item, another invocation finds it. *)
Lemma readme_entries_again entries f cs new' name out :
  Md.content (Md.ListItem f cs) = Return name ->
  Md.readme_entries entries (Md.ListItem f cs) name = Return (Some out) ->
  Md.readme_entries out new' name = Return None.
Proof.
  intros Hc. unfold Md.readme_entries.
  destruct (Md.scan entries name) as [[|i]| |] eqn:Hs; simpl; try done.
  destruct (Md.splice entries (Md.ListItem f cs) i) as [out'| |] eqn:Hsp;
    simpl; try done.
  intros [= <-].
  destruct (splice_inv _ _ _ _ _ (scan_bound _ _ _ Hs) Hsp) as (Hsame & f' & Hi).
  rewrite (scan_again _ _ _ _ Hs Hsame); [done|].
  eexists; split; [exact Hi|]. exact Hc.
Qed.

(** The keys after a returning [splice] *)
Lemma splice_keys entries f cs i name :
  Forall Md.listed entries ->
  i <= length entries ->
  Md.key (Md.ListItem f cs) = Some name ->
  exists out,
    Md.splice entries (Md.ListItem f cs) i = Return out /\
    Forall Md.listed out /\
    Md.keys out = take i (Md.keys entries) ++ name :: drop i (Md.keys entries).
Proof.
  intros Hl Hi Hk.
  assert (Hnew : forall v, Md.listed (Md.ListItem v cs)).
  { intros v. split; [by eexists _, _|]. rewrite (md_key_flags v f). by eexists. }
  destruct (decide (i < length entries)) as [Hlt|Hge].
  - destruct (decide (i = 0)) as [->|Hne].
    + destruct Hl as [|e rest [(f0 & c0 & ->) [k0 Hk0]] Hl]; [simpl in Hlt; lia|].
      rewrite splice_prepend. unfold Md.set_ListFlags, run_bind.
      eexists; split; [done|]. split.
      * constructor; [apply Hnew|]. constructor; [|done].
        split; [by eexists _, _|]. rewrite (md_key_flags _ f0). by eexists.
      * rewrite (md_keys_cons _ _ name) by (by rewrite (md_key_flags _ f)).
        rewrite (md_keys_cons _ _ k0) by (by rewrite (md_key_flags _ f0)).
        by rewrite (md_keys_cons _ _ k0 Hk0).
    + rewrite splice_middle by lia. eexists; split; [done|]. split.
      * apply Forall_app. split; [by apply Forall_take|].
        constructor; [apply Hnew | by apply Forall_drop].
      * rewrite md_keys_app, (md_keys_cons _ _ name Hk).
        by rewrite md_keys_take, md_keys_drop.
  - assert (i = length entries) as -> by lia. clear Hi Hge.
    rewrite (take_ge (Md.keys entries)), (drop_ge (Md.keys entries))
      by (by rewrite md_keys_length).
    destruct (list_snoc_cases entries) as [->|(front & last & ->)].
    + rewrite splice_append_nil. eexists; split; [done|]. split.
      * constructor; [apply Hnew | constructor].
      * by rewrite (md_keys_cons _ _ name) by (by rewrite (md_key_flags _ f)).
    + apply Forall_app in Hl as [Hf Hlast].
      apply Forall_singleton in Hlast as [(fl & cl & ->) [kl Hkl]].
      rewrite splice_append by done. unfold Md.set_ListFlags, run_bind.
      eexists; split; [done|]. split.
      * apply Forall_app. split; [done|].
        constructor; [|constructor; [apply Hnew|constructor]].
        split; [by eexists _, _|]. rewrite (md_key_flags _ fl). by eexists.
      * rewrite !md_keys_app.
        rewrite (md_keys_cons _ _ kl) by (by rewrite (md_key_flags _ fl)).
        rewrite (md_keys_cons _ _ name) by (by rewrite (md_key_flags _ f)).
        rewrite (md_keys_cons _ _ kl Hkl). by rewrite <- app_assoc.
Qed.

(** Insertion into a list with strictly ascending keys *)
Lemma readme_entries_sorted entries f cs name :
  Forall Md.listed entries ->
  StronglySorted Str.lt (Md.keys entries) ->
  Md.key (Md.ListItem f cs) = Some name ->
  exists r, Md.readme_entries entries (Md.ListItem f cs) name = Return r /\
    match r with
    | None => name ∈ Md.keys entries
    | Some out =>
        (name ∉ Md.keys entries) /\
        Forall Md.listed out /\
        StronglySorted Str.lt (Md.keys out) /\
        forall k, k ∈ Md.keys out <-> k = name \/ k ∈ Md.keys entries
    end.
Proof.
  intros Hl Hs Hk. unfold Md.readme_entries.
  rewrite (scan_place_of _ _ Hl). simpl.
  pose proof (place_of_spec (Md.keys entries) name) as Hspec.
  destruct (Md.place_of (Md.keys entries) name) as [|i] eqn:Hp.
  { by eexists. }
  destruct Hspec as (Hi & Hbefore & _).
  destruct (place_of_sorted _ _ _ Hs Hp) as [Hafter Hnin].
  rewrite (md_keys_length _ Hl) in Hi.
  destruct (splice_keys entries f cs i name Hl Hi Hk) as (out & -> & Hl' & Hkeys).
  simpl. eexists; split; [done|]. cbv beta iota.
  split; [done|]. split; [done|]. rewrite Hkeys. split.
  - by apply sorted_insert_between.
  - intros k. rewrite <- (take_drop i (Md.keys entries)) at 3.
    rewrite !elem_of_app, elem_of_cons. tauto.
Qed.

(** ** [readme] on a document *)

Lemma list_entries_inv document entries :
  Md.list_entries document = Return entries ->
  exists blocks list,
    Md.AsContainer document = Some blocks /\
    blocks !! 1 = Some list /\
    Md.AsContainer list = Some entries.
Proof.
  unfold Md.list_entries, Md.child.
  destruct (Md.AsContainer document) as [blocks|] eqn:Hd; simpl; [|done].
  destruct (blocks !! 1) as [list|] eqn:Hb; simpl; [|done].
  destruct (Md.AsContainer list) as [es|] eqn:Hl; simpl; [|done].
  intros [= <-]. by exists blocks, list.
Qed.

Lemma AsContainer_set_Children n children children' :
  Md.AsContainer n = Some children ->
  Md.AsContainer (Md.set_Children children' n) = Some children'.
Proof. by destruct n. Qed.

Lemma list_entries_update document blocks list entries entries' :
  Md.AsContainer document = Some blocks ->
  blocks !! 1 = Some list ->
  Md.AsContainer list = Some entries ->
  Md.list_entries
    (Md.set_Children (<[1 := Md.set_Children entries' list]> blocks) document)
  = Return entries'.
Proof.
  intros Hd Hb Hl. unfold Md.list_entries, Md.child.
  rewrite (AsContainer_set_Children _ _ _ Hd). simpl.
  rewrite list_lookup_insert_eq by (by eapply lookup_lt_Some). simpl.
  by rewrite (AsContainer_set_Children _ _ _ Hl).
Qed.

Lemma new_item_inv newListItemList newListItem :
  Md.new_item newListItemList = Return newListItem ->
  exists cs, newListItem = Md.ListItem 0 cs.
Proof.
  unfold Md.new_item.
  destruct (Md.child 0 newListItemList) as [l| |]; simpl; try done.
  destruct (Md.child 0 l) as [it| |]; simpl; try done.
  intros (f & cs & _ & ->)%set_ListFlags_inv. by exists cs.
Qed.

Lemma readme_update_located newListItemList newListItem document blocks list
    entries name :
  Md.new_item newListItemList = Return newListItem ->
  Md.AsContainer document = Some blocks ->
  blocks !! 1 = Some list ->
  Md.AsContainer list = Some entries ->
  Md.readme_update newListItemList document name =
  (let* r := Md.readme_entries entries newListItem name in
   Return (option_map
             (fun entries' =>
                Md.set_Children
                  (<[1 := Md.set_Children entries' list]> blocks) document)
             r)).
Proof.
  intros Hn Hd Hb Hl. unfold Md.readme_update, Md.child.
  rewrite Hn, Hd. simpl. rewrite Hb. simpl. rewrite Hl. simpl.
  destruct (Md.readme_entries entries newListItem name) as [[out|]| |]; simpl;
    try done.
Qed.

Lemma readme_update_sorted newListItemList newListItem document entries name :
  Md.new_item newListItemList = Return newListItem ->
  Md.content newListItem = Return name ->
  Md.list_entries document = Return entries ->
  Forall Md.listed entries ->
  StronglySorted Str.lt (Md.keys entries) ->
  exists r entries',
    Md.readme_update newListItemList document name = Return r /\
    Md.list_entries (default document r) = Return entries' /\
    Forall Md.listed entries' /\
    StronglySorted Str.lt (Md.keys entries') /\
    forall k, k ∈ Md.keys entries' <-> k = name \/ k ∈ Md.keys entries.
Proof.
  intros Hn Hc He Hl Hs.
  destruct (list_entries_inv _ _ He) as (blocks & list & Hd & Hb & Hli).
  rewrite (readme_update_located _ _ _ _ _ _ name Hn Hd Hb Hli).
  destruct (new_item_inv _ _ Hn) as [cs ->].
  apply md_key_content in Hc.
  destruct (readme_entries_sorted entries 0 cs name Hl Hs Hc) as (r & -> & Hr).
  simpl. destruct r as [out|]; simpl.
  - destruct Hr as (_ & Hl' & Hs' & Hk).
    eexists _, out. split; [done|]. simpl.
    split; [by eapply list_entries_update|]. done.
  - eexists _, entries. split; [done|]. simpl.
    split; [done|]. split; [done|]. split; [done|].
    intros k. split; [by right | intros [->|]; done].
Qed.

Lemma readme_all_sorted Parse names document entries :
  (forall name, name ∈ names -> Md.parses_item Parse name) ->
  Md.list_entries document = Return entries ->
  Forall Md.listed entries ->
  StronglySorted Str.lt (Md.keys entries) ->
  exists document' entries',
    Md.readme_all Parse names document = Return document' /\
    Md.list_entries document' = Return entries' /\
    StronglySorted Str.lt (Md.keys entries') /\
    forall k, k ∈ Md.keys entries' <-> k ∈ names \/ k ∈ Md.keys entries.
Proof.
  revert document entries.
  induction names as [|name names IH]; intros document entries Hp He Hl Hs.
  - exists document, entries. repeat split; try done.
    + by right.
    + intros [H|H]; [by apply not_elem_of_nil in H | done].
  - destruct (Hp name) as (it & Hn & Hc); [left|].
    destruct (readme_update_sorted _ _ _ _ name Hn Hc He Hl Hs)
      as (r & entries1 & Hr & He1 & Hl1 & Hs1 & Hk1).
    destruct (IH (default document r) entries1) as (document' & entries' & Ha & He' & Hs' & Hk');
      try done.
    { intros n Hin. apply Hp. by right. }
    exists document', entries'. simpl. rewrite Hr. simpl.
    repeat split; try done.
    + intros Hin. apply Hk' in Hin as [Hin|Hin]; [left; by right|].
      apply Hk1 in Hin as [->|Hin]; [left; by left | by right].
    + intros [Hin|Hin]; apply Hk'.
      * apply elem_of_cons in Hin as [->|Hin]; [right; apply Hk1; by left | by left].
      * right. apply Hk1. by right.
Qed.

Lemma readme_update_again newListItemList newListItem document document' name :
  Md.new_item newListItemList = Return newListItem ->
  Md.content newListItem = Return name ->
  Md.readme_update newListItemList document name = Return (Some document') ->
  Md.readme_update newListItemList document' name = Return None.
Proof.
  intros Hn Hc. unfold Md.readme_update at 1. rewrite Hn. simpl.
  destruct (Md.child 1 document) as [list| |] eqn:Hch; simpl; try done.
  destruct (Md.AsContainer list) as [entries|] eqn:Hl; simpl; [|done].
  destruct (Md.readme_entries entries newListItem name) as [[out|]| |] eqn:Hr;
    simpl; try done.
  destruct (Md.AsContainer document) as [blocks|] eqn:Hd; simpl; [|done].
  intros [= <-].
  assert (Hb : blocks !! 1 = Some list).
  { unfold Md.child in Hch. rewrite Hd in Hch. simpl in Hch.
    by destruct (blocks !! 1); simplify_eq/=. }
  erewrite readme_update_located; [|exact Hn | ..].
  - destruct (new_item_inv _ _ Hn) as [cs ->].
    by rewrite (readme_entries_again _ _ _ _ _ _ Hc Hr).
  - by eapply AsContainer_set_Children.
  - apply list_lookup_insert_eq. by eapply lookup_lt_Some.
  - by eapply AsContainer_set_Children.
Qed.

(** ** Ascending lists *)

Lemma ascending_strictly (l : list string) :
  Str.ascending l <-> StronglySorted Str.lt l.
Proof.
  split.
  - intros [Hs Hn]. by apply sorted_NoDup_strictly.
  - intros H. split; [by apply strictly_sorted_le | by apply strictly_sorted_NoDup].
Qed.

Lemma record_update_ascending (l : list string) name :
  Str.ascending l ->
  Str.ascending (default l (Manifest.record_update l name)) /\
  forall k, k ∈ default l (Manifest.record_update l name) <-> k = name \/ k ∈ l.
Proof.
  intros [Hs Hn]. destruct (decide (name ∈ l)) as [Hin|Hnin].
  - rewrite (record_update_present _ _ Hin). simpl. split; [done|].
    intros k. split; [by right | intros [->|]; done].
  - rewrite (record_update_absent _ _ Hnin). simpl. split; [split|].
    + apply Sort_sorted.
    + rewrite Sort_perm. apply NoDup_app. split; [done|]. split.
      * intros x Hx Hx'. by apply list_elem_of_singleton in Hx' as ->.
      * apply NoDup_singleton.
    + intros k. rewrite Sort_perm, elem_of_app, list_elem_of_singleton. tauto.
Qed.

Lemma record_all_ascending names (l : list string) :
  Str.ascending l ->
  Str.ascending (Manifest.record_all names l) /\
  forall k, k ∈ Manifest.record_all names l <-> k ∈ names \/ k ∈ l.
Proof.
  revert l. induction names as [|name names IH]; intros l Hl; simpl.
  - split; [done|]. intros k. split; [by right|].
    intros [H|H]; [by apply not_elem_of_nil in H | done].
  - destruct (record_update_ascending l name Hl) as [Hl1 Hk1].
    destruct (IH _ Hl1) as [Hl' Hk']. split; [done|].
    intros k. rewrite Hk', Hk1, elem_of_cons. tauto.
Qed.

(** C1: whatever names are inserted, one per invocation and in any order,
    into documents whose lists are sorted ascending without duplicates, the
    [<ul>] of the HTML document (keyed by anchor text), the bullet list of
    the Markdown document (keyed by link text) and the manifest array are
    again sorted ascending without duplicates; each holds the keys it held
    and the names.  Each invocation starts from the document the one before
    left; the Markdown parser is taken to read the text of a new item as a
    list item that links the name. *)
Theorem insertions_keep_lists_ascending
    (fuel : nat) (md_Parse : string -> Md.Node) (names : list string)
    (html : Html.Node) (children : list Html.Node)
    (md : Md.Node) (entries : list Md.Node) (repositories : list string) :
  Html.list_children fuel html = Return children ->
  Html.linked children ->
  Str.ascending (Html.keys children) ->
  Md.list_entries md = Return entries ->
  Forall Md.listed entries ->
  Str.ascending (Md.keys entries) ->
  (forall name, name ∈ names -> Md.parses_item md_Parse name) ->
  Str.ascending repositories ->
  (exists html' children',
     Html.index_all fuel names html = Return html' /\
     Html.list_children fuel html' = Return children' /\
     Str.ascending (Html.keys children') /\
     forall k, k ∈ Html.keys children' <-> k ∈ names \/ k ∈ Html.keys children)
  /\
  (exists md' entries',
     Md.readme_all md_Parse names md = Return md' /\
     Md.list_entries md' = Return entries' /\
     Str.ascending (Md.keys entries') /\
     forall k, k ∈ Md.keys entries' <-> k ∈ names \/ k ∈ Md.keys entries)
  /\
  (Str.ascending (Manifest.record_all names repositories) /\
   forall k, k ∈ Manifest.record_all names repositories <->
             k ∈ names \/ k ∈ repositories).
Proof.
  intros Hc Hl Hs He Hle Hse Hp Hr.
  apply ascending_strictly in Hs. apply ascending_strictly in Hse.
  split; [|split].
  - destruct (index_all_sorted fuel names html children Hc Hl Hs)
      as (html' & children' & Ha & Hc' & Hs' & Hk).
    exists html', children'. by rewrite ascending_strictly.
  - destruct (readme_all_sorted md_Parse names md entries Hp He Hle Hse)
      as (md' & entries' & Ha & He' & Hs' & Hk).
    exists md', entries'. by rewrite ascending_strictly.
  - by apply record_all_ascending.
Qed.

(** The sample documents are well-formed. *)
Lemma site_items_linked names : Html.linked (Sample.site_items names).
Proof.
  unfold Sample.site_items. apply linked_cons. split; [done|].
  induction names as [|name names IH]; simpl; [constructor|].
  apply linked_cons. split; [intros _; by eexists|].
  apply linked_cons. split; [done|]. exact IH.
Qed.

Lemma readme_items_listed first names :
  Forall Md.listed (Sample.readme_items first names).
Proof.
  revert first. induction names as [|name names IH]; intros first; simpl;
    constructor; [|apply IH].
  split; [by eexists _, _ | by eexists].
Qed.

Lemma elem_of_two {A} (x a b : A) : x ∈ [a; b] -> x = a \/ x = b.
Proof.
  intros [->|H]%elem_of_cons; [by left|].
  apply list_elem_of_singleton in H. by right.
Qed.

(** "gamma" then "alpha" into lists that hold "beta" and "delta" *)
Lemma insertions_keep_lists_ascending_witness :
  (exists html' children',
     Html.index_all 4 ["gamma"; "alpha"] (Sample.site ["beta"; "delta"])
     = Return html' /\
     Html.list_children 4 html' = Return children' /\
     Str.ascending (Html.keys children') /\
     forall k, k ∈ Html.keys children' <->
               k ∈ ["gamma"; "alpha"] \/
               k ∈ Html.keys (Sample.site_items ["beta"; "delta"]))
  /\
  (exists md' entries',
     Md.readme_all (Sample.md_Parse []) ["gamma"; "alpha"]
       (Sample.readme ["beta"; "delta"]) = Return md' /\
     Md.list_entries md' = Return entries' /\
     Str.ascending (Md.keys entries') /\
     forall k, k ∈ Md.keys entries' <->
               k ∈ ["gamma"; "alpha"] \/
               k ∈ Md.keys (Sample.readme_items true ["beta"; "delta"]))
  /\
  (Str.ascending (Manifest.record_all ["gamma"; "alpha"] ["beta"; "delta"]) /\
   forall k, k ∈ Manifest.record_all ["gamma"; "alpha"] ["beta"; "delta"] <->
             k ∈ ["gamma"; "alpha"] \/ k ∈ ["beta"; "delta"]).
Proof.
  apply (insertions_keep_lists_ascending 4 (Sample.md_Parse [])
           ["gamma"; "alpha"]
           (Sample.site ["beta"; "delta"])
           (Sample.site_items ["beta"; "delta"])
           (Sample.readme ["beta"; "delta"])
           (Sample.readme_items true ["beta"; "delta"])
           ["beta"; "delta"]).
  - reflexivity.
  - apply site_items_linked.
  - apply (bool_decide_unpack _). by vm_compute.
  - reflexivity.
  - apply readme_items_listed.
  - apply (bool_decide_unpack _). by vm_compute.
  - intros name [-> | ->]%elem_of_two.
    + exists (Md.entry 0 "gamma"). split; by vm_compute.
    + exists (Md.entry 0 "alpha"). split; by vm_compute.
  - apply (bool_decide_unpack _). by vm_compute.
Defined.

(** ** The boundary markers of the Markdown list *)

Lemma holds_flags marker flags cs :
  Md.holds marker (Md.ListItem flags cs) <-> Z.land flags marker <> 0%Z.
Proof.
  split.
  - by intros (f & c & [= <- <-] & H).
  - intros H. by exists flags, cs.
Qed.

Lemma readme_entries_before f0 c0 rest cs name :
  Forall Md.listed (Md.ListItem f0 c0 :: rest) ->
  Forall (Str.lt name) (Md.keys (Md.ListItem f0 c0 :: rest)) ->
  Md.readme_entries (Md.ListItem f0 c0 :: rest) (Md.ListItem 0 cs) name =
  Return (Some (Md.ListItem Md.ListItemBeginningOfList cs
                :: Md.ListItem 0 c0 :: rest)).
Proof.
  intros Hl Hk. unfold Md.readme_entries.
  rewrite (scan_place_of _ _ Hl), place_of_before; [done| |done].
  apply Forall_cons in Hl as [[_ [k0 Hk0]] _].
  by rewrite (md_keys_cons _ _ _ Hk0).
Qed.

Lemma place_of_end ks name :
  Forall (fun k => Str.lt k name) ks ->
  Md.place_of ks name = Md.InsertAt (length ks).
Proof.
  intros H. rewrite <- (app_nil_r ks) at 1.
  rewrite (place_of_after _ _ _ H). simpl. by rewrite Nat.add_0_r.
Qed.

Lemma readme_entries_after_nil cs name :
  Md.readme_entries [] (Md.ListItem 0 cs) name =
  Return (Some [Md.ListItem Md.ListItemEndOfList cs]).
Proof. reflexivity. Qed.

Lemma readme_entries_after front fl cl cs name :
  Forall Md.listed (front ++ [Md.ListItem fl cl]) ->
  Forall (fun k => Str.lt k name) (Md.keys (front ++ [Md.ListItem fl cl])) ->
  Md.readme_entries (front ++ [Md.ListItem fl cl]) (Md.ListItem 0 cs) name =
  Return (Some (front ++ [Md.ListItem 0 cl;
                          Md.ListItem Md.ListItemEndOfList cs])).
Proof.
  intros Hl Hk. unfold Md.readme_entries.
  rewrite (scan_place_of _ _ Hl), (place_of_end _ _ Hk). simpl.
  rewrite splice_append by (by rewrite (md_keys_length _ Hl)). done.
Qed.

Lemma readme_entries_between before after cs name :
  before <> [] -> after <> [] ->
  Forall Md.listed (before ++ after) ->
  Forall (fun k => Str.lt k name) (Md.keys before) ->
  Forall (Str.lt name) (Md.keys after) ->
  Md.readme_entries (before ++ after) (Md.ListItem 0 cs) name =
  Return (Some (before ++ Md.ListItem 0 cs :: after)).
Proof.
  intros Hb Ha Hl Hkb Hka. unfold Md.readme_entries.
  pose proof Hl as Hl'. apply Forall_app in Hl' as [Hlb Hla].
  rewrite (scan_place_of _ _ Hl), md_keys_app, (place_of_after _ _ _ Hkb).
  rewrite place_of_before; [|by destruct Hla as [|? ? [_ [k Hk]] _];
    [|rewrite (md_keys_cons _ _ _ Hk)] | done].
  rewrite Nat.add_0_r, (md_keys_length _ Hlb). simpl.
  rewrite splice_middle.
  - by rewrite take_app_length, drop_app_length.
  - destruct before; [done | simpl; lia].
  - rewrite length_app. destruct after; [done | simpl; lia].
Qed.

(** C3: in the Markdown list, a name below all existing keys puts the new
    item first with the beginning-of-list marker and clears the flags of the
    item that was first, so the new item is the only holder of that marker;
    a name above all existing keys puts the new item last with the
    end-of-list marker and clears the flags of the item that was last, so
    the new item is the only holder of that marker; a name strictly inside
    leaves every existing item as it was and gives the new item no marker.
    Inserting "alpha" into the one-entry list of "beta" gives "alpha" with
    the beginning-of-list marker, then "beta" with its flags cleared. *)
Theorem readme_markers :
  (forall f0 c0 rest cs name,
     Forall Md.listed (Md.ListItem f0 c0 :: rest) ->
     Forall (Str.lt name) (Md.keys (Md.ListItem f0 c0 :: rest)) ->
     let out := Md.ListItem Md.ListItemBeginningOfList cs
                :: Md.ListItem 0 c0 :: rest in
     Md.readme_entries (Md.ListItem f0 c0 :: rest) (Md.ListItem 0 cs) name
     = Return (Some out) /\
     (Forall (fun e => ~ Md.holds Md.ListItemBeginningOfList e) rest ->
      forall i e, out !! i = Some e ->
                  (Md.holds Md.ListItemBeginningOfList e <-> i = 0)))
  /\
  (forall entries cs name,
     Forall Md.listed entries ->
     Forall (fun k => Str.lt k name) (Md.keys entries) ->
     exists out,
       Md.readme_entries entries (Md.ListItem 0 cs) name = Return (Some out) /\
       out !! length entries = Some (Md.ListItem Md.ListItemEndOfList cs) /\
       length out = S (length entries) /\
       (forall i, S i < length entries -> out !! i = entries !! i) /\
       ((forall i e, entries !! i = Some e ->
                     Md.holds Md.ListItemEndOfList e -> S i = length entries) ->
        forall i e, out !! i = Some e ->
                    (Md.holds Md.ListItemEndOfList e <-> i = length entries)))
  /\
  (forall before after cs name,
     before <> [] -> after <> [] ->
     Forall Md.listed (before ++ after) ->
     Forall (fun k => Str.lt k name) (Md.keys before) ->
     Forall (Str.lt name) (Md.keys after) ->
     Md.readme_entries (before ++ after) (Md.ListItem 0 cs) name
     = Return (Some (before ++ Md.ListItem 0 cs :: after)))
  /\
  (forall flags,
     Md.readme_entries [Md.entry flags "beta"] (Md.entry 0 "alpha") "alpha"
     = Return (Some [Md.entry Md.ListItemBeginningOfList "alpha";
                     Md.entry 0 "beta"]))
  /\
  Md.readme_update (Sample.md_Parse [] (Md.newListItemText "alpha"))
    (Sample.readme ["beta"]) "alpha"
  = Return (Some (Md.readme_doc [Md.entry Md.ListItemBeginningOfList "alpha";
                                 Md.entry 0 "beta"])).
Proof.
  split; [|split; [|split; [|split]]].
  - intros f0 c0 rest cs name Hl Hk out. split.
    + by apply readme_entries_before.
    + intros Hrest [|[|i]] e; simpl.
      * intros [= <-]. rewrite holds_flags. by split.
      * intros [= <-]. rewrite holds_flags. by split.
      * intros He. rewrite Forall_forall in Hrest. split; [|done].
        intros Hh. destruct (Hrest e); [|done].
        by eapply list_elem_of_lookup_2.
  - intros entries cs name Hl Hk.
    destruct (list_snoc_cases entries) as [->|(front & last & ->)].
    + eexists. split; [apply readme_entries_after_nil|].
      split; [done|]. split; [done|]. split; [simpl; lia|].
      intros _ [|i] e; simpl; [|done].
      intros [= <-]. rewrite holds_flags. by split.
    + pose proof Hl as Hl'. apply Forall_app in Hl' as [_ Hlast].
      apply Forall_singleton in Hlast as [(fl & cl & ->) _].
      eexists. split; [by apply readme_entries_after|].
      rewrite !length_app. simpl.
      split; [by rewrite lookup_app_r by lia;
              replace (length front + 1 - length front) with 1 by lia|].
      split; [lia|]. split.
      * intros i Hi. rewrite !lookup_app_l by lia. done.
      * intros Hsole i e He.
        destruct (decide (i < length front)) as [Hlt|Hge].
        -- rewrite lookup_app_l in He by done. split; [|lia].
           intros Hh. specialize (Hsole i e).
           rewrite lookup_app_l in Hsole by done.
           specialize (Hsole He Hh). lia.
        -- rewrite lookup_app_r in He by lia.
           destruct (i - length front) as [|[|j]] eqn:Ej; simpl in He.
           ++ injection He as <-. rewrite holds_flags. split; [done|lia].
           ++ injection He as <-. rewrite holds_flags. split; [lia|done].
           ++ done.
  - intros. by apply readme_entries_between.
  - intros flags. reflexivity.
  - reflexivity.
Qed.

(** "alpha", "zeta" and "cat" into the list of "beta" and "delta" *)
Lemma readme_markers_witness :
  Md.readme_entries (Sample.readme_items true ["beta"; "delta"])
    (Md.entry 0 "alpha") "alpha"
  = Return (Some [Md.entry Md.ListItemBeginningOfList "alpha";
                  Md.entry 0 "beta"; Md.entry Md.ListItemEndOfList "delta"])
  /\
  (exists out,
     Md.readme_entries (Sample.readme_items true ["beta"; "delta"])
       (Md.entry 0 "zeta") "zeta" = Return (Some out) /\
     out !! 2 = Some (Md.entry Md.ListItemEndOfList "zeta") /\
     forall i e, out !! i = Some e ->
                 (Md.holds Md.ListItemEndOfList e <-> i = 2))
  /\
  Md.readme_entries (Sample.readme_items true ["beta"; "delta"])
    (Md.entry 0 "cat") "cat"
  = Return (Some [Md.entry Md.ListItemBeginningOfList "beta";
                  Md.entry 0 "cat"; Md.entry Md.ListItemEndOfList "delta"]).
Proof.
  destruct readme_markers as (Hfirst & Hlast & Hmid & _).
  assert (Hl : Forall Md.listed (Sample.readme_items true ["beta"; "delta"]))
    by apply readme_items_listed.
  split; [|split].
  - refine (proj1 (Hfirst _ _ [Md.entry Md.ListItemEndOfList "delta"] _
                     "alpha" Hl _)).
    apply (bool_decide_unpack _). by vm_compute.
  - destruct (Hlast (Sample.readme_items true ["beta"; "delta"])
                [Md.Container Md.Paragraph
                   [Md.Leaf Md.Text "";
                    Md.Container (Md.Link "/zeta") [Md.Leaf Md.Text "zeta"]]]
                "zeta" Hl) as (out & Hout & Hnew & _ & _ & Hsole).
    { apply (bool_decide_unpack _). by vm_compute. }
    exists out. split; [exact Hout|]. split; [exact Hnew|].
    apply Hsole. intros [|[|i]] e; simpl; try done.
    intros [= <-] Hh. apply holds_flags in Hh. by vm_compute in Hh.
  - refine (Hmid [Md.entry Md.ListItemBeginningOfList "beta"]
              [Md.entry Md.ListItemEndOfList "delta"] _ "cat" _ _ Hl _ _);
      try done; apply (bool_decide_unpack _); by vm_compute.
Defined.

(** ** Termination and totality *)

(** C6: the search for html, body, div, ul does not end on a parsed document
    that lacks the path.  In the document of the text [<p>hello</p>] the body
    has no [div] child: no iteration of the loop changes its state, so for
    every number of iterations [index] is still in the loop; it neither
    inserts nor returns an error. *)
Theorem index_search_does_not_end (fuel : nat) (name : string) :
  let document := Html.page [Html.elem "p" [Html.text "hello"]] in
  Html.index_update fuel document name = Spin /\
  Html.index (Sample.html_Parse [document]) Sample.html_Render fuel name
    (Sample.one_file Html.indexFile (Sample.html_text document) None)
  = Spin.
Proof.
  intros document.
  assert (H : Html.index_update fuel document name = Spin).
  { unfold Html.index_update.
    destruct fuel as [|[|fuel]]; try reflexivity.
    cbn [Html.locate Html.elementPath]. simpl Html.find_child.
    cbv beta iota. simpl Html.find_child. cbv beta iota.
    by rewrite locate_stuck. }
  split; [exact H|].
  unfold Html.index.
  replace (OS.ReadFile Html.indexFile _) with (Ok (Sample.html_text document))
    by (by vm_compute).
  replace (Sample.html_Parse [document] (Sample.html_text document))
    with (Ok document) by (by vm_compute).
  by rewrite H.
Qed.

Lemma item_shape_listed entry : Md.item_shape entry -> Md.listed entry.
Proof.
  intros (flags & block & blocks & first & dest & literal & inlines & rest
          & -> & Hb).
  split; [by eexists _, _|]. exists literal.
  unfold Md.key, Md.content, Md.child. simpl. by rewrite Hb.
Qed.

Lemma splice_total entries f cs i :
  Forall Md.listed entries ->
  i <= length entries ->
  exists out, Md.splice entries (Md.ListItem f cs) i = Return out.
Proof.
  intros Hl Hi. destruct (decide (i < length entries)) as [Hlt|Hge].
  - destruct (decide (i = 0)) as [->|Hne].
    + destruct Hl as [|e rest [(f0 & c0 & ->) _] _]; [simpl in Hlt; lia|].
      rewrite splice_prepend. by eexists.
    + rewrite splice_middle by lia. by eexists.
  - destruct (list_snoc_cases entries) as [->|(front & last & ->)].
    + rewrite splice_append_nil. by eexists.
    + apply Forall_app in Hl as [_ Hlast].
      apply Forall_singleton in Hlast as [(fl & cl & ->) _].
      rewrite splice_append by lia. by eexists.
Qed.

Lemma readme_entries_total entries f cs name :
  Forall Md.listed entries ->
  exists r, Md.readme_entries entries (Md.ListItem f cs) name = Return r.
Proof.
  intros Hl. unfold Md.readme_entries. rewrite (scan_place_of _ _ Hl). simpl.
  pose proof (place_of_spec (Md.keys entries) name) as Hspec.
  destruct (Md.place_of (Md.keys entries) name) as [|i]; [by eexists|].
  destruct Hspec as (Hi & _). rewrite (md_keys_length _ Hl) in Hi.
  destruct (splice_total entries f cs i Hl Hi) as [out ->]. by eexists.
Qed.

Lemma list_children_fuel fuel fuel' document children :
  Html.list_children fuel document = Return children ->
  length Html.elementPath <= fuel' ->
  Html.list_children fuel' document = Return children.
Proof.
  intros (p & ul & Hp & Hg & <-)%list_children_inv Hle.
  unfold Html.list_children.
  by rewrite (locate_fuel _ _ _ _ _ Hp Hle); simpl; rewrite Hg.
Qed.

(** C10: when the element children of the located [<ul>] are [<li>] nodes
    whose first child is an anchor whose first child is a text node, [index]
    returns, and four iterations of its search loop are enough: it reads no
    nil pointer.  When the README document has at least
    two top-level blocks, the second a list whose items each have a first
    child that is a container whose second child is a link with a leaf text
    node first (and the parsed text of the new item is a list with a list
    item), [readme] returns: it reads no nil pointer, indexes no slice out of
    range and fails no type assertion. *)
Theorem index_readme_total :
  (forall fuel0 document name children,
     Html.list_children fuel0 document = Return children ->
     Html.list_shape children ->
     forall fuel, 4 <= fuel ->
     exists r, Html.index_update fuel document name = Return r)
  /\
  (forall newListItemList document name,
     Md.item_list_shape newListItemList ->
     Md.readme_shape document ->
     exists r, Md.readme_update newListItemList document name = Return r).
Proof.
  split.
  - intros fuel0 document name children Hc0 Hs fuel Hfuel.
    pose proof (list_children_fuel _ fuel _ _ Hc0 Hfuel) as Hc.
    destruct (list_children_inv _ _ _ Hc) as (p & ul & Hp & Hg & <-).
    rewrite (index_update_located _ _ name _ _ Hp Hg).
    destruct (add_item_total _ name (list_shape_linked _ Hs)) as [r ->].
    by eexists.
  - intros newListItemList document name
      (list0 & blocks0 & flags & children & items & Hn & Hl0)
      (first & entries & rest & Hd & Hall).
    assert (Hnew : Md.new_item newListItemList
                   = Return (Md.ListItem 0 children)).
    { unfold Md.new_item, Md.child. rewrite Hn. simpl. by rewrite Hl0. }
    erewrite (readme_update_located _ _ _ _ _ entries name Hnew Hd);
      [|done|done].
    destruct (readme_entries_total entries 0 children name) as [r ->].
    { eapply Forall_impl; [exact Hall|]. apply item_shape_listed. }
    by eexists.
Qed.

(** The sample page and the sample README *)
Lemma index_readme_total_witness :
  (exists r, Html.index_update 7 (Sample.site ["beta"; "delta"]) "cat"
             = Return r) /\
  (exists r, Md.readme_update (Sample.md_Parse [] (Md.newListItemText "cat"))
               (Sample.readme ["beta"; "delta"]) "cat" = Return r).
Proof.
  destruct index_readme_total as [Hindex Hreadme]. split.
  - apply (Hindex 4 _ "cat" (Sample.site_items ["beta"; "delta"]));
      [reflexivity| |lia].
    unfold Html.list_shape, Sample.site_items. simpl.
    repeat (constructor; [first [ done | intros _; split; [done|];
                                  eexists _, _; by repeat split ]|]).
    constructor.
  - apply Hreadme.
    + by eexists _, _, _, _, _.
    + eexists _, _, _. split; [reflexivity|].
      repeat (constructor; [by eexists _, _, _, _, _, _, _, _|]).
      constructor.
Defined.

(** ** The three updaters on the file system *)

Section UpdaterFacts.

Variable html_Parse : string -> res Html.Node.
Variable html_Render : Html.Node -> res string.
Variable md_Parse : string -> Md.Node.
Variable md_Render : Md.Node -> string.
Variable Unmarshal : string -> res (list string).
Variable quote : string -> string.

Let index := Html.index html_Parse html_Render.
Let readme := Md.readme md_Parse md_Render.
Let record := Manifest.record Unmarshal quote.

(** How a returning [index] got there *)
Lemma index_inv fuel name w e w' :
  index fuel name w = Return (e, w') ->
  (w' = w /\ (e = None ->
     exists data document,
       OS.ReadFile Html.indexFile w = Ok data /\
       html_Parse data = Ok document /\
       Html.index_update fuel document name = Return None)) \/
  (exists data document document' buf,
     OS.ReadFile Html.indexFile w = Ok data /\
     html_Parse data = Ok document /\
     Html.index_update fuel document name = Return (Some document') /\
     html_Render document' = Ok buf /\
     OS.WriteFile Html.indexFile buf w = (e, w')).
Proof.
  unfold index, Html.index.
  destruct (OS.ReadFile Html.indexFile w) as [data|err] eqn:Hr;
    [|intros [= <- <-]; by left].
  destruct (html_Parse data) as [document|err] eqn:Hp;
    [|intros [= <- <-]; by left].
  destruct (Html.index_update fuel document name) as [[document'|]| |] eqn:Hu;
    simpl; try done.
  - destruct (html_Render document') as [buf|err] eqn:Hb;
      [|intros [= <- <-]; by left].
    intros [= H]. right. by exists data, document, document', buf.
  - intros [= <- <-]. left. split; [done|]. intros _. by exists data, document.
Qed.

Lemma readme_inv name w e w' :
  readme name w = Return (e, w') ->
  (w' = w /\ (e = None ->
     exists data,
       OS.ReadFile Md.readmeFile w = Ok data /\
       Md.readme_update (md_Parse (Md.newListItemText name)) (md_Parse data)
         name = Return None)) \/
  (exists data document',
     OS.ReadFile Md.readmeFile w = Ok data /\
     Md.readme_update (md_Parse (Md.newListItemText name)) (md_Parse data)
       name = Return (Some document') /\
     OS.WriteFile Md.readmeFile (md_Render document') w = (e, w')).
Proof.
  unfold readme, Md.readme.
  destruct (OS.ReadFile Md.readmeFile w) as [data|err] eqn:Hr;
    [|intros [= <- <-]; by left].
  destruct (Md.readme_update _ (md_Parse data) name) as [[document'|]| |]
    eqn:Hu; simpl; try done.
  - intros [= H]. right. by exists data, document'.
  - intros [= <- <-]. left. split; [done|]. intros _. by exists data.
Qed.

Lemma record_inv name w e w' :
  record name w = (e, w') ->
  (w' = w /\ (e = None ->
     exists data repositories,
       OS.ReadFile Manifest.repositoryFile w = Ok data /\
       Unmarshal data = Ok repositories /\
       Manifest.record_update repositories name = None)) \/
  (exists data repositories repositories' data',
     OS.ReadFile Manifest.repositoryFile w = Ok data /\
     Unmarshal data = Ok repositories /\
     Manifest.record_update repositories name = Some repositories' /\
     Manifest.MarshalIndent quote repositories' "" "  " = Ok data' /\
     OS.WriteFile Manifest.repositoryFile data' w = (e, w')).
Proof.
  unfold record, Manifest.record.
  destruct (OS.ReadFile Manifest.repositoryFile w) as [data|err] eqn:Hr;
    [|intros [= <- <-]; by left].
  destruct (Unmarshal data) as [repositories|err] eqn:Hd;
    [|intros [= <- <-]; by left].
  destruct (Manifest.record_update repositories name) as [repositories'|]
    eqn:Hu.
  - destruct (Manifest.MarshalIndent quote repositories' "" "  ")
      as [data'|err] eqn:Hm; [|intros [= <- <-]; by left].
    intros H. right. by exists data, repositories, repositories', data'.
  - intros [= <- <-]. left. split; [done|]. intros _.
    by exists data, repositories.
Qed.

Lemma WriteFile_error name data w e w' :
  OS.WriteFile name data w = (Some e, w') -> OS.fsize w <> None.
Proof.
  unfold OS.WriteFile. destruct (OS.fsize w); [done|]. by intros [= ].
Qed.

(** C8, amended: each updater calls [os.WriteFile] on its backing file at
    most once, as its last step, and returns what that call returns.  So the
    file system is as before whenever the updater returns an error from an
    earlier step (reading, parsing or decoding, rendering or encoding), and
    whenever it returns any error in a world where a write cannot fail
    part-way.  An error of the write itself leaves what the failed
    [os.WriteFile] left. *)
Theorem updaters_write_last (fuel : nat) (name : string) (w : OS.World) :
  (forall e w', index fuel name w = Return (e, w') ->
     (w' = w \/ exists buf, OS.WriteFile Html.indexFile buf w = (e, w')) /\
     (is_Some e -> OS.fsize w = None -> w' = w)) /\
  (forall e w', readme name w = Return (e, w') ->
     (w' = w \/ exists buf, OS.WriteFile Md.readmeFile buf w = (e, w')) /\
     (is_Some e -> OS.fsize w = None -> w' = w)) /\
  (forall e w', record name w = (e, w') ->
     (w' = w \/
      exists buf, OS.WriteFile Manifest.repositoryFile buf w = (e, w')) /\
     (is_Some e -> OS.fsize w = None -> w' = w)).
Proof.
  split; [|split]; intros e w' H.
  - apply index_inv in H as [[-> _]|(data & d & d' & buf & _ & _ & _ & _ & H)].
    + split; [by left | done].
    + split; [right; by exists buf|].
      intros [err ->] Hf. by apply WriteFile_error in H.
  - apply readme_inv in H as [[-> _]|(data & d' & _ & _ & H)].
    + split; [by left | done].
    + split; [right; by eexists|].
      intros [err ->] Hf. by apply WriteFile_error in H.
  - apply record_inv in H as [[-> _]|(data & l & l' & buf & _ & _ & _ & _ & H)].
    + split; [by left | done].
    + split; [right; by exists buf|].
      intros [err ->] Hf. by apply WriteFile_error in H.
Qed.

End UpdaterFacts.

(** C8, as stated, fails: with a file size limit of four bytes, [record] of
    "beta" into the manifest ["alpha"] returns the error of the write, and
    the manifest is left holding the first four bytes of the new text. *)
Lemma record_error_changes_file :
  let w := Sample.one_file Manifest.repositoryFile (Sample.json ["alpha"])
             (Some 4) in
  let r := Manifest.record Sample.Unmarshal Sample.quote "beta" w in
  r.1 = Some "write repository.json: file too large" /\
  OS.files w !! Manifest.repositoryFile = Some (Sample.json ["alpha"]) /\
  OS.files r.2 !! Manifest.repositoryFile = Some ("[" +:+ nl +:+ "  ") /\
  OS.files r.2 !! Manifest.repositoryFile
  <> OS.files w !! Manifest.repositoryFile.
Proof. repeat split; by vm_compute. Qed.

(** ** The driver *)

Section DriverFacts.

Variable Template : Type.
Variable Join : string -> string -> string.
Variable MkdirAll : string -> OS.World -> option error * OS.World.
Variable Glob : string -> string -> OS.World -> res (list string).
Variable ParseFiles : string -> string -> OS.World -> res Template.
Variable OpenFile : string -> OS.World -> option error * OS.World.
Variable Execute :
  Template -> string -> string -> OS.World -> option error * OS.World.
Variable html_Parse : string -> res Html.Node.
Variable html_Render : Html.Node -> res string.
Variable md_Parse : string -> Md.Node.
Variable md_Render : Md.Node -> string.
Variable Unmarshal : string -> res (list string).
Variable quote : string -> string.

Let instance :=
  Driver.instance Template Join MkdirAll Glob ParseFiles OpenFile Execute.
Let index := Html.index html_Parse html_Render.
Let readme := Md.readme md_Parse md_Render.
Let record := Manifest.record Unmarshal quote.
Let main :=
  Driver.main Template Join MkdirAll Glob ParseFiles OpenFile Execute
    html_Parse html_Render md_Parse md_Render Unmarshal quote.


(** C9: with no name on the command line ([os.Args] holds the program name
    alone), [main] prints the usage message and exits with code 1; it calls
    none of the four steps and the file system is as before. *)
Theorem main_without_name (fuel : nat) (prog : string) (w : OS.World) :
  let out := main fuel [prog] w in
  Driver.status out = Return 1 /\
  Driver.stdout out = "repository: missing repository name argument" +:+ nl /\
  Driver.steps out = [] /\
  Driver.world out = w.
Proof. by repeat split. Qed.

(** C7: [main] calls [instance], [index], [readme] and [record] in that
    order.  At the first step that returns an error it prints the error and
    exits with code 1: no later step is called, and the file system is the
    one that the failing step left, with the effects of the steps before it.
    When all four return [nil] it exits with code 0. *)
Theorem main_stops_at_first_error
    (fuel : nat) (prog name : string) (rest : list string) (w : OS.World) :
  let out := main fuel (prog :: name :: rest) w in
  (forall err w1,
     instance name w = (Some err, w1) ->
     out = Driver.Fatal err w1 [Driver.StepInstance]) /\
  (forall w1 err w2,
     instance name w = (None, w1) ->
     index fuel name w1 = Return (Some err, w2) ->
     out = Driver.Fatal err w2 [Driver.StepInstance; Driver.StepIndex]) /\
  (forall w1 w2 err w3,
     instance name w = (None, w1) ->
     index fuel name w1 = Return (None, w2) ->
     readme name w2 = Return (Some err, w3) ->
     out = Driver.Fatal err w3
             [Driver.StepInstance; Driver.StepIndex; Driver.StepReadme]) /\
  (forall w1 w2 w3 err w4,
     instance name w = (None, w1) ->
     index fuel name w1 = Return (None, w2) ->
     readme name w2 = Return (None, w3) ->
     record name w3 = (Some err, w4) ->
     out = Driver.Fatal err w4
             [Driver.StepInstance; Driver.StepIndex; Driver.StepReadme;
              Driver.StepRecord]) /\
  (forall w1 w2 w3 w4,
     instance name w = (None, w1) ->
     index fuel name w1 = Return (None, w2) ->
     readme name w2 = Return (None, w3) ->
     record name w3 = (None, w4) ->
     out = {| Driver.status := Return 0; Driver.world := w4;
              Driver.stdout := "";
              Driver.steps := [Driver.StepInstance; Driver.StepIndex;
                               Driver.StepReadme; Driver.StepRecord] |}) /\
  (forall err w' called,
     Driver.status (Driver.Fatal err w' called) = Return 1 /\
     Driver.world (Driver.Fatal err w' called) = w' /\
     Driver.steps (Driver.Fatal err w' called) = called /\
     Driver.stdout (Driver.Fatal err w' called)
     = "repository: " +:+ err +:+ nl).
Proof.
  intros out. subst out main instance index readme record.
  unfold Driver.main, Driver.index, Driver.readme, Driver.record.
  change (length (prog :: name :: rest) =? 1)%nat with false.
  change ((prog :: name :: rest) !! 1) with (Some name). cbv iota.
  repeat split.
  - by intros err w1 ->.
  - by intros w1 err w2 -> ->.
  - by intros w1 w2 err w3 -> -> ->.
  - by intros w1 w2 w3 err w4 -> -> -> ->.
  - by intros w1 w2 w3 w4 -> -> -> ->.
Qed.

(** ** Running the program twice *)


Lemma ReadFile_written name data w w' :
  OS.WriteFile name data w = (None, w') -> OS.ReadFile name w' = Ok data.
Proof.
  intros ->%WriteFile_ok. unfold OS.ReadFile. by rewrite files_set_file_eq.
Qed.

Lemma index_other fuel name w e w' f :
  index fuel name w = Return (e, w') -> f <> Html.indexFile ->
  OS.files w' !! f = OS.files w !! f.
Proof.
  intros [[-> _]|(? & ? & ? & buf & _ & _ & _ & _ & H)]%index_inv Hf; [done|].
  by eapply WriteFile_other.
Qed.

Lemma readme_other name w e w' f :
  readme name w = Return (e, w') -> f <> Md.readmeFile ->
  OS.files w' !! f = OS.files w !! f.
Proof.
  intros [[-> _]|(? & ? & _ & _ & H)]%readme_inv Hf; [done|].
  by eapply WriteFile_other.
Qed.

Lemma record_other name w e w' f :
  record name w = (e, w') -> f <> Manifest.repositoryFile ->
  OS.files w' !! f = OS.files w !! f.
Proof.
  intros [[-> _]|(? & ? & ? & buf & _ & _ & _ & _ & H)]%record_inv Hf; [done|].
  by eapply WriteFile_other.
Qed.







End DriverFacts.


(** The sample site without its README: [readme] fails after [instance] and
    [index] have written their files. *)
Lemma main_stops_at_first_error_witness :
  let out := Sample.main 4 ["repository"; "alpha"] Sample.world_no_readme in
  Driver.status out = Return 1 /\
  Driver.steps out
  = [Driver.StepInstance; Driver.StepIndex; Driver.StepReadme] /\
  Driver.stdout out
  = "repository: open README.md: no such file or directory" +:+ nl /\
  OS.files (Driver.world out) !! "alpha/about.txt" = Some "About alpha" /\
  OS.files (Driver.world out) !! Html.indexFile
  = Some (Sample.html_text (Sample.site ["alpha"; "beta"])) /\
  OS.files (Driver.world out) !! Manifest.repositoryFile
  = Some (Sample.json ["beta"]).
Proof.
  intros out.
  pose (w1 := (Sample.instance "alpha" Sample.world_no_readme).2).
  pose (w2 := match Html.index (Sample.html_Parse Sample.html_docs)
                      Sample.html_Render 4 "alpha" w1 with
              | Return r => r.2
              | _ => w1
              end).
  destruct (main_stops_at_first_error string Sample.Join Sample.MkdirAll
              Sample.Glob Sample.ParseFiles Sample.OpenFile Sample.Execute
              (Sample.html_Parse Sample.html_docs) Sample.html_Render
              (Sample.md_Parse Sample.md_docs) Sample.md_Render
              Sample.Unmarshal Sample.quote
              4 "repository" "alpha" [] Sample.world_no_readme)
    as (_ & _ & H & _).
  assert (Hout : out = Driver.Fatal "open README.md: no such file or directory"
                         w2 [Driver.StepInstance; Driver.StepIndex;
                             Driver.StepReadme]).
  { apply (H w1 w2); by vm_compute. }
  rewrite Hout. repeat split; by vm_compute.
Defined.

(** * Further properties of the code *)

(** ** The search loop of [index] *)

Lemma locate_no_panic fuel element parts :
  Html.locate fuel element parts <> Panic.
Proof.
  revert element parts.
  induction fuel as [|fuel IH]; intros element [|tag rest]; simpl; try done.
  destruct (Html.find_child _ tag) as [[i c]|]; [|apply IH].
  specialize (IH c rest).
  by destruct (Html.locate fuel c rest).
Qed.

Lemma locate_decided fuel element parts :
  length parts <= fuel ->
  Html.locate fuel element parts = Html.locate (length parts) element parts.
Proof.
  intros Hle.
  destruct (Html.locate (length parts) element parts) as [p| |] eqn:E.
  - by apply (locate_fuel (length parts)).
  - by apply locate_no_panic in E.
  - destruct (Html.locate fuel element parts) as [p| |] eqn:E'; [| |done].
    + apply (locate_fuel _ (length parts)) in E'; [congruence | done].
    + by apply locate_no_panic in E'.
Qed.

(** X1: four iterations of the search loop decide what [index] does: with
    any larger number of iterations the outcome is the one reached with
    four.  A search that has not found the list after four iterations never
    finds it. *)
Theorem index_four_iterations_decide
    (fuel : nat) (document : Html.Node) (name : string) :
  4 <= fuel ->
  Html.index_update fuel document name = Html.index_update 4 document name /\
  (Html.index_update 4 document name = Spin ->
   forall fuel', Html.index_update fuel' document name = Spin).
Proof.
  intros Hle.
  assert (Hsame : forall f, 4 <= f ->
            Html.index_update f document name
            = Html.index_update 4 document name).
  { intros f Hf. unfold Html.index_update.
    by rewrite (locate_decided f document Html.elementPath Hf). }
  split; [by apply Hsame|].
  intros Hspin fuel'.
  destruct (decide (4 <= fuel')) as [H|H]; [by rewrite Hsame|].
  unfold Html.index_update in *.
  destruct (Html.locate fuel' document Html.elementPath) as [p| |] eqn:E;
    [| by apply locate_no_panic in E | done].
  apply (locate_fuel _ 4) in E; [|done]. rewrite E in Hspin. simpl in Hspin.
  destruct (locate_get _ _ _ _ E) as [ul Hul]. rewrite Hul in Hspin.
  simpl in Hspin. exfalso.
  assert (Hscan : forall cs, Html.scan cs name <> Spin).
  { induction cs as [|c cs IHc]; simpl; [done|].
    destruct (bool_decide _).
    - destruct (Html.anchor_text c) as [k| |] eqn:Ek; simpl; try done.
      + destruct (String.leb name k); [done|].
        by destruct (Html.scan cs name).
      + unfold Html.anchor_text in Ek.
        destruct (Html.FirstChild c) as [a|]; simpl in Ek; [|done].
        by destruct (Html.FirstChild a).
    - by destruct (Html.scan cs name). }
  unfold Html.add_item in Hspin.
  destruct (Html.scan (Html.Children ul) name) as [[i|]| |] eqn:Es;
    simpl in Hspin; try done.
  - destruct (Html.Children ul !! i) as [c|]; simpl in Hspin; [|done].
    destruct (Html.anchor_text c) as [k| |] eqn:Ek; simpl in Hspin; try done.
    + by destruct (String.eqb k name).
    + unfold Html.anchor_text in Ek.
      destruct (Html.FirstChild c) as [a|]; simpl in Ek; [|done].
      by destruct (Html.FirstChild a).
  - by apply Hscan in Es.
Qed.

(** The sample page, with nine iterations allowed *)
Lemma index_four_iterations_decide_witness :
  Html.index_update 9 (Sample.site ["beta"; "delta"]) "cat"
  = Html.index_update 4 (Sample.site ["beta"; "delta"]) "cat".
Proof.
  refine (proj1 (index_four_iterations_decide 9
                   (Sample.site ["beta"; "delta"]) "cat" _)).
  lia.
Defined.

Lemma find_child_app_skip before child after tag :
  Forall (fun c => Html.is_element tag c = false) before ->
  Html.is_element tag child = true ->
  Html.find_child (before ++ child :: after) tag
  = Some (length before, child).
Proof.
  induction 1 as [|c before Hc _ IH]; intros Hchild; simpl.
  - by rewrite Hchild.
  - by rewrite Hc, IH.
Qed.

(** X2: the search descends into the first [div] of the body and never comes
    back: when that [div] has no [ul] child, [index] stays in its search
    loop for ever, whatever follows the [div] in the body, be it another
    [div] that holds the list. *)
Theorem index_takes_the_first_div
    (before after inside : list Html.Node) (attrs : list (string * string))
    (name : string) :
  Forall (fun c => Html.is_element "div" c = false) before ->
  Html.find_child inside "ul" = None ->
  forall fuel,
    Html.index_update fuel
      (Html.page (before ++
                  {| Html.Type_ := Html.ElementNode; Html.Data := "div";
                     Html.Attr := attrs; Html.Children := inside |} :: after))
      name = Spin.
Proof.
  intros Hb Hin fuel. unfold Html.index_update.
  destruct fuel as [|[|[|fuel]]]; try reflexivity.
  cbn [Html.locate Html.elementPath]. simpl Html.find_child. cbv beta iota.
  simpl Html.find_child. cbv beta iota.
  cbn [Html.Children Html.elem].
  rewrite find_child_app_skip by done.
  by rewrite (locate_stuck fuel
                {| Html.Type_ := Html.ElementNode; Html.Data := "div";
                   Html.Attr := attrs; Html.Children := inside |}
                "ul" [] Hin).
Qed.

(** A first [div] with a heading only, then a [div] with the list *)
Lemma index_takes_the_first_div_witness :
  Html.index_update 50
    (Html.page
       ([Html.text "intro"] ++
        {| Html.Type_ := Html.ElementNode; Html.Data := "div";
           Html.Attr := [("class", "banner")];
           Html.Children := [Html.elem "h1" [Html.text "Welcome"]] |}
        :: [Html.elem "div" [Html.elem "ul" [Html.item "beta"]]]))
    "alpha" = Spin.
Proof.
  apply index_takes_the_first_div.
  - by repeat constructor.
  - reflexivity.
Defined.

Lemma locate_last fuel element parts p :
  Html.locate fuel element parts = Return p ->
  length p = length parts /\
  forall tag front, parts = front ++ [tag] ->
    exists n, Html.get p element = Some n /\ Html.is_element tag n = true.
Proof.
  revert element parts p.
  induction fuel as [|fuel IH]; intros element [|tag rest] p; simpl; try done.
  - intros [= <-]. split; [done|]. intros t front H. by destruct front.
  - intros [= <-]. split; [done|]. intros t front H. by destruct front.
  - destruct (Html.find_child _ tag) as [[i c]|] eqn:E;
      [|by rewrite locate_stuck].
    destruct (Html.locate fuel c rest) as [p'| |] eqn:E'; simpl; try done.
    intros [= <-]. destruct (IH _ _ _ E') as [Hlen Hlast].
    apply find_child_Some in E as [Hi Hel].
    split; [simpl; by rewrite Hlen|].
    intros t front Hfront. simpl. rewrite Hi.
    destruct front as [|t0 front]; simpl in Hfront.
    + injection Hfront as <- ->. destruct p'; [|done]. by exists c.
    + injection Hfront as <- ->. by apply (Hlast t front).
Qed.

(** X3: the node whose children [index] edits is an element called [ul],
    four levels below the document node; below it, after the edit, the same
    search finds the same node again. *)
Theorem index_edits_a_ul
    (fuel : nat) (document document' : Html.Node) (name : string) :
  Html.index_update fuel document name = Return (Some document') ->
  exists p ul children',
    Html.locate fuel document Html.elementPath = Return p /\
    length p = 4 /\
    Html.get p document = Some ul /\
    Html.Type_ ul = Html.ElementNode /\ Html.Data ul = "ul" /\
    Html.add_item (Html.Children ul) name = Return (Some children') /\
    document' = Html.update p (Html.set_children children') document /\
    Html.locate fuel document' Html.elementPath = Return p /\
    Html.get p document' = Some (Html.set_children children' ul).
Proof.
  unfold Html.index_update.
  destruct (Html.locate fuel document Html.elementPath) as [p| |] eqn:Hp;
    simpl; try done.
  destruct (Html.get p document) as [ul|] eqn:Hg; simpl; [|done].
  destruct (Html.add_item (Html.Children ul) name) as [[children'|]| |] eqn:Ha;
    simpl; try done.
  intros [= <-]. exists p, ul, children'.
  destruct (locate_last _ _ _ _ Hp) as [Hlen Hlast].
  destruct (Hlast "ul" ["html"; "body"; "div"] eq_refl) as (n & Hn & Hel).
  rewrite Hg in Hn. injection Hn as <-.
  unfold Html.is_element in Hel. apply andb_prop in Hel as [Ht Hd].
  apply bool_decide_eq_true in Ht. apply str_eqb_eq in Hd.
  repeat split; try done.
  - by apply locate_update.
  - by apply get_update.
Qed.

(** "cat" into the sample page *)
Lemma index_edits_a_ul_witness :
  exists p ul children',
    Html.locate 4 (Sample.site ["beta"; "delta"]) Html.elementPath
    = Return p /\
    length p = 4 /\
    Html.get p (Sample.site ["beta"; "delta"]) = Some ul /\
    Html.Type_ ul = Html.ElementNode /\ Html.Data ul = "ul" /\
    Html.add_item (Html.Children ul) "cat" = Return (Some children') /\
    Sample.site ["beta"; "cat"; "delta"]
    = Html.update p (Html.set_children children')
        (Sample.site ["beta"; "delta"]) /\
    Html.locate 4 (Sample.site ["beta"; "cat"; "delta"]) Html.elementPath
    = Return p /\
    Html.get p (Sample.site ["beta"; "cat"; "delta"])
    = Some (Html.set_children children' ul).
Proof.
  apply (index_edits_a_ul 4 (Sample.site ["beta"; "delta"])
           (Sample.site ["beta"; "cat"; "delta"]) "cat").
  reflexivity.
Defined.

(** ** Where [index] puts the item *)

Lemma html_keys_app l1 l2 :
  Html.keys (l1 ++ l2) = Html.keys l1 ++ Html.keys l2.
Proof. unfold Html.keys. by rewrite List.filter_app, omap_app. Qed.

(** X4: when [index] adds the item, the children of the list keep their
    order and none is dropped: the new [<li>] and the text node after it go,
    side by side, in front of the first element child whose anchor text is
    above the name, or at the end when there is none.  Every element child
    before them has an anchor text below the name.  This holds for any list,
    sorted or not. *)
Theorem index_inserts_in_place
    (children children' : list Html.Node) (name : string) :
  Html.add_item children name = Return (Some children') ->
  exists before after,
    children = before ++ after /\
    children' = before ++ Html.newChildren name ++ after /\
    Html.linked before /\
    Forall (fun k => Str.lt k name) (Html.keys before) /\
    Html.keys children' = Html.keys before ++ name :: Html.keys after /\
    match after with
    | [] => True
    | child :: _ =>
        Html.Type_ child = Html.ElementNode /\
        exists k, Html.anchor_text child = Return k /\ Str.lt name k
    end.
Proof.
  revert children'. induction children as [|child siblings IH]; intros children'.
  - intros [= <-]. exists [], []. repeat split; try done; by constructor.
  - assert (Hrest : forall keep,
      Html.linked [child] -> Forall (fun k => Str.lt k name) (Html.keys [child]) ->
      keep = Html.add_rest child (Html.add_item siblings name) ->
      keep = Return (Some children') ->
      exists before after,
        child :: siblings = before ++ after /\
        children' = before ++ Html.newChildren name ++ after /\
        Html.linked before /\
        Forall (fun k => Str.lt k name) (Html.keys before) /\
        Html.keys children' = Html.keys before ++ name :: Html.keys after /\
        match after with
        | [] => True
        | c :: _ =>
            Html.Type_ c = Html.ElementNode /\
            exists k, Html.anchor_text c = Return k /\ Str.lt name k
        end).
    { intros keep Hl Hk -> (cs & Hr & ->)%add_rest_Some.
      destruct (IH _ Hr) as (before & after & -> & -> & Hlb & Hkb & Hkeys & Ha).
      exists (child :: before), after.
      split; [done|]. split; [done|].
      split; [by apply (Forall_app _ [child] before)|].
      split; [change (child :: before) with ([child] ++ before);
              rewrite html_keys_app; by apply Forall_app|].
      split; [|done].
      change (child :: before ++ Html.newChildren name ++ after)
        with ([child] ++ (before ++ Html.newChildren name ++ after)).
      change (child :: before) with ([child] ++ before).
      rewrite (html_keys_app [child] (before ++ _)), Hkeys.
      by rewrite (html_keys_app [child] before), app_assoc. }
    destruct (type_dec child) as [He|Hne].
    + destruct (Html.key child) as [k|] eqn:Hk.
      * pose proof (proj1 (key_anchor_text _ _) Hk) as Ha.
        destruct (String.leb name k) eqn:Hle.
        -- rewrite (add_item_here _ _ _ k He Ha Hle).
           destruct (String.eqb k name) eqn:Heq; [done|]. intros [= <-].
           exists [], (child :: siblings).
           split; [done|]. split; [done|]. split; [constructor|].
           split; [constructor|]. split; [reflexivity|].
           split; [done|]. exists k. split; [done|].
           apply str_leb_le, str_le_lt_or_eq in Hle as [|Hle]; [done|].
           apply str_eqb_neq in Heq. congruence.
        -- rewrite (add_item_next _ _ _ k He Ha Hle).
           apply (Hrest _); [|rewrite (keys_entry _ _ k He Hk)|done].
           ++ apply linked_cons. split; [by eexists | constructor].
           ++ repeat constructor. by apply str_leb_gt.
      * by rewrite (add_item_panic _ _ _ He Hk).
    + rewrite (add_item_skip _ _ _ Hne).
      apply (Hrest _); [|rewrite (keys_skip _ _ Hne)|done].
      * apply linked_cons. split; [done | constructor].
      * constructor.
Qed.

(** "cat" into a list that is out of order and holds "cat" further down *)
Lemma index_inserts_in_place_witness :
  exists before after,
    [Html.item "beta"; Html.text "-"; Html.item "delta"; Html.item "cat"]
    = before ++ after /\
    [Html.item "beta"; Html.text "-"] ++ Html.newChildren "cat" ++
    [Html.item "delta"; Html.item "cat"]
    = before ++ Html.newChildren "cat" ++ after /\
    Html.linked before /\
    Forall (fun k => Str.lt k "cat") (Html.keys before) /\
    Html.keys ([Html.item "beta"; Html.text "-"] ++ Html.newChildren "cat" ++
               [Html.item "delta"; Html.item "cat"])
    = Html.keys before ++ "cat" :: Html.keys after /\
    match after with
    | [] => True
    | child :: _ =>
        Html.Type_ child = Html.ElementNode /\
        exists k, Html.anchor_text child = Return k /\ Str.lt "cat" k
    end.
Proof.
  apply (index_inserts_in_place
           [Html.item "beta"; Html.text "-"; Html.item "delta";
            Html.item "cat"]).
  reflexivity.
Defined.

(** X5: [index] returns without adding anything only at an element child
    whose anchor text is the name, when every element child before it has an
    anchor text below the name. *)
Theorem index_skips_only_at_the_name
    (children : list Html.Node) (name : string) :
  Html.add_item children name = Return None ->
  exists before child after,
    children = before ++ child :: after /\
    Html.Type_ child = Html.ElementNode /\
    Html.anchor_text child = Return name /\
    Html.linked before /\
    Forall (fun k => Str.lt k name) (Html.keys before).
Proof.
  induction children as [|child siblings IH]; [done|].
  assert (Hrest : Html.linked [child] ->
            Forall (fun k => Str.lt k name) (Html.keys [child]) ->
            Html.add_rest child (Html.add_item siblings name) = Return None ->
            exists before c after,
              child :: siblings = before ++ c :: after /\
              Html.Type_ c = Html.ElementNode /\
              Html.anchor_text c = Return name /\
              Html.linked before /\
              Forall (fun k => Str.lt k name) (Html.keys before)).
  { intros Hl Hk. unfold Html.add_rest.
    destruct (Html.add_item siblings name) as [[cs|]| |] eqn:E; simpl; try done.
    intros _. destruct (IH eq_refl) as (before & c & after & -> & Hc & Ha & Hlb & Hkb).
    exists (child :: before), c, after. repeat split; try done.
    - by apply (Forall_app _ [child] before).
    - change (child :: before) with ([child] ++ before).
      rewrite html_keys_app. by apply Forall_app. }
  destruct (type_dec child) as [He|Hne].
  - destruct (Html.key child) as [k|] eqn:Hk.
    + pose proof (proj1 (key_anchor_text _ _) Hk) as Ha.
      destruct (String.leb name k) eqn:Hle.
      * rewrite (add_item_here _ _ _ k He Ha Hle).
        destruct (String.eqb k name) eqn:Heq; [|done]. intros _.
        apply str_eqb_eq in Heq as ->.
        exists [], child, siblings. repeat split; try done; constructor.
      * rewrite (add_item_next _ _ _ k He Ha Hle).
        apply Hrest; [|rewrite (keys_entry _ _ k He Hk)].
        -- apply linked_cons. split; [by eexists | constructor].
        -- repeat constructor. by apply str_leb_gt.
    + by rewrite (add_item_panic _ _ _ He Hk).
  - rewrite (add_item_skip _ _ _ Hne).
    apply Hrest; [|rewrite (keys_skip _ _ Hne)].
    + apply linked_cons. split; [done | constructor].
    + constructor.
Qed.

(** "delta" in the list of "beta" and "delta" *)
Lemma index_skips_only_at_the_name_witness :
  exists before child after,
    Sample.site_items ["beta"; "delta"] = before ++ child :: after /\
    Html.Type_ child = Html.ElementNode /\
    Html.anchor_text child = Return "delta" /\
    Html.linked before /\
    Forall (fun k => Str.lt k "delta") (Html.keys before).
Proof.
  apply (index_skips_only_at_the_name (Sample.site_items ["beta"; "delta"])).
  reflexivity.
Defined.

Lemma add_item_key children children' name :
  Html.add_item children name = Return (Some children') ->
  name ∈ Html.keys children'.
Proof.
  revert children'. induction children as [|child siblings IH]; intros children'.
  - intros [= <-]. left.
  - assert (Hrest : Html.add_rest child (Html.add_item siblings name)
                    = Return (Some children') -> name ∈ Html.keys children').
    { intros (cs & Hr & ->)%add_rest_Some.
      change (child :: cs) with ([child] ++ cs).
      rewrite html_keys_app, elem_of_app. right. by apply IH. }
    destruct (type_dec child) as [He|Hne].
    + destruct (Html.key child) as [k|] eqn:Hk.
      * pose proof (proj1 (key_anchor_text _ _) Hk) as Ha.
        destruct (String.leb name k) eqn:Hle.
        -- rewrite (add_item_here _ _ _ k He Ha Hle).
           destruct (String.eqb k name); [done|]. intros [= <-].
           change (name ∈ name :: Html.keys (child :: siblings)). left.
        -- by rewrite (add_item_next _ _ _ k He Ha Hle).
      * by rewrite (add_item_panic _ _ _ He Hk).
    + by rewrite (add_item_skip _ _ _ Hne).
Qed.

(** X6: once [index] has added the item to a document, [index] on the
    resulting document finds the name among the anchor texts of the list and
    returns without adding anything.  No assumption is made on the order or
    on the shape of the rest of the list. *)
Theorem index_finds_what_it_added
    (fuel : nat) (document document' : Html.Node) (name : string) :
  Html.index_update fuel document name = Return (Some document') ->
  Html.index_update fuel document' name = Return None /\
  exists children',
    Html.list_children fuel document' = Return children' /\
    name ∈ Html.keys children'.
Proof.
  intros H. split; [by eapply index_update_again|].
  revert H. unfold Html.index_update.
  destruct (Html.locate fuel document Html.elementPath) as [p| |] eqn:Hp;
    simpl; try done.
  destruct (Html.get p document) as [ul|] eqn:Hg; simpl; [|done].
  destruct (Html.add_item (Html.Children ul) name) as [[children'|]| |] eqn:Ha;
    simpl; try done.
  intros [= <-]. exists children'.
  split; [by eapply list_children_update | by eapply add_item_key].
Qed.

(** "alpha" into the sample page of "beta" *)
Lemma index_finds_what_it_added_witness :
  Html.index_update 4 (Sample.site ["alpha"; "beta"]) "alpha" = Return None /\
  exists children',
    Html.list_children 4 (Sample.site ["alpha"; "beta"]) = Return children' /\
    "alpha" ∈ Html.keys children'.
Proof.
  apply (index_finds_what_it_added 4 (Sample.site ["beta"])).
  reflexivity.
Defined.

(** ** Where [readme] puts the item *)

Lemma scan_inv entries name i :
  Md.scan entries name = Return (Md.InsertAt i) ->
  i <= length entries /\
  (forall j e, j < i -> entries !! j = Some e ->
     exists c, Md.content e = Return c /\ Str.lt c name) /\
  (i < length entries ->
     exists e c, entries !! i = Some e /\ Md.content e = Return c /\
                 Str.lt name c).
Proof.
  revert i. induction entries as [|e es IH]; intros i; simpl.
  - intros [= <-]. split; [done|]. split; [intros; lia | lia].
  - destruct (Md.content e) as [c| |] eqn:Hc; simpl; try done.
    destruct (String.eqb c name) eqn:Heq; [done|].
    destruct (String.ltb name c) eqn:Hlt.
    + intros [= <-]. split; [lia|]. split; [intros; lia|].
      intros _. exists e, c. by rewrite <- str_ltb_lt.
    + destruct (Md.scan es name) as [[|j]| |] eqn:Hs; simpl; try done.
      intros [= <-]. destruct (IH j eq_refl) as (Hj & Hbefore & Hat).
      split; [lia|]. split.
      * intros [|j'] e' Hlt' He'; simpl in He'.
        -- injection He' as <-. exists c. split; [done|].
           apply str_ltb_ge, str_le_lt_or_eq in Hlt as [|Hlt]; [done|].
           apply str_eqb_neq in Heq. congruence.
        -- apply (Hbefore j'); [lia | done].
      * intros Hlen. apply Hat. lia.
Qed.

Lemma splice_clear entries f cs i out :
  i <= length entries ->
  Md.splice entries (Md.ListItem f cs) i = Return out ->
  map Md.clear out
  = map Md.clear (take i entries ++ Md.ListItem f cs :: drop i entries).
Proof.
  intros Hi. destruct (decide (i < length entries)) as [Hlt|Hge].
  - destruct (decide (i = 0)) as [->|Hne].
    + destruct entries as [|e rest]; [simpl in Hlt; lia|].
      rewrite splice_prepend.
      destruct (Md.set_ListFlags 0 e) as [e'| |] eqn:E; simpl; try done.
      intros [= <-]. by apply set_ListFlags_inv in E as (f0 & c0 & -> & ->).
    + rewrite splice_middle by lia. by intros [= <-].
  - assert (i = length entries) as -> by lia.
    rewrite take_ge, drop_ge by done.
    destruct (list_snoc_cases entries) as [->|(front & last & ->)].
    + rewrite splice_append_nil. by intros [= <-].
    + rewrite splice_append by done.
      destruct (Md.set_ListFlags 0 last) as [last'| |] eqn:E; simpl; try done.
      intros [= <-]. apply set_ListFlags_inv in E as (fl & cl & -> & ->).
      by rewrite <- app_assoc, !map_app.
Qed.

(** X7: when [readme] adds the item, the entries keep their order and their
    children, and none is dropped: but for list flags, the new list is the
    old one with the new item put in at [insertAt].  Every entry before that
    place has a link text below the name, and the entry at that place, when
    there is one, has a link text above the name.  This holds for any list,
    sorted or not. *)
Theorem readme_inserts_in_place
    (entries out : list Md.Node) (f : Z) (cs : list Md.Node) (name : string) :
  Md.readme_entries entries (Md.ListItem f cs) name = Return (Some out) ->
  exists insertAt,
    insertAt <= length entries /\
    map Md.clear out
    = map Md.clear (take insertAt entries ++ Md.ListItem f cs
                      :: drop insertAt entries) /\
    (forall j e, j < insertAt -> entries !! j = Some e ->
       exists c, Md.content e = Return c /\ Str.lt c name) /\
    (insertAt < length entries ->
       exists e c, entries !! insertAt = Some e /\
                   Md.content e = Return c /\ Str.lt name c).
Proof.
  unfold Md.readme_entries.
  destruct (Md.scan entries name) as [[|i]| |] eqn:Hs; simpl; try done.
  destruct (Md.splice entries (Md.ListItem f cs) i) as [out'| |] eqn:Hsp;
    simpl; try done.
  intros [= <-]. destruct (scan_inv _ _ _ Hs) as (Hi & Hbefore & Hat).
  exists i. split; [done|]. split; [by eapply splice_clear|]. done.
Qed.

(** "cat" into a list that is out of order and holds "cat" further down *)
Lemma readme_inserts_in_place_witness :
  exists insertAt,
    insertAt <= 3 /\
    map Md.clear [Md.entry 16 "beta"; Md.entry 0 "cat"; Md.entry 0 "delta";
                  Md.entry 32 "cat"]
    = map Md.clear
        (take insertAt [Md.entry 16 "beta"; Md.entry 0 "delta";
                        Md.entry 32 "cat"] ++ Md.entry 0 "cat"
           :: drop insertAt [Md.entry 16 "beta"; Md.entry 0 "delta";
                             Md.entry 32 "cat"]) /\
    (forall j e, j < insertAt ->
       [Md.entry 16 "beta"; Md.entry 0 "delta"; Md.entry 32 "cat"] !! j
       = Some e ->
       exists c, Md.content e = Return c /\ Str.lt c "cat") /\
    (insertAt < 3 ->
       exists e c,
         [Md.entry 16 "beta"; Md.entry 0 "delta"; Md.entry 32 "cat"]
           !! insertAt = Some e /\
         Md.content e = Return c /\ Str.lt "cat" c).
Proof.
  apply (readme_inserts_in_place
           [Md.entry 16 "beta"; Md.entry 0 "delta"; Md.entry 32 "cat"]
           [Md.entry 16 "beta"; Md.entry 0 "cat"; Md.entry 0 "delta";
            Md.entry 32 "cat"]).
  reflexivity.
Defined.

(** X8: in a list of one entry, the insertion leaves only one of the two
    boundary markers.  A name below the entry puts the new item first with
    the beginning-of-list marker and resets every flag of the old entry, so
    no item holds the end-of-list marker; a name above the entry puts the
    new item last with the end-of-list marker and resets every flag of the
    old entry, so no item holds the beginning-of-list marker. *)
Theorem readme_one_entry_list_loses_a_marker
    (f0 : Z) (c0 cs : list Md.Node) (k0 name : string) :
  Md.content (Md.ListItem f0 c0) = Return k0 ->
  (Str.lt name k0 ->
   Md.readme_entries [Md.ListItem f0 c0] (Md.ListItem 0 cs) name
   = Return (Some [Md.ListItem Md.ListItemBeginningOfList cs;
                   Md.ListItem 0 c0]) /\
   Forall (fun e => ~ Md.holds Md.ListItemEndOfList e)
     [Md.ListItem Md.ListItemBeginningOfList cs; Md.ListItem 0 c0]) /\
  (Str.lt k0 name ->
   Md.readme_entries [Md.ListItem f0 c0] (Md.ListItem 0 cs) name
   = Return (Some [Md.ListItem 0 c0;
                   Md.ListItem Md.ListItemEndOfList cs]) /\
   Forall (fun e => ~ Md.holds Md.ListItemBeginningOfList e)
     [Md.ListItem 0 c0; Md.ListItem Md.ListItemEndOfList cs]).
Proof.
  intros Hc.
  assert (Hl : Forall Md.listed [Md.ListItem f0 c0]).
  { constructor; [|done]. split; [by eexists _, _|].
    exists k0. by apply md_key_content. }
  assert (Hk : Md.keys [Md.ListItem f0 c0] = [k0]).
  { apply md_keys_cons. by apply md_key_content. }
  split; intros Hlt; split.
  - apply readme_entries_before; [done|]. rewrite Hk. by repeat constructor.
  - repeat constructor; rewrite holds_flags; by intros H.
  - apply (readme_entries_after [] f0 c0); [done|]. simpl app. rewrite Hk.
    by repeat constructor.
  - repeat constructor; rewrite holds_flags; by intros H.
Qed.

(** "alpha", then "gamma", into the list of "beta" *)
Lemma readme_one_entry_list_loses_a_marker_witness :
  (Md.readme_entries [Md.entry 48 "beta"] (Md.entry 0 "alpha") "alpha"
   = Return (Some [Md.entry 16 "alpha"; Md.entry 0 "beta"]) /\
   Forall (fun e => ~ Md.holds Md.ListItemEndOfList e)
     [Md.entry 16 "alpha"; Md.entry 0 "beta"]) /\
  (Md.readme_entries [Md.entry 48 "beta"] (Md.entry 0 "gamma") "gamma"
   = Return (Some [Md.entry 0 "beta"; Md.entry 32 "gamma"]) /\
   Forall (fun e => ~ Md.holds Md.ListItemBeginningOfList e)
     [Md.entry 0 "beta"; Md.entry 32 "gamma"]).
Proof.
  split.
  - apply (proj1 (readme_one_entry_list_loses_a_marker 48
                    [Md.Container Md.Paragraph
                       [Md.Leaf Md.Text EmptyString;
                        Md.Container (Md.Link "/beta")
                          [Md.Leaf Md.Text "beta"]]]
                    [Md.Container Md.Paragraph
                       [Md.Leaf Md.Text EmptyString;
                        Md.Container (Md.Link "/alpha")
                          [Md.Leaf Md.Text "alpha"]]]
                    "beta" "alpha" eq_refl)).
    by vm_compute.
  - apply (proj2 (readme_one_entry_list_loses_a_marker 48
                    [Md.Container Md.Paragraph
                       [Md.Leaf Md.Text EmptyString;
                        Md.Container (Md.Link "/beta")
                          [Md.Leaf Md.Text "beta"]]]
                    [Md.Container Md.Paragraph
                       [Md.Leaf Md.Text EmptyString;
                        Md.Container (Md.Link "/gamma")
                          [Md.Leaf Md.Text "gamma"]]]
                    "beta" "gamma" eq_refl)).
    by vm_compute.
Defined.

Lemma readme_entries_key entries f cs name out :
  Md.content (Md.ListItem f cs) = Return name ->
  Md.readme_entries entries (Md.ListItem f cs) name = Return (Some out) ->
  name ∈ Md.keys out.
Proof.
  intros Hc. unfold Md.readme_entries.
  destruct (Md.scan entries name) as [[|i]| |] eqn:Hs; simpl; try done.
  destruct (Md.splice entries (Md.ListItem f cs) i) as [out'| |] eqn:Hsp;
    simpl; try done.
  intros [= <-].
  destruct (splice_inv _ _ _ _ _ (scan_bound _ _ _ Hs) Hsp) as (_ & f' & Hi).
  apply list_elem_of_omap. exists (Md.ListItem f' cs).
  split; [by eapply list_elem_of_lookup_2|].
  rewrite (md_key_flags f' f). by apply md_key_content.
Qed.

(** X9: once [readme] has added the item to a document, [readme] on the
    resulting document finds the name among the link texts of the list and
    returns without adding anything, provided the new item that the parser
    made links the name.  No assumption is made on the order of the list. *)
Theorem readme_finds_what_it_added
    (newListItemList document document' : Md.Node) (name : string) :
  (forall newListItem,
     Md.new_item newListItemList = Return newListItem ->
     Md.content newListItem = Return name) ->
  Md.readme_update newListItemList document name = Return (Some document') ->
  Md.readme_update newListItemList document' name = Return None /\
  exists entries',
    Md.list_entries document' = Return entries' /\
    name ∈ Md.keys entries'.
Proof.
  intros Hnew H.
  destruct (Md.new_item newListItemList) as [it| |] eqn:Hn;
    [|by unfold Md.readme_update in H; rewrite Hn in H..].
  specialize (Hnew it eq_refl).
  split; [by eapply readme_update_again|].
  revert H. unfold Md.readme_update. rewrite Hn. simpl.
  destruct (Md.child 1 document) as [list| |] eqn:Hch; simpl; try done.
  destruct (Md.AsContainer list) as [entries|] eqn:Hl; simpl; [|done].
  destruct (Md.readme_entries entries it name) as [[out|]| |] eqn:Hr;
    simpl; try done.
  destruct (Md.AsContainer document) as [blocks|] eqn:Hd; simpl; [|done].
  intros [= <-]. exists out.
  assert (Hb : blocks !! 1 = Some list).
  { unfold Md.child in Hch. rewrite Hd in Hch. simpl in Hch.
    by destruct (blocks !! 1); simplify_eq/=. }
  split; [by eapply list_entries_update|].
  destruct (new_item_inv _ _ Hn) as [cs ->].
  by eapply readme_entries_key.
Qed.

(** "alpha" into the sample README of "beta" *)
Lemma readme_finds_what_it_added_witness :
  let document' :=
    Md.readme_doc [Md.entry Md.ListItemBeginningOfList "alpha";
                   Md.entry 0 "beta"] in
  Md.readme_update (Sample.md_Parse [] (Md.newListItemText "alpha"))
    document' "alpha" = Return None /\
  exists entries',
    Md.list_entries document' = Return entries' /\
    "alpha" ∈ Md.keys entries'.
Proof.
  apply (readme_finds_what_it_added
           (Sample.md_Parse [] (Md.newListItemText "alpha"))
           (Sample.readme ["beta"])).
  - intros it H. vm_compute in H. injection H as <-. reflexivity.
  - reflexivity.
Defined.

(** ** [record] over several runs *)

(** The names of [names] that [repositories] does not hold, each once *)
Lemma record_all_perm names (repositories : list string) :
  Manifest.record_all names repositories
  ≡ₚ repositories ++ list_difference (remove_dups names) repositories.
Proof.
  revert repositories.
  induction names as [|name names IH]; intros repositories.
  - simpl. by rewrite app_nil_r.
  - change (Manifest.record_all (name :: names) repositories)
      with (Manifest.record_all names
              (default repositories
                 (Manifest.record_update repositories name))).
    destruct (decide (name ∈ repositories)) as [Hin|Hnin].
    + rewrite (record_update_present _ _ Hin). simpl default. rewrite IH.
      apply Permutation_app_head, NoDup_Permutation.
      * apply NoDup_list_difference, NoDup_remove_dups.
      * apply NoDup_list_difference, NoDup_remove_dups.
      * intros k.
        rewrite !list_elem_of_difference, !elem_of_remove_dups, elem_of_cons.
        split; [intros [Hk Hn]; auto | intros [[->|Hk] Hn]; done].
    + rewrite (record_update_absent _ _ Hnin). simpl default. rewrite IH.
      rewrite Sort_perm at 1. rewrite <- app_assoc.
      apply Permutation_app_head, NoDup_Permutation.
      * apply NoDup_app. split; [apply NoDup_singleton|]. split.
        -- intros k ->%list_elem_of_singleton.
           rewrite list_elem_of_difference, Sort_perm, elem_of_app,
             list_elem_of_singleton.
           tauto.
        -- apply NoDup_list_difference, NoDup_remove_dups.
      * apply NoDup_list_difference, NoDup_remove_dups.
      * intros k. rewrite elem_of_app, !list_elem_of_difference,
          !elem_of_remove_dups, Sort_perm, list_elem_of_singleton.
        rewrite elem_of_cons, elem_of_app, list_elem_of_singleton.
        destruct (decide (k = name)) as [->|]; tauto.
Qed.

Lemma record_all_noop names (repositories : list string) :
  (forall k, k ∈ names -> k ∈ repositories) ->
  Manifest.record_all names repositories = repositories.
Proof.
  induction names as [|name names IH]; intros H; [done|]. simpl.
  rewrite record_update_present by (apply H; left). simpl.
  apply IH. intros k Hk. apply H. by right.
Qed.

Lemma record_all_keeps_sorted names (repositories : list string) :
  StronglySorted Str.le repositories ->
  StronglySorted Str.le (Manifest.record_all names repositories).
Proof.
  revert repositories.
  induction names as [|name names IH]; intros repositories H; [done|]. simpl.
  apply IH. unfold Manifest.record_update.
  destruct (Manifest.present repositories name); [done | apply Sort_sorted].
Qed.

Lemma record_all_sorted names (repositories : list string) k :
  k ∈ names -> k ∉ repositories ->
  StronglySorted Str.le (Manifest.record_all names repositories).
Proof.
  induction names as [|name names IH]; intros Hk Hn; [by inversion Hk|].
  simpl. destruct (decide (name ∈ repositories)) as [Hin|Hnin].
  - rewrite (record_update_present _ _ Hin). simpl. apply IH; [|done].
    apply elem_of_cons in Hk as [->|]; done.
  - rewrite (record_update_absent _ _ Hnin). simpl.
    apply record_all_keeps_sorted, Sort_sorted.
Qed.

(** X10: the array that a series of [record] runs leaves depends only on
    which names were given, not on their order nor on how often each was
    given.  This holds for every starting array, sorted or not, with or
    without duplicates. *)
Theorem record_order_of_runs_is_immaterial
    (names names' repositories : list string) :
  (forall k, k ∈ names <-> k ∈ names') ->
  Manifest.record_all names repositories
  = Manifest.record_all names' repositories.
Proof.
  intros H.
  destruct (decide (Forall (fun k => k ∈ repositories) names)) as [Hall|Hex].
  - rewrite Forall_forall in Hall.
    rewrite !record_all_noop; [done| |done].
    intros k Hk. apply Hall, H, Hk.
  - apply not_Forall_Exists in Hex; [|apply _].
    apply Exists_exists in Hex as (k & Hk & Hn).
    apply (StronglySorted_unique Str.le).
    + by apply (record_all_sorted _ _ k).
    + apply (record_all_sorted _ _ k); [by apply H | done].
    + rewrite !record_all_perm.
      apply Permutation_app_head, NoDup_Permutation.
      * apply NoDup_list_difference, NoDup_remove_dups.
      * apply NoDup_list_difference, NoDup_remove_dups.
      * intros x. rewrite !list_elem_of_difference, !elem_of_remove_dups.
        by rewrite H.
Qed.

(** "cat" and "ant" in either order, "cat" twice, into an unsorted array *)
Lemma record_order_of_runs_is_immaterial_witness :
  Manifest.record_all ["cat"; "ant"; "cat"] ["dog"; "bee"]
  = Manifest.record_all ["ant"; "cat"] ["dog"; "bee"].
Proof.
  apply (record_order_of_runs_is_immaterial
           ["cat"; "ant"; "cat"] ["ant"; "cat"] ["dog"; "bee"]).
  intros k. rewrite !elem_of_cons, elem_of_nil. tauto.
Defined.

(** ** The program as a whole *)

Lemma three_files_differ :
  Html.indexFile <> Md.readmeFile /\
  Html.indexFile <> Manifest.repositoryFile /\
  Md.readmeFile <> Manifest.repositoryFile.
Proof. by repeat split. Qed.

Section ProgramFacts.

Variable Template : Type.
Variable Join : string -> string -> string.
Variable MkdirAll : string -> OS.World -> option error * OS.World.
Variable Glob : string -> string -> OS.World -> res (list string).
Variable ParseFiles : string -> string -> OS.World -> res Template.
Variable OpenFile : string -> OS.World -> option error * OS.World.
Variable Execute :
  Template -> string -> string -> OS.World -> option error * OS.World.
Variable html_Parse : string -> res Html.Node.
Variable html_Render : Html.Node -> res string.
Variable md_Parse : string -> Md.Node.
Variable md_Render : Md.Node -> string.
Variable Unmarshal : string -> res (list string).
Variable quote : string -> string.

Let render := Driver.render Template Join ParseFiles OpenFile Execute.
Let render_all := Driver.render_all Template Join ParseFiles OpenFile Execute.
Let instance :=
  Driver.instance Template Join MkdirAll Glob ParseFiles OpenFile Execute.
Let index := Html.index html_Parse html_Render.
Let readme := Md.readme md_Parse md_Render.
Let record := Manifest.record Unmarshal quote.
Let main :=
  Driver.main Template Join MkdirAll Glob ParseFiles OpenFile Execute
    html_Parse html_Render md_Parse md_Render Unmarshal quote.

(** [main] with a name, step by step *)
Ltac run_main prog name rest :=
  subst main instance index readme record;
  unfold Driver.main, Driver.index, Driver.readme, Driver.record;
  change (length (prog :: name :: rest) =? 1)%nat with false;
  change ((prog :: name :: rest) !! 1) with (Some name); cbv iota.

Lemma render_all_app name done later w :
  render_all name (done ++ later) w
  = match render_all name done w with
    | (Some err, w') => (Some err, w')
    | (None, w') => render_all name later w'
    end.
Proof.
  subst render_all. revert w.
  induction done as [|m done IH]; intros w; simpl; [done|].
  destruct (Driver.render _ _ _ _ _ name m w) as [[err|] w']; [done|].
  apply IH.
Qed.

(** X11: [instance] renders the templates in the order of the glob and
    returns at the first one that fails, with the error of that [render]
    and the file system that it left: the outputs of the templates before
    it stay written, and the templates after it are not rendered. *)
Theorem instance_stops_at_first_failing_template
    (name : string) (w w0 w1 w2 : OS.World)
    (done later : list string) (match_ : string) (err : error) :
  MkdirAll name w = (None, w0) ->
  Glob Driver.templateDir "*" w0 = Ok (done ++ match_ :: later) ->
  render_all name done w0 = (None, w1) ->
  render name match_ w1 = (Some err, w2) ->
  instance name w = (Some err, w2).
Proof.
  intros Hm Hg Hd Hr. subst instance. unfold Driver.instance.
  rewrite Hm, Hg.
  change (render_all name (done ++ match_ :: later) w0 = (Some err, w2)).
  rewrite render_all_app, Hd. subst render_all render. simpl.
  by rewrite Hr.
Qed.

(** X12: with a name on the command line, [main] uses [os.Args[1]] alone:
    the program name and any further arguments change nothing.  A second
    argument is not an error. *)
Theorem main_ignores_further_arguments
    (fuel : nat) (prog prog' name : string) (rest : list string)
    (w : OS.World) :
  main fuel (prog :: name :: rest) w = main fuel [prog'; name] w.
Proof. reflexivity. Qed.

(** X14: whatever the outcome, [main] with a name leaves every file other
    than index.html, README.md and repository.json as [instance] left
    it. *)
Theorem main_touches_three_files
    (fuel : nat) (prog name : string) (rest : list string) (w : OS.World)
    (f : string) :
  f <> Html.indexFile -> f <> Md.readmeFile ->
  f <> Manifest.repositoryFile ->
  OS.files (Driver.world (main fuel (prog :: name :: rest) w)) !! f
  = OS.files (instance name w).2 !! f.
Proof.
  intros Hi Hr Hj. run_main prog name rest.
  destruct (Driver.instance _ _ _ _ _ _ _ name w) as [[e1|] w1]; [done|].
  destruct (Html.index _ _ fuel name w1) as [[[e2|] w2]| |] eqn:H2;
    try done;
    pose proof (index_other _ _ _ _ _ _ _ f H2 Hi) as E2; [done|].
  destruct (Md.readme _ _ name w2) as [[[e3|] w3]| |] eqn:H3;
    try done;
    pose proof (readme_other _ _ _ _ _ _ f H3 Hr) as E3;
    [simpl; congruence|].
  destruct (Manifest.record _ _ name w3) as [[e4|] w4] eqn:H4;
    pose proof (record_other _ _ _ _ _ _ f H4 Hj) as E4;
    simpl in *; congruence.
Qed.

(** X15: nothing is rolled back.  Once [index] has returned [nil], the
    index.html it left is the one [main] leaves, whatever the later steps
    do; and once [readme] has returned [nil], the README.md it left is the
    one [main] leaves, whatever [record] does. *)
Theorem main_keeps_what_earlier_steps_wrote
    (fuel : nat) (prog name : string) (rest : list string)
    (w w1 w2 : OS.World) :
  instance name w = (None, w1) ->
  index fuel name w1 = Return (None, w2) ->
  let out := main fuel (prog :: name :: rest) w in
  OS.files (Driver.world out) !! Html.indexFile
  = OS.files w2 !! Html.indexFile /\
  (forall w3,
     readme name w2 = Return (None, w3) ->
     OS.files (Driver.world out) !! Md.readmeFile
     = OS.files w3 !! Md.readmeFile).
Proof.
  destruct three_files_differ as (Hir & Hij & Hrj).
  intros H1 H2 out. subst out. revert H1 H2. run_main prog name rest.
  intros -> ->.
  destruct (Md.readme _ _ name w2) as [[[e3|] w3]| |] eqn:H3;
    try (split; [done | by intros ?]);
    pose proof (readme_other _ _ _ _ _ _ Html.indexFile H3 Hir) as E3;
    [split; [done | by intros ?]|].
  destruct (Manifest.record _ _ name w3) as [[e4|] w4] eqn:H4;
    pose proof (record_other _ _ _ _ _ _ Html.indexFile H4 Hij) as E4;
    pose proof (record_other _ _ _ _ _ _ Md.readmeFile H4 Hrj) as E5;
    (split; [simpl; congruence | by intros ? [= <-]]).
Qed.

End ProgramFacts.

(** Three templates under a file size limit: "c.txt" is written, "a.txt"
    fails, "b.txt" is not rendered. *)
Lemma instance_stops_at_first_failing_template_witness :
  let w2 :=
    OS.set_file "x/a.txt" "Abou"
      (OS.set_file "x/c.txt" "C" Sample.world_limit) in
  Sample.instance "x" Sample.world_limit
  = (Some "write x/a.txt: file too large", w2) /\
  OS.files w2 !! "x/c.txt" = Some "C" /\
  OS.files w2 !! "x/b.txt" = None.
Proof.
  intros w2. split; [|by vm_compute].
  apply (instance_stops_at_first_failing_template string Sample.Join
           Sample.MkdirAll Sample.Glob Sample.ParseFiles Sample.OpenFile
           Sample.Execute "x" Sample.world_limit Sample.world_limit
           (OS.set_file "x/c.txt" "C" Sample.world_limit) w2
           ["c.txt"] ["b.txt"] "a.txt").
  - reflexivity.
  - by vm_compute.
  - by vm_compute.
  - by vm_compute.
Defined.

(** The sample site without its README: the rendered template is as
    [instance] left it when [main] exits. *)
Lemma main_touches_three_files_witness :
  OS.files
    (Driver.world
       (Sample.main 4 ["repository"; "alpha"] Sample.world_no_readme))
    !! "alpha/about.txt"
  = OS.files (Sample.instance "alpha" Sample.world_no_readme).2
      !! "alpha/about.txt".
Proof.
  apply (main_touches_three_files string Sample.Join Sample.MkdirAll
           Sample.Glob Sample.ParseFiles Sample.OpenFile Sample.Execute
           (Sample.html_Parse Sample.html_docs) Sample.html_Render
           (Sample.md_Parse Sample.md_docs) Sample.md_Render
           Sample.Unmarshal Sample.quote
           4 "repository" "alpha" [] Sample.world_no_readme
           "alpha/about.txt"); done.
Defined.

(** The sample site without its README: [main] exits with code 1 and
    index.html holds the link that [index] added. *)
Lemma main_keeps_what_earlier_steps_wrote_witness :
  let w1 := (Sample.instance "alpha" Sample.world_no_readme).2 in
  let w2 := OS.set_file Html.indexFile
              (Sample.html_text (Sample.site ["alpha"; "beta"])) w1 in
  let out := Sample.main 4 ["repository"; "alpha"] Sample.world_no_readme in
  Driver.status out = Return 1 /\
  OS.files (Driver.world out) !! Html.indexFile
  = OS.files w2 !! Html.indexFile /\
  OS.files w2 !! Html.indexFile
  = Some (Sample.html_text (Sample.site ["alpha"; "beta"])).
Proof.
  intros w1 w2 out. split; [by vm_compute|]. split; [|by vm_compute].
  apply (main_keeps_what_earlier_steps_wrote string Sample.Join
           Sample.MkdirAll Sample.Glob Sample.ParseFiles Sample.OpenFile
           Sample.Execute
           (Sample.html_Parse Sample.html_docs) Sample.html_Render
           (Sample.md_Parse Sample.md_docs) Sample.md_Render
           Sample.Unmarshal Sample.quote
           4 "repository" "alpha" [] Sample.world_no_readme w1 w2).
  - by vm_compute.
  - by vm_compute.
Defined.

(** ** The order of the runs of [index] *)

Lemma run_bind_assoc {A B C} (m : run A) (f : A -> run B) (g : B -> run C) :
  (let* y := (let* x := m in f x) in g y)
  = (let* x := m in let* y := f x in g y).
Proof. by destruct m. Qed.

Lemma run_bind_Return {A B} (x : A) (f : A -> run B) :
  (let* y := Return x in f y) = f x.
Proof. reflexivity. Qed.

Lemma add_one_nil name :
  Html.add_one [] name = Return (Html.newChildren name).
Proof. reflexivity. Qed.

Lemma add_one_skip child siblings name :
  Html.Type_ child <> Html.ElementNode ->
  Html.add_one (child :: siblings) name
  = (let* s := Html.add_one siblings name in Return (child :: s)).
Proof.
  intros H. unfold Html.add_one. rewrite add_item_skip by done.
  by destruct (Html.add_item siblings name) as [[cs|]| |].
Qed.

Lemma add_one_next child siblings name k :
  Html.Type_ child = Html.ElementNode ->
  Html.anchor_text child = Return k ->
  String.leb name k = false ->
  Html.add_one (child :: siblings) name
  = (let* s := Html.add_one siblings name in Return (child :: s)).
Proof.
  intros He Ha Hk. unfold Html.add_one.
  rewrite (add_item_next _ _ _ k) by done.
  by destruct (Html.add_item siblings name) as [[cs|]| |].
Qed.

Lemma add_one_here child siblings name k :
  Html.Type_ child = Html.ElementNode ->
  Html.anchor_text child = Return k ->
  String.leb name k = true ->
  Html.add_one (child :: siblings) name
  = Return (if String.eqb k name then child :: siblings
            else Html.newChildren name ++ child :: siblings).
Proof.
  intros He Ha Hk. unfold Html.add_one.
  rewrite (add_item_here _ _ _ k) by done.
  by destruct (String.eqb k name).
Qed.

Lemma add_one_panic child siblings name :
  Html.Type_ child = Html.ElementNode ->
  Html.key child = None ->
  Html.add_one (child :: siblings) name = Panic.
Proof.
  intros He Hk. unfold Html.add_one. by rewrite add_item_panic.
Qed.

(** A run for [b] on a list that starts with the item of [a] *)
Lemma add_one_new_after a b children :
  String.leb b a = false ->
  Html.add_one (Html.newChildren a ++ children) b
  = (let* children' := Html.add_one children b in
     Return (Html.newChildren a ++ children')).
Proof.
  intros H. unfold Html.newChildren. cbn [app].
  rewrite (add_one_next _ _ _ a) by done.
  rewrite add_one_skip by done.
  by destruct (Html.add_one children b).
Qed.

Lemma add_one_new_here a b children :
  String.leb b a = true ->
  Html.add_one (Html.newChildren a ++ children) b
  = Return (if String.eqb a b then Html.newChildren a ++ children
            else Html.newChildren b ++ Html.newChildren a ++ children).
Proof.
  intros H. unfold Html.newChildren at 1. cbn [app].
  rewrite (add_one_here _ _ _ a) by done.
  by destruct (String.eqb a b).
Qed.

Lemma str_leb_cases a b :
  (String.leb a b = true /\ String.leb b a = false /\ String.eqb a b = false /\
   String.eqb b a = false) \/
  (String.leb a b = false /\ String.leb b a = true /\ String.eqb a b = false /\
   String.eqb b a = false) \/
  a = b.
Proof.
  destruct (String.leb a b) eqn:Hab, (String.leb b a) eqn:Hba.
  - right. right. apply str_leb_le in Hab, Hba. by apply str_le_antisym.
  - left. apply str_leb_gt in Hba. pose proof (str_lt_neq _ _ Hba).
    repeat split; apply str_eqb_neq; congruence.
  - right. left. apply str_leb_gt in Hab. pose proof (str_lt_neq _ _ Hab).
    repeat split; apply str_eqb_neq; congruence.
  - apply str_leb_gt in Hab, Hba. by destruct (str_lt_asym _ _ Hab).
Qed.

(** Both runs go past [child] *)
Lemma add_one_comm_pass child siblings a b :
  (forall s n, n = a \/ n = b ->
     Html.add_one (child :: s) n
     = (let* s' := Html.add_one s n in Return (child :: s'))) ->
  (let* c1 := Html.add_one siblings a in Html.add_one c1 b)
  = (let* c1 := Html.add_one siblings b in Html.add_one c1 a) ->
  (let* c1 := Html.add_one (child :: siblings) a in Html.add_one c1 b)
  = (let* c1 := Html.add_one (child :: siblings) b in Html.add_one c1 a).
Proof.
  intros Hp IH.
  assert (Hs : forall n m,
            n = a \/ n = b -> m = a \/ m = b ->
            (let* c1 := Html.add_one (child :: siblings) n in
             Html.add_one c1 m)
            = (let* s2 := (let* s1 := Html.add_one siblings n in
                           Html.add_one s1 m) in
               Return (child :: s2))).
  { intros n m Hn Hm. rewrite (Hp _ _ Hn).
    destruct (Html.add_one siblings n) as [s1| |]; simpl; [|done..].
    by rewrite (Hp _ _ Hm). }
  rewrite (Hs a b), (Hs b a) by auto. by rewrite IH.
Qed.

(** The run for [a] stops at [child], the run for [b] goes past it *)
Lemma add_one_comm_stop child siblings a b k :
  Html.Type_ child = Html.ElementNode ->
  Html.anchor_text child = Return k ->
  String.leb a k = true ->
  String.leb b k = false ->
  (let* c1 := Html.add_one (child :: siblings) a in Html.add_one c1 b)
  = (let* c1 := Html.add_one (child :: siblings) b in Html.add_one c1 a).
Proof.
  intros He Ha Hak Hbk.
  assert (Hba : String.leb b a = false).
  { apply str_leb_gt. apply str_leb_le in Hak. apply str_leb_gt in Hbk.
    by eapply str_le_lt_trans. }
  rewrite (add_one_here _ _ a k), (add_one_next _ _ b k) by done.
  rewrite run_bind_Return, run_bind_assoc.
  destruct (String.eqb k a) eqn:Hka.
  - rewrite (add_one_next _ _ b k) by done.
    destruct (Html.add_one siblings b) as [s'| |]; simpl; [|done..].
    rewrite (add_one_here _ _ a k) by done. by rewrite Hka.
  - rewrite add_one_new_after by done.
    rewrite (add_one_next _ _ b k) by done.
    destruct (Html.add_one siblings b) as [s'| |]; simpl; [|done..].
    rewrite (add_one_here _ _ a k) by done. by rewrite Hka.
Qed.

(** The run for [a], at whose name [child] stands, and the run for [b],
    which stops at [child] too *)
Lemma add_one_comm_found child siblings b k :
  Html.Type_ child = Html.ElementNode ->
  Html.anchor_text child = Return k ->
  String.leb b k = true ->
  (let* c1 := Html.add_one (child :: siblings) k in Html.add_one c1 b)
  = (let* c1 := Html.add_one (child :: siblings) b in Html.add_one c1 k).
Proof.
  intros He Ha Hbk.
  assert (Hkk : String.leb k k = true) by apply str_leb_le, str_le_refl.
  assert (Hek : String.eqb k k = true) by by apply str_eqb_eq.
  rewrite (add_one_here _ _ k k), (add_one_here _ _ b k), Hek by done.
  rewrite !run_bind_Return.
  rewrite (add_one_here _ _ b k) by done.
  destruct (String.eqb k b) eqn:Hkb.
  - rewrite (add_one_here _ _ k k) by done. by rewrite Hek.
  - assert (Hlt : String.leb k b = false).
    { apply str_leb_gt.
      apply str_leb_le, str_le_lt_or_eq in Hbk as [Hlt|Heq]; [done|].
      apply str_eqb_neq in Hkb. congruence. }
    rewrite add_one_new_after by done.
    rewrite (add_one_here _ _ k k) by done. by rewrite Hek.
Qed.

(** One run after another gives the list that the two give the other way
    round. *)
Lemma add_one_comm children a b :
  (let* c1 := Html.add_one children a in Html.add_one c1 b)
  = (let* c1 := Html.add_one children b in Html.add_one c1 a).
Proof.
  induction children as [|child siblings IH].
  - rewrite !add_one_nil. rewrite !run_bind_Return.
    rewrite <- (app_nil_r (Html.newChildren a)).
    rewrite <- (app_nil_r (Html.newChildren b)).
    destruct (str_leb_cases a b) as [(Hab & Hba & Eab & Eba)|
                                     [(Hab & Hba & Eab & Eba)| ->]]; [| |done].
    + rewrite (add_one_new_after a b), (add_one_new_here b a) by done.
      rewrite add_one_nil, Eba. simpl. by rewrite ?app_nil_r.
    + rewrite (add_one_new_here a b), (add_one_new_after b a) by done.
      rewrite add_one_nil, Eab. simpl. by rewrite ?app_nil_r.
  - destruct (type_dec child) as [He|Hne].
    + destruct (Html.key child) as [k|] eqn:Hk;
        [|by rewrite !add_one_panic].
      pose proof (proj1 (key_anchor_text _ _) Hk) as Ha.
      destruct (String.leb a k) eqn:Hak, (String.leb b k) eqn:Hbk.
      * destruct (String.eqb k a) eqn:Hka.
        { apply str_eqb_eq in Hka as ->. by apply add_one_comm_found. }
        destruct (String.eqb k b) eqn:Hkb.
        { apply str_eqb_eq in Hkb as ->. symmetry. by apply add_one_comm_found. }
        rewrite (add_one_here _ _ a k), (add_one_here _ _ b k), Hka, Hkb
          by done.
        rewrite !run_bind_Return.
        destruct (str_leb_cases a b) as [(Hab & Hba & Eab & Eba)|
                                         [(Hab & Hba & Eab & Eba)| ->]];
          [| |done].
        -- rewrite (add_one_new_after a b), (add_one_new_here b a) by done.
           rewrite (add_one_here _ _ b k), Hkb, Eba by done. done.
        -- rewrite (add_one_new_here a b), (add_one_new_after b a) by done.
           rewrite (add_one_here _ _ a k), Hka, Eab by done. done.
      * by apply (add_one_comm_stop _ _ _ _ k).
      * symmetry. by apply (add_one_comm_stop _ _ _ _ k).
      * apply add_one_comm_pass; [|done].
        intros s n [->| ->]; by apply (add_one_next _ _ _ k).
    + apply add_one_comm_pass; [|done].
      intros s n _. by apply add_one_skip.
Qed.

(** A second run for the same name changes nothing. *)
Lemma add_one_idem children a :
  (let* c1 := Html.add_one children a in Html.add_one c1 a)
  = Html.add_one children a.
Proof.
  unfold Html.add_one at 1 3.
  destruct (Html.add_item children a) as [[c1|]| |] eqn:E; simpl; [| |done..].
  - unfold Html.add_one. by rewrite (add_item_again _ _ _ E).
  - unfold Html.add_one. by rewrite E.
Qed.

Lemma add_all_perm names names' :
  names ≡ₚ names' ->
  forall children, Html.add_all names children = Html.add_all names' children.
Proof.
  induction 1 as [|x l l' _ IH|x y l|l l' l'' _ IH1 _ IH2]; intros children.
  - done.
  - simpl. destruct (Html.add_one children x) as [c1| |]; simpl; [|done..].
    apply IH.
  - simpl. rewrite <- !run_bind_assoc. by rewrite add_one_comm.
  - by rewrite IH1.
Qed.

Lemma add_all_again x names children :
  x ∈ names ->
  Html.add_all (x :: names) children = Html.add_all names children.
Proof.
  intros (rest & Hp)%elem_of_Permutation.
  rewrite (add_all_perm (x :: names) (x :: x :: rest)) by by rewrite Hp.
  rewrite (add_all_perm names (x :: rest)) by done.
  simpl. rewrite <- run_bind_assoc. by rewrite add_one_idem.
Qed.

Lemma add_all_remove_dups names children :
  Html.add_all (remove_dups names) children = Html.add_all names children.
Proof.
  revert children. induction names as [|x names IH]; intros children; [done|].
  simpl remove_dups. destruct (decide_rel _ x names) as [Hin|Hnin].
  - by rewrite IH, add_all_again.
  - simpl. destruct (Html.add_one children x) as [c1| |]; simpl; [|done..].
    apply IH.
Qed.

Lemma add_all_same_names names names' children :
  (forall k, k ∈ names <-> k ∈ names') ->
  Html.add_all names children = Html.add_all names' children.
Proof.
  intros H.
  rewrite <- (add_all_remove_dups names), <- (add_all_remove_dups names').
  apply add_all_perm, NoDup_Permutation; [apply NoDup_remove_dups..|].
  intros k. by rewrite !elem_of_remove_dups.
Qed.

(** The document is the one it was when the list is given its own
    children, and a second change of the children replaces the first. *)
Lemma alter_id {A} (f : A -> A) (l : list A) i x :
  l !! i = Some x -> f x = x -> alter f i l = l.
Proof.
  revert i. induction l as [|y l IH]; intros [|i]; simpl; try done.
  - by intros [= ->] ->.
  - intros Hi Hx. f_equal. by apply IH.
Qed.

Lemma alter_absorb {A} (f g : A -> A) (l : list A) i :
  (forall x, f (g x) = f x) -> alter f i (alter g i l) = alter f i l.
Proof.
  intros H. revert i. induction l as [|y l IH]; intros [|i]; simpl; try done.
  - by rewrite H.
  - f_equal. apply IH.
Qed.

Lemma update_id p n m :
  Html.get p n = Some m ->
  Html.update p (Html.set_children (Html.Children m)) n = n.
Proof.
  revert n. induction p as [|i p IH]; intros n; simpl.
  - intros [= ->]. by destruct m.
  - destruct (Html.Children n !! i) as [c|] eqn:Hc; [|done]. intros Hg.
    rewrite (alter_id _ _ _ c) by auto. by destruct n.
Qed.

Lemma update_update p children children' n :
  Html.update p (Html.set_children children')
    (Html.update p (Html.set_children children) n)
  = Html.update p (Html.set_children children') n.
Proof.
  revert n. induction p as [|i p IH]; intros n; [done|].
  change (Html.set_children
            (alter (Html.update p (Html.set_children children')) i
               (alter (Html.update p (Html.set_children children)) i
                  (Html.Children n))) n
          = Html.set_children
              (alter (Html.update p (Html.set_children children')) i
                 (Html.Children n)) n).
  by rewrite alter_absorb.
Qed.

(** The runs of [index] on a document, read on the children of its list *)
Lemma index_all_located fuel names document p ul :
  Html.locate fuel document Html.elementPath = Return p ->
  Html.get p document = Some ul ->
  Html.index_all fuel names document
  = (let* children := Html.add_all names (Html.Children ul) in
     Return (Html.update p (Html.set_children children) document)).
Proof.
  revert document ul.
  induction names as [|name names IH]; intros document ul Hp Hg.
  - simpl. by rewrite (update_id _ _ _ Hg).
  - change (Html.index_all fuel (name :: names) document)
      with (let* r := Html.index_update fuel document name in
            Html.index_all fuel names (default document r)).
    rewrite (index_update_located _ _ _ _ _ Hp Hg).
    change (Html.add_all (name :: names) (Html.Children ul))
      with (let* children' := Html.add_one (Html.Children ul) name in
            Html.add_all names children').
    unfold Html.add_one.
    destruct (Html.add_item (Html.Children ul) name) as [[c1|]| |];
      simpl; [| |done..].
    + rewrite (IH _ (Html.set_children c1 ul));
        [|by apply locate_update | by apply get_update].
      simpl. destruct (Html.add_all names c1) as [c| |]; simpl; [|done..].
      by rewrite update_update.
    + by apply IH.
Qed.

(** X16: the page that a series of [index] runs leaves depends only on
    which names were given, not on their order nor on how often each was
    given.  This holds for every document, whatever the order and the shape
    of its list: where one order panics or does not end, so does the
    other. *)
Theorem index_order_of_runs_is_immaterial
    (fuel : nat) (names names' : list string) (document : Html.Node) :
  (forall k, k ∈ names <-> k ∈ names') ->
  Html.index_all fuel names document = Html.index_all fuel names' document.
Proof.
  intros H.
  destruct (Html.locate fuel document Html.elementPath) as [p| |] eqn:Hp.
  - destruct (locate_get _ _ _ _ Hp) as [ul Hg].
    rewrite !(index_all_located _ _ _ _ _ Hp Hg).
    by rewrite (add_all_same_names names names').
  - by destruct (locate_no_panic _ _ _ Hp).
  - assert (Hs : forall l, l <> [] -> Html.index_all fuel l document = Spin).
    { intros [|n l] Hl; [done|]. simpl. unfold Html.index_update.
      by rewrite Hp. }
    destruct names as [|n names], names' as [|n' names']; [done| | |].
    + assert (Hin : n' ∈ []) by (apply H; left). by apply elem_of_nil in Hin.
    + assert (Hin : n ∈ []) by (apply H; left). by apply elem_of_nil in Hin.
    + by rewrite !Hs.
Qed.

(** "cat" and "ant" in either order, "cat" twice, into a page whose list is
    out of order *)
Lemma index_order_of_runs_is_immaterial_witness :
  Html.index_all 4 ["cat"; "ant"; "cat"] (Sample.site ["dog"; "bee"])
  = Html.index_all 4 ["ant"; "cat"] (Sample.site ["dog"; "bee"]).
Proof.
  apply (index_order_of_runs_is_immaterial 4 ["cat"; "ant"; "cat"]
           ["ant"; "cat"] (Sample.site ["dog"; "bee"])).
  intros k. rewrite !elem_of_cons, elem_of_nil. tauto.
Defined.

(** ** What a [nil] of an updater means *)

Lemma add_item_found_key children name :
  Html.add_item children name = Return None -> name ∈ Html.keys children.
Proof.
  induction children as [|child siblings IH]; [done|].
  assert (Hrest : Html.add_rest child (Html.add_item siblings name)
                  = Return None -> name ∈ Html.keys siblings).
  { unfold Html.add_rest.
    destruct (Html.add_item siblings name) as [[cs|]| |]; simpl; try done.
    all: intros _; by apply IH. }
  destruct (type_dec child) as [He|Hne].
  - destruct (Html.key child) as [k|] eqn:Hk.
    + pose proof (proj1 (key_anchor_text _ _) Hk) as Ha.
      rewrite (keys_entry _ _ k He Hk).
      destruct (String.leb name k) eqn:Hle.
      * rewrite (add_item_here _ _ _ k He Ha Hle).
        destruct (String.eqb k name) eqn:Heq; [|done]. intros _.
        apply str_eqb_eq in Heq as ->. left.
      * rewrite (add_item_next _ _ _ k He Ha Hle). intros H. right. auto.
    + by rewrite (add_item_panic _ _ _ He Hk).
  - rewrite (add_item_skip _ _ _ Hne), (keys_skip _ _ Hne). auto.
Qed.

Lemma scan_found_key entries name :
  Md.scan entries name = Return Md.Found -> name ∈ Md.keys entries.
Proof.
  induction entries as [|e es IH]; [done|].
  destruct (Md.content e) as [c| |] eqn:Hc;
    [rewrite (md_keys_cons e es c) by by apply md_key_content| |];
    cbn [Md.scan]; rewrite Hc; cbn [run_bind]; try done.
  destruct (String.eqb c name) eqn:Heq.
  - intros _. apply str_eqb_eq in Heq as ->. left.
  - destruct (String.ltb name c); [done|].
    destruct (Md.scan es name) as [[|i]| |]; simpl; try done.
    intros _. right. by apply IH.
Qed.

Section NilFacts.

Variable html_Parse : string -> res Html.Node.
Variable html_Render : Html.Node -> res string.
Variable md_Parse : string -> Md.Node.
Variable md_Render : Md.Node -> string.
Variable Unmarshal : string -> res (list string).
Variable quote : string -> string.

Let index := Html.index html_Parse html_Render.
Let readme := Md.readme md_Parse md_Render.
Let record := Manifest.record Unmarshal quote.

(** X17: when [index] returns [nil], the name is among the anchor texts of
    the list of a document that index.html stands for: either the file is
    untouched and parses to that document, or the file now holds the
    rendering of that document. *)
Theorem index_nil_means_linked
    (fuel : nat) (name : string) (w w' : OS.World) :
  index fuel name w = Return (None, w') ->
  exists document children,
    Html.list_children fuel document = Return children /\
    name ∈ Html.keys children /\
    ((w' = w /\
      exists data,
        OS.ReadFile Html.indexFile w = Ok data /\
        html_Parse data = Ok document) \/
     (exists buf,
        html_Render document = Ok buf /\
        OS.ReadFile Html.indexFile w' = Ok buf)).
Proof.
  intros [[-> H]|(data & d & d' & buf & Hr & Hp & Hu & Hb & Hw)]%index_inv.
  - destruct (H eq_refl) as (data & d & Hr & Hp & Hu).
    revert Hu. unfold Html.index_update.
    destruct (Html.locate fuel d Html.elementPath) as [p| |] eqn:Hl;
      simpl; try done.
    destruct (Html.get p d) as [ul|] eqn:Hg; simpl; [|done].
    destruct (Html.add_item (Html.Children ul) name) as [[cs|]| |] eqn:Ha;
      simpl; try done.
    intros _. exists d, (Html.Children ul). split.
    { unfold Html.list_children. rewrite Hl. simpl. by rewrite Hg. }
    split; [by apply add_item_found_key|].
    left. split; [done|]. by exists data.
  - revert Hu. unfold Html.index_update.
    destruct (Html.locate fuel d Html.elementPath) as [p| |] eqn:Hl;
      simpl; try done.
    destruct (Html.get p d) as [ul|] eqn:Hg; simpl; [|done].
    destruct (Html.add_item (Html.Children ul) name) as [[cs|]| |] eqn:Ha;
      simpl; try done.
    intros [= <-]. exists (Html.update p (Html.set_children cs) d), cs.
    split; [by eapply list_children_update|].
    split; [by eapply add_item_key|].
    right. exists buf. split; [done|]. by eapply ReadFile_written.
Qed.

(** X18: when [readme] returns [nil], the name is among the link texts of
    the list of a document that README.md stands for: either the file is
    untouched and parses to that document, or the file now holds the
    rendering of that document.  For the second case the parser is assumed
    to read the text of the new item as an item that links the name. *)
Theorem readme_nil_means_listed (name : string) (w w' : OS.World) :
  Md.parses_item md_Parse name ->
  readme name w = Return (None, w') ->
  exists document entries,
    Md.list_entries document = Return entries /\
    name ∈ Md.keys entries /\
    ((w' = w /\
      exists data,
        OS.ReadFile Md.readmeFile w = Ok data /\ md_Parse data = document) \/
     OS.ReadFile Md.readmeFile w' = Ok (md_Render document)).
Proof.
  intros (it & Hn & Hc) [[-> H]|(data & d' & Hr & Hu & Hw)]%readme_inv.
  - destruct (H eq_refl) as (data & Hr & Hu).
    revert Hu. unfold Md.readme_update. rewrite Hn. simpl.
    destruct (Md.child 1 (md_Parse data)) as [list| |] eqn:Hch;
      simpl; try done.
    destruct (Md.AsContainer list) as [entries|] eqn:Hl; simpl; [|done].
    unfold Md.readme_entries.
    destruct (Md.scan entries name) as [[|i]| |] eqn:Hs; simpl; try done.
    + intros _. exists (md_Parse data), entries. split.
      { unfold Md.list_entries. rewrite Hch. simpl. by rewrite Hl. }
      split; [by apply scan_found_key|].
      left. split; [done|]. by exists data.
    + destruct (Md.splice entries it i); simpl; try done.
      all: by destruct (Md.AsContainer (md_Parse data)).
  - revert Hu. unfold Md.readme_update. rewrite Hn. simpl.
    destruct (Md.child 1 (md_Parse data)) as [list| |] eqn:Hch;
      simpl; try done.
    destruct (Md.AsContainer list) as [entries|] eqn:Hl; simpl; [|done].
    destruct (Md.readme_entries entries it name) as [[out|]| |] eqn:Hre;
      simpl; try done.
    destruct (Md.AsContainer (md_Parse data)) as [blocks|] eqn:Hd;
      simpl; [|done].
    intros [= <-].
    exists (Md.set_Children (<[1 := Md.set_Children out list]> blocks)
              (md_Parse data)), out.
    assert (Hb : blocks !! 1 = Some list).
    { unfold Md.child in Hch. rewrite Hd in Hch. simpl in Hch.
      by destruct (blocks !! 1); simplify_eq/=. }
    split; [by eapply list_entries_update|].
    split.
    { destruct (new_item_inv _ _ Hn) as [cs ->].
      by eapply readme_entries_key. }
    right. by eapply ReadFile_written.
Qed.

(** X19: when [record] returns [nil], the name is in an array that
    repository.json stands for: either the file is untouched and decodes to
    that array, or the array is sorted ascending and the file now holds its
    encoding. *)
Theorem record_nil_means_recorded (name : string) (w w' : OS.World) :
  record name w = (None, w') ->
  exists repositories,
    name ∈ repositories /\
    ((w' = w /\
      exists data,
        OS.ReadFile Manifest.repositoryFile w = Ok data /\
        Unmarshal data = Ok repositories) \/
     (StronglySorted Str.le repositories /\
      exists data',
        Manifest.MarshalIndent quote repositories "" "  " = Ok data' /\
        OS.ReadFile Manifest.repositoryFile w' = Ok data')).
Proof.
  intros [[-> H]|(data & l & l' & data' & Hr & Hd & Hu & Hm & Hw)]%record_inv.
  - destruct (H eq_refl) as (data & l & Hr & Hd & Hu).
    exists l. split.
    + apply present_elem_of. unfold Manifest.record_update in Hu.
      by destruct (Manifest.present l name).
    + left. split; [done|]. by exists data.
  - exists l'. split; [by eapply record_update_elem|].
    right. split.
    + unfold Manifest.record_update in Hu.
      destruct (Manifest.present l name); [done|].
      injection Hu as <-. apply Sort_sorted.
    + exists data'. split; [done|]. by eapply ReadFile_written.
Qed.

End NilFacts.

(** "alpha" into the sample page of "beta" *)
Lemma index_nil_means_linked_witness :
  let w' := OS.set_file Html.indexFile
              (Sample.html_text (Sample.site ["alpha"; "beta"]))
              Sample.world0 in
  exists document children,
    Html.list_children 4 document = Return children /\
    "alpha" ∈ Html.keys children /\
    ((w' = Sample.world0 /\
      exists data,
        OS.ReadFile Html.indexFile Sample.world0 = Ok data /\
        Sample.html_Parse Sample.html_docs data = Ok document) \/
     (exists buf,
        Sample.html_Render document = Ok buf /\
        OS.ReadFile Html.indexFile w' = Ok buf)).
Proof.
  apply (index_nil_means_linked (Sample.html_Parse Sample.html_docs)
           Sample.html_Render 4 "alpha" Sample.world0).
  by vm_compute.
Defined.

(** "alpha" into the sample README of "beta" *)
Lemma readme_nil_means_listed_witness :
  let w' := OS.set_file Md.readmeFile
              (Sample.md_text
                 (Md.readme_doc [Md.entry Md.ListItemBeginningOfList "alpha";
                                 Md.entry 0 "beta"]))
              Sample.world0 in
  exists document entries,
    Md.list_entries document = Return entries /\
    "alpha" ∈ Md.keys entries /\
    ((w' = Sample.world0 /\
      exists data,
        OS.ReadFile Md.readmeFile Sample.world0 = Ok data /\
        Sample.md_Parse Sample.md_docs data = document) \/
     OS.ReadFile Md.readmeFile w' = Ok (Sample.md_Render document)).
Proof.
  apply (readme_nil_means_listed (Sample.md_Parse Sample.md_docs)
           Sample.md_Render "alpha" Sample.world0).
  - exists (Md.entry 0 "alpha"). by vm_compute.
  - by vm_compute.
Defined.

(** "alpha" into the sample manifest of "beta" *)
Lemma record_nil_means_recorded_witness :
  let w' := OS.set_file Manifest.repositoryFile
              (Sample.json ["alpha"; "beta"]) Sample.world0 in
  exists repositories,
    "alpha" ∈ repositories /\
    ((w' = Sample.world0 /\
      exists data,
        OS.ReadFile Manifest.repositoryFile Sample.world0 = Ok data /\
        Sample.Unmarshal data = Ok repositories) \/
     (StronglySorted Str.le repositories /\
      exists data',
        Manifest.MarshalIndent Sample.quote repositories "" "  "
        = Ok data' /\
        OS.ReadFile Manifest.repositoryFile w' = Ok data')).
Proof.
  apply (record_nil_means_recorded Sample.Unmarshal Sample.quote "alpha"
           Sample.world0).
  by vm_compute.
Defined.

(** ** Where the updaters panic *)

Lemma key_None child :
  Html.key child = None <->
  Html.FirstChild child = None \/
  exists a, Html.FirstChild child = Some a /\ Html.FirstChild a = None.
Proof.
  unfold Html.key, Html.anchor_text.
  destruct (Html.FirstChild child) as [a|]; simpl.
  - destruct (Html.FirstChild a) as [t|] eqn:Ht; simpl.
    + split; [done|]. intros [?|(a' & [= <-] & ?)]; congruence.
    + split; [|done]. intros _. right. by exists a.
  - split; [by left | done].
Qed.

Lemma add_rest_Panic child r :
  Html.add_rest child r = Panic <-> r = Panic.
Proof. unfold Html.add_rest. by destruct r as [[cs|]| |]. Qed.

(** X20: the insertion loop of [index] panics exactly when it comes to an
    element child that has no first child, or whose first child has none,
    after element children whose anchor texts are all below the name.  An
    element like that further down the list, behind an entry at or above the
    name, is never looked at. *)
Theorem index_panics_at_a_bare_element
    (children : list Html.Node) (name : string) :
  Html.add_item children name = Panic <->
  exists before child after,
    children = before ++ child :: after /\
    Html.Type_ child = Html.ElementNode /\
    (Html.FirstChild child = None \/
     exists a, Html.FirstChild child = Some a /\ Html.FirstChild a = None) /\
    Html.linked before /\
    Forall (fun k => Str.lt k name) (Html.keys before).
Proof.
  split.
  - induction children as [|child siblings IH]; [done|].
    assert (Hrest : Forall (fun k => Str.lt k name) (Html.keys [child]) ->
              (Html.Type_ child = Html.ElementNode ->
               is_Some (Html.key child)) ->
              Html.add_rest child (Html.add_item siblings name) = Panic ->
              exists before c after,
                child :: siblings = before ++ c :: after /\
                Html.Type_ c = Html.ElementNode /\
                (Html.FirstChild c = None \/
                 exists a, Html.FirstChild c = Some a /\
                           Html.FirstChild a = None) /\
                Html.linked before /\
                Forall (fun k => Str.lt k name) (Html.keys before)).
    { intros Hk Hl Hp%add_rest_Panic.
      destruct (IH Hp) as (before & c & after & -> & Hc & Hb & Hlb & Hkb).
      exists (child :: before), c, after. repeat split; try done.
      - by apply linked_cons.
      - change (child :: before) with ([child] ++ before).
        rewrite html_keys_app. by apply Forall_app. }
    destruct (type_dec child) as [He|Hne].
    + destruct (Html.key child) as [k|] eqn:Hk.
      * pose proof (proj1 (key_anchor_text _ _) Hk) as Ha.
        destruct (String.leb name k) eqn:Hle.
        -- rewrite (add_item_here _ _ _ k He Ha Hle).
           by destruct (String.eqb k name).
        -- rewrite (add_item_next _ _ _ k He Ha Hle).
           apply Hrest; [|by eexists].
           rewrite (keys_entry _ _ k He Hk). repeat constructor.
           by apply str_leb_gt.
      * intros _. exists [], child, siblings.
        repeat split; try done; [by apply key_None | constructor..].
    + rewrite (add_item_skip _ _ _ Hne).
      apply Hrest; [|done]. rewrite (keys_skip _ _ Hne). constructor.
  - intros (before & child & after & -> & He & Hb & Hl & Hk).
    induction before as [|b before IH].
    + apply add_item_panic; [done | by apply key_None].
    + apply linked_cons in Hl as [Hb1 Hl].
      change ((b :: before) ++ child :: after)
        with (b :: (before ++ child :: after)).
      destruct (type_dec b) as [Heb|Hneb].
      * destruct (Hb1 Heb) as [k Hkb].
        rewrite (keys_entry _ _ k Heb Hkb) in Hk.
        apply Forall_cons in Hk as [Hlt Hk].
        rewrite (add_item_next _ _ _ k Heb);
          [|by apply key_anchor_text | by apply str_leb_gt].
        apply add_rest_Panic. by apply IH.
      * rewrite (keys_skip _ _ Hneb) in Hk.
        rewrite (add_item_skip _ _ _ Hneb).
        apply add_rest_Panic. by apply IH.
Qed.

Lemma md_scan_cons e es name :
  Md.scan (e :: es) name
  = (let* c := Md.content e in
     if String.eqb c name then Return Md.Found
     else if String.ltb name c then Return (Md.InsertAt 0)
     else let* r := Md.scan es name in Return (Md.shift r)).
Proof. reflexivity. Qed.

(** X21: the loop of [readme] over the entries panics exactly when it comes
    to an entry of which it cannot read the link text (the item has no
    paragraph, the paragraph no second child, that child no first child,
    or that one is no leaf), after entries whose link texts are all below
    the name. *)
Theorem readme_panics_at_an_entry_without_link
    (entries : list Md.Node) (name : string) :
  Md.scan entries name = Panic <->
  exists i entry,
    entries !! i = Some entry /\
    Md.content entry = Panic /\
    forall j e, j < i -> entries !! j = Some e ->
      exists c, Md.content e = Return c /\ Str.lt c name.
Proof.
  split.
  - induction entries as [|e es IH]; [done|]. rewrite md_scan_cons.
    destruct (Md.content e) as [c| |] eqn:Hc; simpl.
    + destruct (String.eqb c name) eqn:Heq; [done|].
      destruct (String.ltb name c) eqn:Hlt; [done|].
      destruct (Md.scan es name) as [r| |] eqn:Hs; simpl; try done.
      intros _. destruct (IH eq_refl) as (i & entry & Hi & Hp & Hb).
      exists (S i), entry. split; [done|]. split; [done|].
      intros [|j] e' Hj He'; simpl in He'.
      * injection He' as <-. exists c. split; [done|].
        apply str_ltb_ge, str_le_lt_or_eq in Hlt as [|Hlt]; [done|].
        apply str_eqb_neq in Heq. congruence.
      * apply (Hb j); [lia | done].
    + intros _. exists 0, e. split; [done|]. split; [done|]. intros; lia.
    + done.
  - intros (i & entry & Hi & Hp & Hb). revert i Hi Hb.
    induction entries as [|e es IH]; intros i Hi Hb; [done|].
    rewrite md_scan_cons. destruct i as [|i].
    + injection Hi as ->. by rewrite Hp.
    + destruct (Hb 0 e) as (c & Hc & Hlt); [lia | done |].
      rewrite Hc. simpl.
      rewrite (proj2 (str_eqb_neq c name)) by by apply str_lt_neq.
      rewrite (proj2 (str_ltb_ge name c)) by by apply str_lt_le.
      rewrite (IH i); [done | done |].
      intros j e' Hj He'. apply (Hb (S j)); [lia | done].
Qed.

(** X22: [readme] panics, without an error and before anything is written,
    on a README.md that the parser reads as a document with fewer than two
    top-level blocks ([Children[1]] is out of range) or with a leaf as its
    second block, when the new item itself was made. *)
Theorem readme_panics_without_a_list
    (md_Parse : string -> Md.Node) (md_Render : Md.Node -> string)
    (name data : string) (newListItem : Md.Node) (blocks : list Md.Node)
    (w : OS.World) :
  OS.ReadFile Md.readmeFile w = Ok data ->
  Md.new_item (md_Parse (Md.newListItemText name)) = Return newListItem ->
  Md.AsContainer (md_Parse data) = Some blocks ->
  (length blocks < 2 \/
   exists kind literal, blocks !! 1 = Some (Md.Leaf kind literal)) ->
  Md.readme md_Parse md_Render name w = Panic.
Proof.
  intros Hr Hn Hd Hb. unfold Md.readme, Md.readme_update. rewrite Hr, Hn.
  simpl. unfold Md.child. rewrite Hd. simpl.
  destruct Hb as [Hlen|(kind & literal & Hb)].
  - by rewrite (lookup_ge_None_2 blocks 1) by lia.
  - by rewrite Hb.
Qed.

(** A README that holds a heading alone *)
Lemma readme_panics_without_a_list_witness :
  Md.readme
    (fun data =>
       if String.eqb data "# Repositories"
       then Md.Container Md.Document
              [Md.Container Md.Heading [Md.Leaf Md.Text "Repositories"]]
       else Sample.md_Parse [] data)
    Sample.md_Render "alpha"
    (Sample.one_file Md.readmeFile "# Repositories" None)
  = Panic.
Proof.
  apply (readme_panics_without_a_list _ _ "alpha" "# Repositories"
           (Md.entry 0 "alpha")
           [Md.Container Md.Heading [Md.Leaf Md.Text "Repositories"]]).
  - reflexivity.
  - by vm_compute.
  - reflexivity.
  - left. simpl. lia.
Defined.

(** ** The order of the runs of [readme] *)

Lemma str_trichotomy a b : Str.lt a b \/ a = b \/ Str.lt b a.
Proof.
  destruct (str_le_total a b) as [H|H]; apply str_le_lt_or_eq in H;
    destruct H as [H|H]; auto.
Qed.

Lemma str_lt_bools n c :
  Str.lt n c ->
  String.eqb c n = false /\ String.ltb n c = true /\
  String.eqb n c = false /\ String.ltb c n = false.
Proof.
  intros H. pose proof (str_lt_neq _ _ H).
  split; [apply str_eqb_neq; congruence|].
  split; [by apply str_ltb_lt|].
  split; [by apply str_eqb_neq|].
  by apply str_ltb_ge, str_lt_le.
Qed.

Lemma str_eqb_refl n : String.eqb n n = true.
Proof. by apply str_eqb_eq. Qed.

Lemma md_content_flags f f' cs :
  Md.content (Md.ListItem f cs) = Md.content (Md.ListItem f' cs).
Proof. reflexivity. Qed.

Lemma md_content_no_spin e : Md.content e <> Spin.
Proof.
  unfold Md.content, Md.child, deref, run_bind.
  repeat case_match; congruence.
Qed.

Lemma md_add_rest_cons e es cs n :
  Md.add_rest (e :: es) cs n
  = (let* c := Md.content e in
     if String.eqb c n then Return (e :: es)
     else if String.ltb n c then Return (Md.ListItem 0 cs :: e :: es)
     else
       match es with
       | [] =>
           let* e' := Md.set_ListFlags 0 e in
           Return [e'; Md.ListItem Md.ListItemEndOfList cs]
       | _ :: _ =>
           let* r := Md.add_rest es cs n in Return (e :: r)
       end).
Proof. reflexivity. Qed.

Lemma md_add_rest_nil cs n :
  Md.add_rest [] cs n = Return [Md.ListItem Md.ListItemEndOfList cs].
Proof. reflexivity. Qed.

Lemma md_add_rest_found e es cs n :
  Md.content e = Return n -> Md.add_rest (e :: es) cs n = Return (e :: es).
Proof.
  intros H. rewrite md_add_rest_cons, H, run_bind_Return.
  by rewrite str_eqb_refl.
Qed.

Lemma md_add_rest_before e es cs n c :
  Md.content e = Return c -> Str.lt n c ->
  Md.add_rest (e :: es) cs n = Return (Md.ListItem 0 cs :: e :: es).
Proof.
  intros H (E1 & E2 & _)%str_lt_bools.
  by rewrite md_add_rest_cons, H, run_bind_Return, E1, E2.
Qed.

Lemma md_add_rest_last e cs n c :
  Md.content e = Return c -> Str.lt c n ->
  Md.add_rest [e] cs n
  = (let* e' := Md.set_ListFlags 0 e in
     Return [e'; Md.ListItem Md.ListItemEndOfList cs]).
Proof.
  intros H (_ & _ & E1 & E2)%str_lt_bools.
  by rewrite md_add_rest_cons, H, run_bind_Return, E1, E2.
Qed.

Lemma md_add_rest_next e es cs n c :
  Md.content e = Return c -> Str.lt c n -> es <> [] ->
  Md.add_rest (e :: es) cs n
  = (let* r := Md.add_rest es cs n in Return (e :: r)).
Proof.
  intros H (_ & _ & E1 & E2)%str_lt_bools Hes.
  rewrite md_add_rest_cons, H, run_bind_Return, E1, E2.
  by destruct es.
Qed.

Lemma md_add_rest_panic e es cs n :
  Md.content e = Panic -> Md.add_rest (e :: es) cs n = Panic.
Proof. intros H. by rewrite md_add_rest_cons, H. Qed.

Lemma md_set_ListFlags_no_spin v e : Md.set_ListFlags v e <> Spin.
Proof. by destruct e. Qed.

Lemma md_add_rest_no_spin es cs n : Md.add_rest es cs n <> Spin.
Proof.
  induction es as [|e es IH]; [done|]. rewrite md_add_rest_cons.
  pose proof (md_content_no_spin e).
  destruct (Md.content e) as [c| |]; simpl; try done.
  destruct (String.eqb c n); [done|]. destruct (String.ltb n c); [done|].
  destruct es as [|e1 es].
  - by destruct e.
  - by destruct (Md.add_rest (e1 :: es) cs n).
Qed.

Lemma md_add_rest_nonempty es cs n out :
  Md.add_rest es cs n = Return out -> out <> [].
Proof.
  destruct es as [|e es]; [by intros [= <-]|]. rewrite md_add_rest_cons.
  destruct (Md.content e) as [c| |]; simpl; try done.
  destruct (String.eqb c n); [by intros [= <-]|].
  destruct (String.ltb n c); [by intros [= <-]|].
  destruct es as [|e1 es].
  - destruct (Md.set_ListFlags 0 e); simpl; [|done..]. by intros [= <-].
  - destruct (Md.add_rest (e1 :: es) cs n); simpl; [|done..].
    by intros [= <-].
Qed.

(** The result of a run that goes past [e] starts with an entry that reads
    like [e]. *)
Lemma md_add_rest_head e es cs n c out :
  Md.content e = Return c -> Str.lt c n ->
  Md.add_rest (e :: es) cs n = Return out ->
  exists h t, out = h :: t /\ Md.content h = Return c /\ t <> [] /\
    forall v, Md.set_ListFlags v h = Md.set_ListFlags v e.
Proof.
  intros Hc Hlt. destruct es as [|e1 es].
  - rewrite (md_add_rest_last _ _ _ c) by done.
    destruct (Md.set_ListFlags 0 e) as [e'| |] eqn:E; simpl; [|done..].
    intros [= <-]. apply set_ListFlags_inv in E as (f0 & c0 & -> & ->).
    by exists (Md.ListItem 0 c0), [Md.ListItem Md.ListItemEndOfList cs].
  - rewrite (md_add_rest_next _ _ _ _ c) by done.
    destruct (Md.add_rest (e1 :: es) cs n) as [r| |] eqn:E; simpl; [|done..].
    intros [= <-]. exists e, r. repeat split; try done.
    by eapply md_add_rest_nonempty.
Qed.

(** [readme_entries] from an entry that is not the first *)
Lemma md_splice_rest front es cs n :
  front <> [] -> es <> [] ->
  (let* r := Md.scan es n in
   match r with
   | Md.Found => Return (front ++ es)
   | Md.InsertAt i =>
       Md.splice (front ++ es) (Md.ListItem 0 cs) (length front + i)
   end)
  = (let* r := Md.add_rest es cs n in Return (front ++ r)).
Proof.
  intros Hf Hes. revert front Hf.
  induction es as [|e es IH]; intros front Hf; [done|].
  rewrite md_scan_cons, md_add_rest_cons.
  destruct (Md.content e) as [c| |]; simpl; try done.
  destruct (String.eqb c n); [done|].
  destruct (String.ltb n c).
  - simpl. rewrite Nat.add_0_r, splice_middle.
    + by rewrite take_app_length, drop_app_length.
    + destruct front; [done | simpl; lia].
    + rewrite length_app. simpl. lia.
  - destruct es as [|e1 es].
    + simpl. rewrite (splice_append front e) by (rewrite length_app; simpl; lia).
      destruct (Md.set_ListFlags 0 e); simpl; try done.
    + specialize (IH ltac:(done) (front ++ [e]) ltac:(by destruct front)).
      set (es' := e1 :: es) in *. clearbody es'.
      assert (Hcons : forall l : list Md.Node,
                (front ++ [e]) ++ l = front ++ e :: l)
        by (intros l; by rewrite <- app_assoc).
      assert (Hlen : forall i,
                length (front ++ [e]) + i = length front + S i)
        by (intros i; rewrite length_app; simpl; lia).
      destruct (Md.scan es' n) as [[|i]| |],
        (Md.add_rest es' cs n) as [r| |]; simpl in *;
        rewrite ?Hcons, ?Hlen in IH; try done.
Qed.

Lemma md_add_one_nil cs n :
  Md.add_one [] (Md.ListItem 0 cs) n
  = Return [Md.ListItem Md.ListItemEndOfList cs].
Proof. reflexivity. Qed.

Lemma md_add_one_found e es new n :
  Md.content e = Return n -> Md.add_one (e :: es) new n = Return (e :: es).
Proof.
  intros H. unfold Md.add_one, Md.readme_entries.
  rewrite md_scan_cons, H, run_bind_Return. by rewrite str_eqb_refl.
Qed.

Lemma md_add_one_panic e es new n :
  Md.content e = Panic -> Md.add_one (e :: es) new n = Panic.
Proof.
  intros H. unfold Md.add_one, Md.readme_entries.
  by rewrite md_scan_cons, H.
Qed.

Lemma md_add_one_before e es cs n c :
  Md.content e = Return c -> Str.lt n c ->
  Md.add_one (e :: es) (Md.ListItem 0 cs) n
  = (let* e' := Md.set_ListFlags 0 e in
     Return (Md.ListItem Md.ListItemBeginningOfList cs :: e' :: es)).
Proof.
  intros H (E1 & E2 & _)%str_lt_bools. unfold Md.add_one, Md.readme_entries.
  rewrite md_scan_cons, H, run_bind_Return, E1, E2, run_bind_Return.
  rewrite splice_prepend. by destruct (Md.set_ListFlags 0 e).
Qed.

Lemma md_add_one_last e cs n c :
  Md.content e = Return c -> Str.lt c n ->
  Md.add_one [e] (Md.ListItem 0 cs) n
  = (let* e' := Md.set_ListFlags 0 e in
     Return [e'; Md.ListItem Md.ListItemEndOfList cs]).
Proof.
  intros H (_ & _ & E1 & E2)%str_lt_bools. unfold Md.add_one, Md.readme_entries.
  rewrite md_scan_cons, H, run_bind_Return, E1, E2. simpl Md.scan.
  rewrite !run_bind_Return. simpl Md.shift.
  pose proof (splice_append [] e 0 cs 1 ltac:(simpl; lia)) as Hs.
  simpl app in Hs. cbv iota beta. rewrite Hs.
  by destruct (Md.set_ListFlags 0 e).
Qed.

Lemma md_add_one_next e es cs n c :
  Md.content e = Return c -> Str.lt c n -> es <> [] ->
  Md.add_one (e :: es) (Md.ListItem 0 cs) n
  = (let* r := Md.add_rest es cs n in Return (e :: r)).
Proof.
  intros H (_ & _ & E1 & E2)%str_lt_bools Hes.
  pose proof (md_splice_rest [e] es cs n ltac:(done) Hes) as HG.
  unfold Md.add_one, Md.readme_entries.
  rewrite md_scan_cons, H, run_bind_Return, E1, E2.
  destruct (Md.scan es n) as [[|i]| |]; simpl in *.
  - by rewrite <- HG.
  - rewrite <- HG.
    by destruct (Md.splice (e :: es) (Md.ListItem 0 cs) (S i)).
  - by rewrite <- HG.
  - by rewrite <- HG.
Qed.

Section ReadmeOrder.

(** The children of the new list item of each name *)
Variable kids : string -> list Md.Node.

Let item (n : string) : Md.Node := Md.ListItem 0 (kids n).
Let good (n : string) : Prop := Md.content (item n) = Return n.

Lemma md_add_rest_comm_nil a b :
  good a -> good b -> Str.lt a b ->
  Md.add_rest [Md.ListItem Md.ListItemEndOfList (kids a)] (kids b) b
  = Md.add_rest [Md.ListItem Md.ListItemEndOfList (kids b)] (kids a) a.
Proof.
  intros Ha Hb Hlt.
  rewrite (md_add_rest_last _ _ _ a) by done.
  by rewrite (md_add_rest_before _ _ _ _ b).
Qed.

(** The run for [a], at whose name [e] stands *)
Lemma md_add_rest_comm_found e es a b :
  good a -> good b -> Md.content e = Return a ->
  (let* l := Md.add_rest (e :: es) (kids a) a in Md.add_rest l (kids b) b)
  = (let* l := Md.add_rest (e :: es) (kids b) b in Md.add_rest l (kids a) a).
Proof.
  intros Ha Hb He. rewrite (md_add_rest_found e es (kids a)) by done.
  rewrite run_bind_Return.
  destruct (str_trichotomy a b) as [Hlt|[<-|Hlt]].
  - destruct (Md.add_rest (e :: es) (kids b) b) as [l| |] eqn:E; [|done..].
    destruct (md_add_rest_head _ _ _ _ _ _ He Hlt E) as (h & t & -> & Hh & _).
    rewrite ?run_bind_Return. by rewrite md_add_rest_found.
  - rewrite md_add_rest_found by done. rewrite run_bind_Return.
    by rewrite md_add_rest_found.
  - rewrite (md_add_rest_before _ _ _ _ a) by done. rewrite ?run_bind_Return.
    rewrite (md_add_rest_next _ _ _ _ b) by done.
    by rewrite md_add_rest_found.
Qed.

(** Both runs stop at [e], the one for [a] in front of the one for [b] *)
Lemma md_add_rest_comm_before e es a b c :
  good a -> good b -> Md.content e = Return c ->
  Str.lt a c -> Str.lt b c -> Str.lt a b ->
  (let* l := Md.add_rest (e :: es) (kids a) a in Md.add_rest l (kids b) b)
  = (let* l := Md.add_rest (e :: es) (kids b) b in Md.add_rest l (kids a) a).
Proof.
  intros Ha Hb He Hac Hbc Hab.
  rewrite (md_add_rest_before e es (kids a) a c) by done.
  rewrite (md_add_rest_before e es (kids b) b c) by done.
  rewrite !run_bind_Return.
  rewrite (md_add_rest_next _ _ _ _ a) by done.
  rewrite (md_add_rest_before e es (kids b) b c) by done.
  by rewrite (md_add_rest_before _ _ _ _ b).
Qed.

(** The run for [a] stops at [e], the run for [b] goes past it *)
Lemma md_add_rest_comm_stop e es a b c :
  good a -> good b -> Md.content e = Return c ->
  Str.lt a c -> Str.lt c b ->
  (let* l := Md.add_rest (e :: es) (kids a) a in Md.add_rest l (kids b) b)
  = (let* l := Md.add_rest (e :: es) (kids b) b in Md.add_rest l (kids a) a).
Proof.
  intros Ha Hb He Hac Hcb.
  assert (Hab : Str.lt a b) by by eapply str_lt_trans.
  rewrite (md_add_rest_before e es (kids a) a c) by done.
  rewrite run_bind_Return.
  rewrite (md_add_rest_next _ _ _ _ a) by done.
  destruct (Md.add_rest (e :: es) (kids b) b) as [l| |] eqn:E; [|done..].
  destruct (md_add_rest_head _ _ _ _ _ _ He Hcb E) as (h & t & -> & Hh & _).
  rewrite ?run_bind_Return. by rewrite (md_add_rest_before _ _ _ _ c).
Qed.

(** Both runs go past [e] *)
Lemma md_add_rest_comm_pass e es a b c :
  good a -> good b -> Md.content e = Return c ->
  Str.lt c a -> Str.lt c b ->
  (let* l := Md.add_rest es (kids a) a in Md.add_rest l (kids b) b)
  = (let* l := Md.add_rest es (kids b) b in Md.add_rest l (kids a) a) ->
  (let* l := Md.add_rest (e :: es) (kids a) a in Md.add_rest l (kids b) b)
  = (let* l := Md.add_rest (e :: es) (kids b) b in Md.add_rest l (kids a) a).
Proof.
  intros Ha Hb He Hca Hcb IH.
  assert (Hs : forall n m,
            Str.lt c n -> Str.lt c m ->
            (let* l := Md.add_rest (e :: es) (kids n) n in
             Md.add_rest l (kids m) m)
            = (let* e' := match es with
                          | [] => Md.set_ListFlags 0 e
                          | _ => Return e
                          end in
               let* r := (let* l := Md.add_rest es (kids n) n in
                          Md.add_rest l (kids m) m) in
               Return (e' :: r))).
  { intros n m Hn Hm. destruct es as [|e1 es].
    - rewrite (md_add_rest_last _ _ _ c) by done.
      destruct (Md.set_ListFlags 0 e) as [e'| |] eqn:E; [|done..].
      apply set_ListFlags_inv in E as (f0 & c0 & -> & ->).
      rewrite !run_bind_Return.
      by rewrite (md_add_rest_next _ _ _ _ c).
    - rewrite (md_add_rest_next _ _ _ _ c) by done.
      rewrite !run_bind_Return.
      destruct (Md.add_rest (e1 :: es) (kids n) n) as [r| |] eqn:E;
        [|done..].
      rewrite !run_bind_Return.
      rewrite (md_add_rest_next _ _ _ _ c);
        [done | done | done | by eapply md_add_rest_nonempty]. }
  by rewrite (Hs a b), (Hs b a), IH.
Qed.

Lemma md_add_rest_comm es a b :
  good a -> good b ->
  (let* l := Md.add_rest es (kids a) a in Md.add_rest l (kids b) b)
  = (let* l := Md.add_rest es (kids b) b in Md.add_rest l (kids a) a).
Proof.
  intros Ha Hb. induction es as [|e es IH].
  - rewrite !md_add_rest_nil, !run_bind_Return.
    destruct (str_trichotomy a b) as [Hlt|[<-|Hlt]]; [|done|].
    + by apply md_add_rest_comm_nil.
    + symmetry. by apply md_add_rest_comm_nil.
  - destruct (Md.content e) as [c| |] eqn:He.
    + destruct (str_trichotomy a c) as [Hac|[->|Hca]].
      * destruct (str_trichotomy b c) as [Hbc|[->|Hcb]].
        -- destruct (str_trichotomy a b) as [Hlt|[<-|Hlt]]; [|done|].
           ++ by apply (md_add_rest_comm_before _ _ _ _ c).
           ++ symmetry. by apply (md_add_rest_comm_before _ _ _ _ c).
        -- symmetry. by apply md_add_rest_comm_found.
        -- by apply (md_add_rest_comm_stop _ _ _ _ c).
      * by apply md_add_rest_comm_found.
      * destruct (str_trichotomy b c) as [Hbc|[->|Hcb]].
        -- symmetry. by apply (md_add_rest_comm_stop _ _ _ _ c).
        -- symmetry. by apply md_add_rest_comm_found.
        -- by apply (md_add_rest_comm_pass _ _ _ _ c).
    + by rewrite !md_add_rest_panic.
    + by destruct (md_content_no_spin e).
Qed.

Lemma md_add_one_head e es cs n c out :
  Md.content e = Return c -> Str.lt c n ->
  Md.add_one (e :: es) (Md.ListItem 0 cs) n = Return out ->
  exists h t, out = h :: t /\ Md.content h = Return c /\ t <> [].
Proof.
  intros Hc Hlt. destruct es as [|e1 es].
  - rewrite (md_add_one_last _ _ _ c) by done.
    destruct (Md.set_ListFlags 0 e) as [e'| |] eqn:E; simpl; [|done..].
    intros [= <-]. apply set_ListFlags_inv in E as (f0 & c0 & -> & ->).
    by exists (Md.ListItem 0 c0), [Md.ListItem Md.ListItemEndOfList cs].
  - rewrite (md_add_one_next _ _ _ _ c) by done.
    destruct (Md.add_rest (e1 :: es) cs n) as [r| |] eqn:E; simpl; [|done..].
    intros [= <-]. exists e, r. repeat split; try done.
    by eapply md_add_rest_nonempty.
Qed.

(** The same four cases at the head of the list, where the item that goes
    in front takes the beginning-of-list flag from [e] *)
Lemma md_add_one_comm_found e es a b :
  good a -> good b -> Md.content e = Return a ->
  (let* l := Md.add_one (e :: es) (item a) a in Md.add_one l (item b) b)
  = (let* l := Md.add_one (e :: es) (item b) b in Md.add_one l (item a) a).
Proof.
  intros Ha Hb He. rewrite (md_add_one_found e es (item a)) by done.
  rewrite run_bind_Return.
  destruct (str_trichotomy a b) as [Hlt|[<-|Hlt]].
  - destruct (Md.add_one (e :: es) (item b) b) as [l| |] eqn:E; [|done..].
    destruct (md_add_one_head _ _ _ _ _ _ He Hlt E) as (h & t & -> & Hh & _).
    rewrite run_bind_Return. by rewrite md_add_one_found.
  - rewrite md_add_one_found by done. rewrite run_bind_Return.
    by rewrite md_add_one_found.
  - unfold item at 1 2. rewrite (md_add_one_before _ _ _ _ a) by done.
    destruct (Md.set_ListFlags 0 e) as [e'| |] eqn:E; [|done..].
    apply set_ListFlags_inv in E as (f0 & c0 & -> & ->).
    rewrite !run_bind_Return.
    unfold item. rewrite (md_add_one_next _ _ _ _ b) by done.
    by rewrite md_add_rest_found.
Qed.

Lemma md_add_one_comm_before e es a b c :
  good a -> good b -> Md.content e = Return c ->
  Str.lt a c -> Str.lt b c -> Str.lt a b ->
  (let* l := Md.add_one (e :: es) (item a) a in Md.add_one l (item b) b)
  = (let* l := Md.add_one (e :: es) (item b) b in Md.add_one l (item a) a).
Proof.
  intros Ha Hb He Hac Hbc Hab. unfold item.
  rewrite (md_add_one_before e es (kids a) a c) by done.
  rewrite (md_add_one_before e es (kids b) b c) by done.
  destruct (Md.set_ListFlags 0 e) as [e'| |] eqn:E; [|done..].
  apply set_ListFlags_inv in E as (f0 & c0 & -> & ->).
  rewrite !run_bind_Return.
  rewrite (md_add_one_next _ _ _ _ a) by done.
  rewrite (md_add_rest_before _ _ _ _ c) by done.
  by rewrite (md_add_one_before _ _ _ _ b).
Qed.

Lemma md_add_one_comm_stop e es a b c :
  good a -> good b -> Md.content e = Return c ->
  Str.lt a c -> Str.lt c b ->
  (let* l := Md.add_one (e :: es) (item a) a in Md.add_one l (item b) b)
  = (let* l := Md.add_one (e :: es) (item b) b in Md.add_one l (item a) a).
Proof.
  intros Ha Hb He Hac Hcb. unfold item.
  assert (Hab : Str.lt a b) by by eapply str_lt_trans.
  rewrite (md_add_one_before e es (kids a) a c) by done.
  destruct (Md.set_ListFlags 0 e) as [e'| |] eqn:E.
  - apply set_ListFlags_inv in E as (f0 & c0 & -> & ->).
    rewrite !run_bind_Return.
    rewrite (md_add_one_next _ _ _ _ a) by done.
    destruct es as [|e1 es].
    + rewrite (md_add_rest_last _ _ _ c), (md_add_one_last _ _ _ c) by done.
      simpl Md.set_ListFlags. rewrite !run_bind_Return.
      by rewrite (md_add_one_before _ _ _ _ c).
    + rewrite (md_add_rest_next _ _ _ _ c), (md_add_one_next _ _ _ _ c)
        by done.
      destruct (Md.add_rest (e1 :: es) (kids b) b) as [r| |]; [|done..].
      rewrite !run_bind_Return.
      by rewrite (md_add_one_before _ _ _ _ c).
  - simpl run_bind at 1. destruct es as [|e1 es].
    + rewrite (md_add_one_last _ _ _ c) by done. by rewrite E.
    + rewrite (md_add_one_next _ _ _ _ c) by done.
      pose proof (md_add_rest_no_spin (e1 :: es) (kids b) b) as Hs.
      destruct (Md.add_rest (e1 :: es) (kids b) b) as [r| |]; [|done..].
      rewrite !run_bind_Return.
      rewrite (md_add_one_before _ _ _ _ c) by done. by rewrite E.
  - by destruct (md_set_ListFlags_no_spin 0 e).
Qed.

Lemma md_add_one_comm_pass e es a b c :
  good a -> good b -> Md.content e = Return c ->
  Str.lt c a -> Str.lt c b ->
  (let* l := Md.add_one (e :: es) (item a) a in Md.add_one l (item b) b)
  = (let* l := Md.add_one (e :: es) (item b) b in Md.add_one l (item a) a).
Proof.
  intros Ha Hb He Hca Hcb.
  assert (Hs : forall n m,
            Str.lt c n -> Str.lt c m ->
            (let* l := Md.add_one (e :: es) (item n) n in
             Md.add_one l (item m) m)
            = (let* e' := match es with
                          | [] => Md.set_ListFlags 0 e
                          | _ => Return e
                          end in
               let* r := (let* l := Md.add_rest es (kids n) n in
                          Md.add_rest l (kids m) m) in
               Return (e' :: r))).
  { intros n m Hn Hm. unfold item. destruct es as [|e1 es].
    - rewrite (md_add_one_last _ _ _ c) by done.
      destruct (Md.set_ListFlags 0 e) as [e'| |] eqn:E; [|done..].
      apply set_ListFlags_inv in E as (f0 & c0 & -> & ->).
      rewrite md_add_rest_nil, !run_bind_Return.
      by rewrite (md_add_one_next _ _ _ _ c).
    - rewrite (md_add_one_next _ _ _ _ c) by done.
      rewrite !run_bind_Return.
      destruct (Md.add_rest (e1 :: es) (kids n) n) as [r| |] eqn:E;
        [|done..].
      rewrite !run_bind_Return.
      rewrite (md_add_one_next _ _ _ _ c);
        [done | done | done | by eapply md_add_rest_nonempty]. }
  by rewrite (Hs a b), (Hs b a), md_add_rest_comm.
Qed.

(** On a list that is not empty, one run after another gives the list that
    the two give the other way round. *)
Lemma md_add_one_comm entries a b :
  entries <> [] -> good a -> good b ->
  (let* l := Md.add_one entries (item a) a in Md.add_one l (item b) b)
  = (let* l := Md.add_one entries (item b) b in Md.add_one l (item a) a).
Proof.
  intros Hne Ha Hb. destruct entries as [|e es]; [done|].
  destruct (Md.content e) as [c| |] eqn:He.
  - destruct (str_trichotomy a c) as [Hac|[->|Hca]].
    + destruct (str_trichotomy b c) as [Hbc|[->|Hcb]].
      * destruct (str_trichotomy a b) as [Hlt|[<-|Hlt]]; [|done|].
        -- by apply (md_add_one_comm_before _ _ _ _ c).
        -- symmetry. by apply (md_add_one_comm_before _ _ _ _ c).
      * symmetry. by apply md_add_one_comm_found.
      * by apply (md_add_one_comm_stop _ _ _ _ c).
    + by apply md_add_one_comm_found.
    + destruct (str_trichotomy b c) as [Hbc|[->|Hcb]].
      * symmetry. by apply (md_add_one_comm_stop _ _ _ _ c).
      * symmetry. by apply md_add_one_comm_found.
      * by apply (md_add_one_comm_pass _ _ _ _ c).
  - by rewrite !md_add_one_panic.
  - by destruct (md_content_no_spin e).
Qed.

End ReadmeOrder.

Section ReadmeRuns.

Variable kids : string -> list Md.Node.

Let item (n : string) : Md.Node := Md.ListItem 0 (kids n).
Let good (n : string) : Prop := Md.content (item n) = Return n.

(** A second run for the same name changes nothing. *)
Lemma md_add_one_idem entries a :
  good a ->
  (let* l := Md.add_one entries (item a) a in Md.add_one l (item a) a)
  = Md.add_one entries (item a) a.
Proof.
  intros Ha. unfold Md.add_one at 1 3.
  destruct (Md.readme_entries entries (item a) a) as [[out|]| |] eqn:E;
    [| |done..]; rewrite !run_bind_Return; simpl default.
  - unfold Md.add_one.
    by rewrite (readme_entries_again _ _ _ (item a) _ _ Ha E).
  - unfold Md.add_one. by rewrite E.
Qed.

Lemma md_add_one_nonempty entries a out :
  entries <> [] ->
  Md.add_one entries (item a) a = Return out -> out <> [].
Proof.
  intros Hne. unfold Md.add_one, Md.readme_entries.
  destruct (Md.scan entries a) as [[|i]| |] eqn:Hs; simpl; try done.
  - by intros [= <-].
  - destruct (Md.splice entries (item a) i) as [out'| |] eqn:Hsp;
      simpl; try done.
    intros [= <-].
    destruct (splice_inv _ _ _ _ _ (scan_bound _ _ _ Hs) Hsp) as (_ & f' & Hi).
    intros ->. by rewrite lookup_nil in Hi.
Qed.

Lemma md_add_all_perm names names' :
  names ≡ₚ names' ->
  Forall good names ->
  forall entries, entries <> [] ->
    Md.add_all item names entries = Md.add_all item names' entries.
Proof.
  induction 1 as [|x l l' Hp IH|x y l|l l' l'' Hp1 IH1 Hp2 IH2];
    intros Hg entries Hne.
  - done.
  - apply Forall_cons in Hg as [Hx Hg]. cbn [Md.add_all].
    destruct (Md.add_one entries (item x) x) as [l1| |] eqn:E; [|done..].
    rewrite !run_bind_Return. apply IH; [done|].
    by eapply md_add_one_nonempty.
  - apply Forall_cons in Hg as [Hy Hg]. apply Forall_cons in Hg as [Hx Hg].
    cbn [Md.add_all]. rewrite <- !run_bind_assoc. unfold item.
    by rewrite (md_add_one_comm kids entries y x).
  - rewrite IH1 by done. apply IH2; [|done]. by rewrite <- Hp1.
Qed.

Lemma md_add_all_again x names entries :
  x ∈ names -> Forall good names -> entries <> [] ->
  Md.add_all item (x :: names) entries = Md.add_all item names entries.
Proof.
  intros Hin Hg Hne.
  assert (Hx : good x) by by eapply (proj1 (Forall_forall _ _) Hg).
  apply elem_of_Permutation in Hin as (rest & Hp).
  rewrite (md_add_all_perm (x :: names) (x :: x :: rest));
    [|by rewrite Hp | by constructor | done].
  rewrite (md_add_all_perm names (x :: rest)) by done.
  cbn [Md.add_all]. rewrite <- run_bind_assoc. by rewrite md_add_one_idem.
Qed.

Lemma md_add_all_remove_dups names entries :
  Forall good names -> entries <> [] ->
  Md.add_all item (remove_dups names) entries
  = Md.add_all item names entries.
Proof.
  intros Hg. revert entries.
  induction names as [|x names IH]; intros entries Hne; [done|].
  apply Forall_cons in Hg as [Hx Hg].
  simpl remove_dups. destruct (decide_rel _ x names) as [Hin|Hnin].
  - by rewrite IH, md_add_all_again.
  - cbn [Md.add_all].
    destruct (Md.add_one entries (item x) x) as [l1| |] eqn:E; [|done..].
    rewrite !run_bind_Return. apply IH; [done|].
    by eapply md_add_one_nonempty.
Qed.

Lemma md_add_all_same_names names names' entries :
  (forall k, k ∈ names <-> k ∈ names') ->
  Forall good names -> entries <> [] ->
  Md.add_all item names entries = Md.add_all item names' entries.
Proof.
  intros H Hg Hne.
  assert (Hg' : Forall good names').
  { rewrite Forall_forall in Hg |- *. intros k Hk. by apply Hg, H. }
  rewrite <- (md_add_all_remove_dups names), <- (md_add_all_remove_dups names')
    by done.
  apply md_add_all_perm; [| |done].
  - apply NoDup_Permutation; [apply NoDup_remove_dups..|].
    intros k. by rewrite !elem_of_remove_dups.
  - rewrite Forall_forall in Hg |- *. intros k Hk.
    by apply Hg, elem_of_remove_dups.
Qed.

End ReadmeRuns.

(** ** The order of the runs of [readme], each on the file that it reads *)

Lemma md_clear_content e1 e2 :
  Md.clear e1 = Md.clear e2 -> Md.content e1 = Md.content e2.
Proof. destruct e1, e2; cbn [Md.clear]; intros [= ]; by subst. Qed.

Lemma md_clear_set_ListFlags v e1 e2 :
  Md.clear e1 = Md.clear e2 ->
  Md.set_ListFlags v e1 = Md.set_ListFlags v e2.
Proof. destruct e1, e2; cbn [Md.clear]; intros [= ]; by subst. Qed.

Lemma run_map_Return {A B} (f : A -> B) (a : A) :
  run_map f (Return a) = Return (f a).
Proof. reflexivity. Qed.

Lemma run_map_bind {A B C} (f : B -> C) (m : run A) (k : A -> run B) :
  run_map f (let* a := m in k a) = (let* a := m in run_map f (k a)).
Proof. by destruct m. Qed.

Lemma run_map_inj_Return {A B} (f : A -> B) (m : run A) (b : B) :
  run_map f m = Return b -> exists a, m = Return a /\ f a = b.
Proof. destruct m as [a| |]; [|done..]. intros [= <-]. by exists a. Qed.

(** A run reads the entries through their link texts and changes flags by
    position: on lists that are alike but for list flags it gives lists
    that are alike but for list flags. *)
Lemma md_add_rest_respect l1 l2 cs n :
  map Md.clear l1 = map Md.clear l2 ->
  run_map (map Md.clear) (Md.add_rest l1 cs n)
  = run_map (map Md.clear) (Md.add_rest l2 cs n).
Proof.
  revert l2. induction l1 as [|e1 t1 IH]; intros [|e2 t2] H; try done.
  injection H as He Ht.
  rewrite (md_add_rest_cons e1 t1), (md_add_rest_cons e2 t2).
  rewrite (md_clear_content _ _ He).
  destruct (Md.content e2) as [c| |]; [|done..]. rewrite !run_bind_Return.
  destruct (String.eqb c n).
  { rewrite !run_map_Return. by rewrite !map_cons, He, Ht. }
  destruct (String.ltb n c).
  { rewrite !run_map_Return. by rewrite !map_cons, He, Ht. }
  specialize (IH t2 Ht).
  destruct t1 as [|a1 t1], t2 as [|a2 t2]; try done; cbv iota.
  - rewrite (md_clear_set_ListFlags 0 _ _ He).
    by destruct (Md.set_ListFlags 0 e2).
  - rewrite !run_map_bind.
    destruct (Md.add_rest (a1 :: t1) cs n) as [r1| |],
      (Md.add_rest (a2 :: t2) cs n) as [r2| |]; try done.
    rewrite !run_map_Return in IH. injection IH as IH.
    rewrite !run_bind_Return, !run_map_Return. by rewrite !map_cons, He, IH.
Qed.

Lemma md_add_one_respect l1 l2 cs n :
  map Md.clear l1 = map Md.clear l2 ->
  run_map (map Md.clear) (Md.add_one l1 (Md.ListItem 0 cs) n)
  = run_map (map Md.clear) (Md.add_one l2 (Md.ListItem 0 cs) n).
Proof.
  destruct l1 as [|e1 t1], l2 as [|e2 t2]; try done.
  intros [= He Ht]. pose proof (md_clear_content _ _ He) as Hc.
  destruct (Md.content e2) as [c| |] eqn:Hc2.
  - destruct (str_trichotomy n c) as [Hlt|[->|Hlt]].
    + rewrite !(md_add_one_before _ _ _ _ c) by done.
      rewrite (md_clear_set_ListFlags 0 _ _ He).
      destruct (Md.set_ListFlags 0 e2) as [e'| |]; [|done..].
      rewrite !run_bind_Return, !run_map_Return. by rewrite !map_cons, Ht.
    + rewrite !md_add_one_found by done. rewrite !run_map_Return.
      by rewrite !map_cons, He, Ht.
    + destruct t1 as [|a1 t1], t2 as [|a2 t2]; try done.
      * rewrite !(md_add_one_last _ _ _ c) by done.
        rewrite (md_clear_set_ListFlags 0 _ _ He).
        by destruct (Md.set_ListFlags 0 e2).
      * rewrite !(md_add_one_next _ _ _ _ c) by done.
        pose proof (md_add_rest_respect _ _ cs n Ht) as IH.
        rewrite !run_map_bind.
        destruct (Md.add_rest (a1 :: t1) cs n) as [r1| |],
          (Md.add_rest (a2 :: t2) cs n) as [r2| |]; try done.
        rewrite !run_map_Return in IH. injection IH as IH.
        rewrite !run_bind_Return, !run_map_Return.
        by rewrite !map_cons, He, IH.
  - by rewrite !md_add_one_panic.
  - by destruct (md_content_no_spin e2).
Qed.

Section ReadmeFiles.

(** What the parser makes of the entries that were rendered, and the
    children of the new list item of each name *)
Variable reparse : list Md.Node -> list Md.Node.
Variable kids : string -> list Md.Node.

Hypothesis reparse_clear :
  forall entries, map Md.clear (reparse entries) = map Md.clear entries.

Let item (n : string) : Md.Node := Md.ListItem 0 (kids n).
Let good (n : string) : Prop := Md.content (item n) = Return n.

(** The runs of the program and the runs on the entries in memory give
    lists that are alike but for list flags. *)
Lemma readme_runs_add_all names entries1 entries2 :
  map Md.clear entries1 = map Md.clear entries2 ->
  run_map (map Md.clear) (Md.readme_runs reparse item names entries1)
  = run_map (map Md.clear) (Md.add_all item names entries2).
Proof.
  revert entries1 entries2.
  induction names as [|n names IH]; intros es1 es2 H.
  - cbn [Md.readme_runs Md.add_all]. by rewrite !run_map_Return, H.
  - cbn [Md.readme_runs Md.add_all].
    pose proof (md_add_one_respect es1 es2 (kids n) n H) as Hr.
    unfold Md.add_one in *. fold (item n) in Hr.
    destruct (Md.readme_entries es1 (item n) n) as [r1| |],
      (Md.readme_entries es2 (item n) n) as [r2| |]; try done.
    rewrite !run_bind_Return, !run_map_Return in Hr. injection Hr as Hr.
    rewrite !run_bind_Return. apply IH.
    destruct r1 as [es1'|]; [by rewrite reparse_clear | done].
Qed.

End ReadmeFiles.

Section ReadmeFilesOrder.

Variable kids : string -> list Md.Node.

Let item (n : string) : Md.Node := Md.ListItem 0 (kids n).
Let good (n : string) : Prop := Md.content (item n) = Return n.

Lemma md_add_all_respect names entries1 entries2 :
  map Md.clear entries1 = map Md.clear entries2 ->
  run_map (map Md.clear) (Md.add_all item names entries1)
  = run_map (map Md.clear) (Md.add_all item names entries2).
Proof.
  intros H.
  transitivity (run_map (map Md.clear)
                  (Md.readme_runs id item names entries1));
    [symmetry|]; by apply (readme_runs_add_all id kids).
Qed.

(** From a list without entries, the first run leaves its item alone in
    the list. *)
Lemma md_add_all_nil_head n names :
  good n ->
  Md.add_all item (n :: names) []
  = Md.add_all item (n :: names)
      [Md.ListItem Md.ListItemEndOfList (kids n)].
Proof.
  intros Hn. cbn [Md.add_all]. unfold item at 1 3.
  rewrite md_add_one_nil, run_bind_Return.
  by rewrite md_add_one_found.
Qed.

(** Apart from list flags, the entries after a series of runs in memory
    depend on the names alone, also from a list without entries. *)
Lemma md_add_all_same_names_clear names names' entries :
  (forall k, k ∈ names <-> k ∈ names') ->
  Forall good names ->
  run_map (map Md.clear) (Md.add_all item names entries)
  = run_map (map Md.clear) (Md.add_all item names' entries).
Proof.
  intros H Hg. destruct entries as [|e es];
    [|by rewrite (md_add_all_same_names kids names names')].
  destruct names as [|n names], names' as [|n' names']; [done| | |].
  { assert (Hin : n' ∈ []) by (apply H; left). by apply elem_of_nil in Hin. }
  { assert (Hin : n ∈ []) by (apply H; left). by apply elem_of_nil in Hin. }
  assert (Hg' : Forall good (n' :: names')).
  { rewrite Forall_forall in Hg |- *. intros k Hk. by apply Hg, H. }
  assert (Hn : good n) by by apply Forall_cons in Hg as [? _].
  assert (Hn' : good n') by by apply Forall_cons in Hg' as [? _].
  assert (Hin : n ∈ n' :: names') by (apply H; left).
  assert (Hin' : n' ∈ n' :: names') by left.
  rewrite (md_add_all_nil_head n names Hn).
  rewrite (md_add_all_nil_head n' names' Hn').
  rewrite (md_add_all_same_names kids (n :: names) (n' :: names')) by done.
  remember (n' :: names') as l eqn:Hl. clear Hl H Hg names names'.
  unfold item.
  destruct (str_trichotomy n n') as [Hlt|[->|Hlt]]; [|done|].
  - rewrite <- (md_add_all_again kids n' l
                  [Md.ListItem Md.ListItemEndOfList (kids n)]) by done.
    rewrite <- (md_add_all_again kids n l
                  [Md.ListItem Md.ListItemEndOfList (kids n')]) by done.
    cbn [Md.add_all].
    rewrite (md_add_one_last _ _ _ n), (md_add_one_before _ _ _ _ n')
      by done.
    cbn [Md.set_ListFlags]. rewrite !run_bind_Return.
    by apply md_add_all_respect.
  - rewrite <- (md_add_all_again kids n' l
                  [Md.ListItem Md.ListItemEndOfList (kids n)]) by done.
    rewrite <- (md_add_all_again kids n l
                  [Md.ListItem Md.ListItemEndOfList (kids n')]) by done.
    cbn [Md.add_all].
    rewrite (md_add_one_before _ _ _ _ n), (md_add_one_last _ _ _ n')
      by done.
    cbn [Md.set_ListFlags]. rewrite !run_bind_Return.
    by apply md_add_all_respect.
Qed.

End ReadmeFilesOrder.

Lemma readme_runs_ext reparse item item' names entries :
  (forall k, k ∈ names -> item k = item' k) ->
  Md.readme_runs reparse item names entries
  = Md.readme_runs reparse item' names entries.
Proof.
  revert entries. induction names as [|n names IH]; intros entries H; [done|].
  cbn [Md.readme_runs]. rewrite <- (H n) by left.
  destruct (Md.readme_entries entries (item n) n) as [r| |]; [|done..].
  rewrite !run_bind_Return. apply IH. intros k Hk. apply H. by right.
Qed.

(** X23: apart from list flags, the entries of the list after a series of
    [readme] runs depend only on which names were given, not on their order
    nor on how often each was given.  Each run starts from the entries that
    the parser reads from the file that the run before left; the parser is
    taken to read back the entries that were rendered, whatever list flags
    it sets, and to read the text of each new item as an item that links
    its name.  This holds for every list, in any order and of any shape:
    where one order panics, so does the other. *)
Theorem readme_order_of_runs_is_immaterial
    (reparse : list Md.Node -> list Md.Node) (item : string -> Md.Node)
    (names names' : list string) (entries : list Md.Node) :
  (forall entries',
     map Md.clear (reparse entries') = map Md.clear entries') ->
  (forall k, k ∈ names ->
     exists children,
       item k = Md.ListItem 0 children /\ Md.content (item k) = Return k) ->
  (forall k, k ∈ names <-> k ∈ names') ->
  run_map (map Md.clear) (Md.readme_runs reparse item names entries)
  = run_map (map Md.clear) (Md.readme_runs reparse item names' entries).
Proof.
  intros Hre Hitem H.
  pose (kids := fun n =>
          match item n with
          | Md.ListItem _ children => children
          | _ => []
          end).
  assert (Hk : forall k, k ∈ names ->
            item k = Md.ListItem 0 (kids k) /\
            Md.content (Md.ListItem 0 (kids k)) = Return k).
  { intros k (cs & Hi & Hc)%Hitem. subst kids. cbv beta.
    rewrite Hi in Hc |- *. done. }
  rewrite (readme_runs_ext reparse item (fun n => Md.ListItem 0 (kids n))
             names) by (intros k Hin; by apply Hk).
  rewrite (readme_runs_ext reparse item (fun n => Md.ListItem 0 (kids n))
             names') by (intros k Hin; by apply Hk, H).
  rewrite (readme_runs_add_all reparse kids Hre names entries entries)
    by done.
  rewrite (readme_runs_add_all reparse kids Hre names' entries entries)
    by done.
  apply md_add_all_same_names_clear; [done|].
  apply Forall_forall. intros k Hin. by apply Hk.
Qed.

Lemma reflag_clear first entries :
  map Md.clear (Sample.reflag first entries) = map Md.clear entries.
Proof.
  revert first. induction entries as [|e es IH]; intros first; [done|].
  cbn [Sample.reflag map]. rewrite IH. by destruct e.
Qed.

(** "cat" and "ant" in either order, "cat" twice, into a list that is out
    of order, with a parser that sets the list flags anew *)
Lemma readme_order_of_runs_is_immaterial_witness :
  run_map (map Md.clear)
    (Md.readme_runs (Sample.reflag true) (Md.entry 0) ["cat"; "ant"; "cat"]
       [Md.entry 16 "dog"; Md.entry 32 "bee"])
  = run_map (map Md.clear)
      (Md.readme_runs (Sample.reflag true) (Md.entry 0) ["ant"; "cat"]
         [Md.entry 16 "dog"; Md.entry 32 "bee"]).
Proof.
  apply (readme_order_of_runs_is_immaterial (Sample.reflag true)
           (Md.entry 0) ["cat"; "ant"; "cat"] ["ant"; "cat"]).
  - apply reflag_clear.
  - intros k Hk. by eexists.
  - intros k. rewrite !elem_of_cons, elem_of_nil. tauto.
Defined.

(** ** How [main] ends *)

Lemma md_child_no_spin i n : Md.child i n <> Spin.
Proof.
  unfold Md.child. destruct (Md.AsContainer n) as [cs|]; simpl; [|done].
  by destruct (cs !! i).
Qed.

Lemma md_scan_no_spin entries name : Md.scan entries name <> Spin.
Proof.
  induction entries as [|e es IH]; [done|]. rewrite md_scan_cons.
  pose proof (md_content_no_spin e).
  destruct (Md.content e) as [c| |]; simpl; try done.
  destruct (String.eqb c name); [done|].
  destruct (String.ltb name c); [done|].
  by destruct (Md.scan es name).
Qed.

Lemma md_splice_no_spin entries newListItem i :
  Md.splice entries newListItem i <> Spin.
Proof.
  unfold Md.splice, deref, run_bind.
  pose proof (md_set_ListFlags_no_spin Md.ListItemBeginningOfList newListItem).
  pose proof (md_set_ListFlags_no_spin Md.ListItemEndOfList newListItem).
  repeat case_match; try done;
    match goal with
    | H : Md.set_ListFlags ?v ?e = Spin |- _ =>
        by destruct (md_set_ListFlags_no_spin v e)
    end.
Qed.

Lemma md_readme_update_no_spin newListItemList document name :
  Md.readme_update newListItemList document name <> Spin.
Proof.
  unfold Md.readme_update, Md.new_item, Md.readme_entries.
  pose proof (md_child_no_spin 0 newListItemList).
  destruct (Md.child 0 newListItemList) as [l0| |]; simpl; try done.
  pose proof (md_child_no_spin 0 l0).
  destruct (Md.child 0 l0) as [it0| |]; simpl; try done.
  pose proof (md_set_ListFlags_no_spin 0 it0).
  destruct (Md.set_ListFlags 0 it0) as [it| |]; simpl; try done.
  pose proof (md_child_no_spin 1 document).
  destruct (Md.child 1 document) as [list| |]; simpl; try done.
  destruct (Md.AsContainer list) as [entries|]; simpl; [|done].
  pose proof (md_scan_no_spin entries name).
  destruct (Md.scan entries name) as [[|i]| |]; simpl; try done.
  pose proof (md_splice_no_spin entries it i).
  destruct (Md.splice entries it i); simpl; try done.
  by destruct (Md.AsContainer document).
Qed.

Lemma md_readme_no_spin Parse Render name w :
  Md.readme Parse Render name w <> Spin.
Proof.
  unfold Md.readme.
  destruct (OS.ReadFile Md.readmeFile w) as [data|]; [|done].
  pose proof (md_readme_update_no_spin (Parse (Md.newListItemText name))
                (Parse data) name).
  by destruct (Md.readme_update _ _ name) as [[d|]| |].
Qed.

Section ExitFacts.

Variable Template : Type.
Variable Join : string -> string -> string.
Variable MkdirAll : string -> OS.World -> option error * OS.World.
Variable Glob : string -> string -> OS.World -> res (list string).
Variable ParseFiles : string -> string -> OS.World -> res Template.
Variable OpenFile : string -> OS.World -> option error * OS.World.
Variable Execute :
  Template -> string -> string -> OS.World -> option error * OS.World.
Variable html_Parse : string -> res Html.Node.
Variable html_Render : Html.Node -> res string.
Variable md_Parse : string -> Md.Node.
Variable md_Render : Md.Node -> string.
Variable Unmarshal : string -> res (list string).
Variable quote : string -> string.

Let instance :=
  Driver.instance Template Join MkdirAll Glob ParseFiles OpenFile Execute.
Let index := Html.index html_Parse html_Render.
Let readme := Md.readme md_Parse md_Render.
Let record := Manifest.record Unmarshal quote.
Let main :=
  Driver.main Template Join MkdirAll Glob ParseFiles OpenFile Execute
    html_Parse html_Render md_Parse md_Render Unmarshal quote.

(** One of the four steps returns [err], the steps before it [nil]. *)
Let fails (fuel : nat) (name : string) (w : OS.World) (err : error) : Prop :=
  (exists w1, instance name w = (Some err, w1)) \/
  (exists w1 w2,
     instance name w = (None, w1) /\
     index fuel name w1 = Return (Some err, w2)) \/
  (exists w1 w2 w3,
     instance name w = (None, w1) /\
     index fuel name w1 = Return (None, w2) /\
     readme name w2 = Return (Some err, w3)) \/
  (exists w1 w2 w3 w4,
     instance name w = (None, w1) /\
     index fuel name w1 = Return (None, w2) /\
     readme name w2 = Return (None, w3) /\
     record name w3 = (Some err, w4)).

Ltac end_of_run :=
  unfold fails; simpl;
  repeat match goal with
         | |- _ /\ _ => split
         | |- _ <-> _ => split
         end;
  try (intros;
       repeat match goal with
              | H : exists _, _ |- _ => destruct H
              | H : _ /\ _ |- _ => destruct H
              | H : _ \/ _ |- _ => destruct H
              end;
       simplify_eq; solve [done | congruence | eauto 12]).

(** X13: how [main] with a name ends.  It exits with code 0 exactly when
    each of the four steps returned [nil]; it then has printed nothing.  It
    exits with code 1 exactly when one of the steps returned an error, the
    steps before it having returned [nil]; it then has printed
    "repository: ", that error and a newline.  In every other run [main]
    prints nothing and does not exit by itself: either [index] or [readme]
    panics, so that the Go runtime ends the process, or the search loop of
    [index] does not end. *)
Theorem main_exit_code
    (fuel : nat) (prog name : string) (rest : list string) (w : OS.World) :
  let out := main fuel (prog :: name :: rest) w in
  (Driver.status out = Return 0 <->
   exists w1 w2 w3 w4,
     instance name w = (None, w1) /\
     index fuel name w1 = Return (None, w2) /\
     readme name w2 = Return (None, w3) /\
     record name w3 = (None, w4) /\
     Driver.world out = w4) /\
  (Driver.status out = Return 1 <-> exists err, fails fuel name w err) /\
  (forall err,
     fails fuel name w err ->
     Driver.stdout out = "repository: " +:+ err +:+ nl) /\
  (Driver.status out = Panic <->
   exists w1,
     instance name w = (None, w1) /\
     (index fuel name w1 = Panic \/
      exists w2,
        index fuel name w1 = Return (None, w2) /\
        readme name w2 = Panic)) /\
  (Driver.status out = Spin <->
   exists w1,
     instance name w = (None, w1) /\ index fuel name w1 = Spin) /\
  (Driver.status out <> Return 1 -> Driver.stdout out = EmptyString) /\
  (Driver.status out = Return 0 \/ Driver.status out = Return 1 \/
   Driver.status out = Panic \/ Driver.status out = Spin).
Proof.
  intros out. subst out. subst main instance index readme record.
  unfold Driver.main, Driver.index, Driver.readme, Driver.record.
  change (length (prog :: name :: rest) =? 1)%nat with false.
  change ((prog :: name :: rest) !! 1) with (Some name). cbv iota.
  destruct (Driver.instance _ _ _ _ _ _ _ name w) as [[e1|] w1] eqn:E1;
    [end_of_run|].
  destruct (Html.index _ _ fuel name w1) as [[[e2|] w2]| |] eqn:E2;
    [end_of_run| |end_of_run..].
  pose proof (md_readme_no_spin md_Parse md_Render name w2) as Hspin.
  destruct (Md.readme _ _ name w2) as [[[e3|] w3]| |] eqn:E3;
    [end_of_run| |end_of_run|done].
  destruct (Manifest.record _ _ name w3) as [[e4|] w4] eqn:E4; end_of_run.
Qed.

End ExitFacts.
